(** * pysme: stochastic integrators and grid-convergence helpers

    A shallow embedding of [src/pysme/sde.py] and [grid_conv.py].

    Modelling conventions.
    - numpy floats are idealised as the real numbers [R]: [np.sqrt] is [sqrt],
      [np.log] is [ln], [np.abs] is [Rabs].  Rounding, NaN and infinities are
      outside the model: where numpy yields NaN or an infinity ([sqrt] of a
      negative increment, [ln] of zero) the functions of [R] yield some real
      number; a statement about a logarithm therefore assumes that its
      argument is positive.  The time grids of the data model are increasing.
    - a one-dimensional array is a [list R]; a two-dimensional array is a
      record [ndarray2] that carries its shape next to its rows, because numpy
      decides broadcasting on the shape even when the array has no rows.
    - numpy raises [ValueError] when two operands cannot be broadcast; fallible
      code therefore lives in the error monad [result].
    - the integrators only build new arrays ([np.array], [np.vstack], [+],
      [*]), so they are first given as functions on values; the same code is
      given a second time as store-passing code ([euler_h], ...) where the
      caller's [X0] and the result are objects of a heap, and the two are
      proved to agree ([store_integrators_simulate]).
    - Python dictionaries are [gmap string pyval]; a dictionary that is
      shared by reference lives in a store addressed by [loc].
    - functions of the repository that are not part of these two files
      ([prep_homodyne_gauss_1_5], [homodyne_gauss_integrate]) and the random
      source [np.random.randn] are parameters of the drivers. *)

From Stdlib Require Import Reals Lra Lia.
From stdpp Require Import gmap strings list fin_maps.

Open Scope R_scope.

(** ** Exceptions and the error monad *)

Inductive exn : Type :=
| ValueError
| IndexError
| KeyError
| TypeError.

Inductive result (A : Type) : Type :=
| Ok (a : A)
| Raise (e : exn).

Arguments Ok {A} a.
Arguments Raise {A} e.

Definition bind {A B : Type} (m : result A) (k : A -> result B) : result B :=
  match m with
  | Ok a => k a
  | Raise e => Raise e
  end.

Notation "'let*' x ':=' m 'in' k" := (bind m (fun x => k))
  (at level 10, x name, m at level 100, k at level 200).
Notation "'let*' ' p ':=' m 'in' k" := (bind m (fun x => match x with p => k end))
  (at level 10, p pattern, m at level 100, k at level 200).

Definition is_ok {A : Type} (m : result A) : bool :=
  match m with Ok _ => true | Raise _ => false end.

(** Monadic left fold: a Python [for] loop whose body may raise. *)
Fixpoint foldM {A B : Type} (f : A -> B -> result A) (l : list B) (a : A)
  : result A :=
  match l with
  | [] => Ok a
  | b :: l' => let* a' := f a b in foldM f l' a'
  end.

(** ** numpy arrays *)

(** [broadcast_dim m n]: the common length of two axes of lengths [m] and
    [n], when numpy can broadcast them. *)
Definition broadcast_dim (m n : nat) : option nat :=
  if (m =? n)%nat then Some m
  else if (m =? 1)%nat then Some n
  else if (n =? 1)%nat then Some m
  else None.

(** Element-wise combination along one axis whose lengths are broadcastable:
    an axis of length one is stretched. *)
Definition zip_broadcast {A B C : Type} (f : A -> B -> C)
    (xs : list A) (ys : list B) : list C :=
  if (length xs =? length ys)%nat then zip_with f xs ys
  else match xs, ys with
       | [x], _ => map (f x) ys
       | _, [y] => map (fun x => f x y) xs
       | _, _ => []
       end.

(** Binary ufunc on one-dimensional arrays ([a + b], [a * b], ...). *)
Definition ufunc1 (f : R -> R -> R) (xs ys : list R) : result (list R) :=
  match broadcast_dim (length xs) (length ys) with
  | Some _ => Ok (zip_broadcast f xs ys)
  | None => Raise ValueError
  end.

(** array * scalar and array / scalar *)
Definition vmuls (v : list R) (s : R) : list R := map (fun x => x * s) v.
Definition vdivs (v : list R) (s : R) : list R := map (fun x => x / s) v.

Record ndarray2 : Type := mk_ndarray2 {
  nrows : nat;
  ncols : nat;
  rows : list (list R)
}.

Definition array2_wf (A : ndarray2) : Prop :=
  length (rows A) = nrows A /\ Forall (fun r => length r = ncols A) (rows A).

(** [A[r, n]] *)
Definition aget (A : ndarray2) (r n : nat) : R := nth n (nth r (rows A) []) 0.

(** Binary ufunc on two-dimensional arrays. *)
Definition ufunc2 (f : R -> R -> R) (A B : ndarray2) : result ndarray2 :=
  match broadcast_dim (nrows A) (nrows B), broadcast_dim (ncols A) (ncols B) with
  | Some r, Some c =>
      Ok {| nrows := r; ncols := c;
            rows := zip_broadcast (zip_broadcast f) (rows A) (rows B) |}
  | _, _ => Raise ValueError
  end.

Definition amap (f : R -> R) (A : ndarray2) : ndarray2 :=
  {| nrows := nrows A; ncols := ncols A; rows := map (map f) (rows A) |}.

(** [l[::2]] *)
Fixpoint stride2 {A : Type} (l : list A) : list A :=
  match l with
  | x :: _ :: l' => x :: stride2 l'
  | _ => l
  end.

(** [A[:, ::2]] and [A[:, 1::2]] *)
Definition cols_even (A : ndarray2) : ndarray2 :=
  {| nrows := nrows A; ncols := Nat.div2 (S (ncols A));
     rows := map stride2 (rows A) |}.

Definition cols_odd (A : ndarray2) : ndarray2 :=
  {| nrows := nrows A; ncols := Nat.div2 (ncols A);
     rows := map (fun r => stride2 (tail r)) (rows A) |}.

(** ** grid_conv.py *)

(** [np.sum(np.abs(vec))] *)
Definition l1_norm (vec : list R) : R := fold_left Rplus (map Rabs vec) 0.

(** The function returns a pair when [U2s] is [None] and a triple otherwise;
    the third component is optional here. *)
Definition double_increments (times : list R) (U1s : ndarray2)
    (U2s : option ndarray2) : result (list R * ndarray2 * option ndarray2) :=
  let new_times := stride2 times in
  let even_U1s := cols_even U1s in
  let odd_U1s := cols_odd U1s in
  let* s := ufunc2 Rplus even_U1s odd_U1s in
  let new_U1s := amap (fun x => x / sqrt 2) s in
  match U2s with
  | None => Ok (new_times, new_U1s, None)
  | Some U2s =>
      let even_U2s := cols_even U2s in
      let odd_U2s := cols_odd U2s in
      let* d := ufunc2 Rminus even_U1s odd_U1s in
      let* a := ufunc2 Rplus (amap (fun x => sqrt 3 * x) d) even_U2s in
      let* b := ufunc2 Rplus a odd_U2s in
      Ok (new_times, new_U1s, Some (amap (fun x => x / (2 * sqrt 2)) b))
  end.

(** ** sde.py *)

(** [[tf - ti for tf, ti in zip(ts[1:], ts[:-1])]], also [ts[1:] - ts[:-1]]:
    the two slices always have the same length. *)
Definition time_increments (ts : list R) : list R :=
  zip_with Rminus (tail ts) (removelast ts).

(** [np.product(np.array([xs, ys]), axis=0)]: [np.array] needs rows of one
    length to build the 2 x n array (numpy 1.24 raises [ValueError] on ragged
    input). *)
Definition np_product_pair (xs ys : list R) : result (list R) :=
  if (length xs =? length ys)%nat then Ok (zip_with Rmult xs ys)
  else Raise ValueError.

(** [zip(a, b, c)] and [zip(a, b, c, d)]: Python stops at the shortest. *)
Definition zip3 {A B C : Type} (a : list A) (b : list B) (c : list C)
  : list (A * B * C) := zip (zip a b) c.

Definition zip4 {A B C D : Type} (a : list A) (b : list B) (c : list C)
    (d : list D) : list (A * B * C * D) := zip (zip3 a b c) d.

(** [np.vstack((X, row))]: [X] is a k x n array with k >= 1, [row] becomes a
    1 x m array, and the column counts must agree. *)
Definition vstack (X : list (list R)) (row : list R)
  : result (list (list R)) :=
  if (length row =? length (List.last X []))%nat then Ok (X ++ [row])
  else Raise ValueError.

(** [X + a*dt + b*dW] *)
Definition euler_row (a b : list R) (X : list R) (dt dW : R)
  : result (list R) :=
  let* s1 := ufunc1 Rplus X (vmuls a dt) in
  ufunc1 Rplus s1 (vmuls b dW).

(** [X + a*dt + b*dW + c*(dW**2 - dt)/2] *)
Definition milstein_row (a b c : list R) (X : list R) (dt dW : R)
  : result (list R) :=
  let* s1 := ufunc1 Rplus X (vmuls a dt) in
  let* s2 := ufunc1 Rplus s1 (vmuls b dW) in
  ufunc1 Rplus s2 (vdivs (vmuls c (dW ^ 2 - dt)) 2).

(** [X + a*dt + b*dW + c*(dW**2 - dt)] *)
Definition faulty_milstein_row (a b c : list R) (X : list R) (dt dW : R)
  : result (list R) :=
  let* s1 := ufunc1 Rplus X (vmuls a dt) in
  let* s2 := ufunc1 Rplus s1 (vmuls b dW) in
  ufunc1 Rplus s2 (vmuls c (dW ^ 2 - dt)).

Definition euler (drift_fn diffusion_fn : list R -> R -> list R)
    (X0 ts Us : list R) : result (list (list R)) :=
  let dts := time_increments ts in
  let sqrtdts := map sqrt dts in
  let* dWs := np_product_pair sqrtdts Us in
  foldM (fun X '(t, dt, dW) =>
           let Xl := List.last X [] in
           let* r := euler_row (drift_fn Xl t) (diffusion_fn Xl t) Xl dt dW in
           vstack X r)
        (zip3 (removelast ts) dts dWs) [X0].

Definition meas_euler (drift_fn diffusion_fn : list R -> R -> list R)
    (dW_fn : R -> R -> list R -> R -> R)
    (X0 ts dMs : list R) : result (list (list R)) :=
  let dts := time_increments ts in
  foldM (fun X '(t, dt, dM) =>
           let Xl := List.last X [] in
           let dW := dW_fn dM dt Xl t in
           let* r := euler_row (drift_fn Xl t) (diffusion_fn Xl t) Xl dt dW in
           vstack X r)
        (zip3 (removelast ts) dts dMs) [X0].

Definition milstein (drift diffusion b_dx_b : list R -> R -> list R)
    (X0 ts Us : list R) : result (list (list R)) :=
  let dts := time_increments ts in
  let sqrtdts := map sqrt dts in
  let* dWs := np_product_pair sqrtdts Us in
  foldM (fun X '(t, dt, dW) =>
           let Xl := List.last X [] in
           let* r := milstein_row (drift Xl t) (diffusion Xl t) (b_dx_b Xl t)
                       Xl dt dW in
           vstack X r)
        (zip3 (removelast ts) dts dWs) [X0].

Definition meas_milstein (drift_fn diffusion_fn b_dx_b_fn : list R -> R -> list R)
    (dW_fn : R -> R -> list R -> R -> R)
    (X0 ts dMs : list R) : result (list (list R)) :=
  let dts := time_increments ts in
  foldM (fun X '(t, dt, dM) =>
           let Xl := List.last X [] in
           let dW := dW_fn dM dt Xl t in
           let* r := milstein_row (drift_fn Xl t) (diffusion_fn Xl t)
                       (b_dx_b_fn Xl t) Xl dt dW in
           vstack X r)
        (zip3 (removelast ts) dts dMs) [X0].

(** The nine coefficient callables of the order 1.5 scheme. *)
Record taylor_coeffs : Type := mk_taylor_coeffs {
  drift : list R -> list R;
  diffusion : list R -> list R;
  b_dx_b : list R -> list R;
  b_dx_a : list R -> list R;
  a_dx_b : list R -> list R;
  a_dx_a : list R -> list R;
  b_dx_b_dx_b : list R -> list R;
  b_b_dx_dx_b : list R -> list R;
  b_b_dx_dx_a : list R -> list R
}.

(** The right-hand side of the loop body of [time_ind_taylor_1_5]; Python
    evaluates the sum left to right, each summand just before it is added. *)
Definition taylor_1_5_row (c : taylor_coeffs) (X : list R) (dt dW dZ : R)
  : result (list R) :=
  let* s1 := ufunc1 Rplus X (vmuls (drift c X) dt) in
  let* s2 := ufunc1 Rplus s1 (vmuls (diffusion c X) dW) in
  let* s3 := ufunc1 Rplus s2 (vdivs (vmuls (b_dx_b c X) (dW ^ 2 - dt)) 2) in
  let* s4 := ufunc1 Rplus s3 (vmuls (b_dx_a c X) dZ) in
  let* u5 := ufunc1 Rplus (a_dx_b c X) (vdivs (b_b_dx_dx_b c X) 2) in
  let* s5 := ufunc1 Rplus s4 (vmuls u5 (dW * dt - dZ)) in
  let* u6 := ufunc1 Rplus (a_dx_a c X) (vdivs (b_b_dx_dx_a c X) 2) in
  let* s6 := ufunc1 Rplus s5 (vdivs (vmuls u6 (dt ^ 2)) 2) in
  ufunc1 Rplus s6
    (vdivs (vmuls (vmuls (b_dx_b_dx_b c X) (dW ^ 2 / 3 - dt)) dW) 2).

Definition time_ind_taylor_1_5 (c : taylor_coeffs)
    (X0 ts U1s U2s : list R) : result (list (list R)) :=
  let dts := time_increments ts in
  let sqrtdts := map sqrt dts in
  let* dWs := ufunc1 Rmult U1s sqrtdts in
  let* z1 := ufunc1 Rplus U1s (vdivs U2s (sqrt 3)) in
  let* z2 := ufunc1 Rmult z1 sqrtdts in
  let* z3 := ufunc1 Rmult z2 dts in
  let dZs := vdivs z3 2 in
  foldM (fun Xs '(t, dt, dW, dZ) =>
           let X := List.last Xs [] in
           let* r := taylor_1_5_row c X dt dW dZ in
           vstack Xs r)
        (zip4 (removelast ts) dts dWs dZs) [X0].

(** [faulty_milstein] keeps its rows in a Python list and appends to it, so no
    shape check takes place between rows. *)
Definition faulty_milstein (drift diffusion b_dx_b : list R -> R -> list R)
    (X0 ts Us : list R) : result (list (list R)) :=
  let dts := time_increments ts in
  let sqrtdts := map sqrt dts in
  let* dWs := np_product_pair sqrtdts Us in
  foldM (fun X '(t, dt, dW) =>
           let Xl := List.last X [] in
           let* r := faulty_milstein_row (drift Xl t) (diffusion Xl t)
                       (b_dx_b Xl t) Xl dt dW in
           Ok (X ++ [r]))
        (zip3 (removelast ts) dts dWs) [X0].

(** ** Objects shared by reference *)

Definition loc : Type := positive.

(** A computation that reads and writes a store of type [S] and may raise;
    the store survives an exception. *)
Definition st (S A : Type) : Type := S -> result A * S.

Definition sret {S A : Type} (a : A) : st S A := fun s => (Ok a, s).

Definition sbind {S A B : Type} (m : st S A) (k : A -> st S B) : st S B :=
  fun s => match m s with
           | (Ok a, s') => k a s'
           | (Raise e, s') => (Raise e, s')
           end.

Definition lift {S A : Type} (m : result A) : st S A := fun s => (m, s).

Notation "'do*' x ':=' m 'in' k" := (sbind m (fun x => k))
  (at level 10, x name, m at level 100, k at level 200).

Fixpoint sfoldM {S A B : Type} (f : A -> B -> st S A) (l : list B) (a : A)
  : st S A :=
  match l with
  | [] => sret a
  | b :: l' => do* a' := f a b in sfoldM f l' a'
  end.

(** *** numpy arrays on the heap (sde.py with the caller's [X0] by reference) *)

Inductive pyobj : Type :=
| ObjArray1 (a : list R)
| ObjArray2 (a : list (list R))
| ObjList (l : list loc).

Abbreviation heap := (gmap loc pyobj).

Definition alloc (o : pyobj) : st heap loc :=
  fun h => let l := fresh (dom h) in (Ok l, <[l := o]> h).

Definition read_array1 (l : loc) : st heap (list R) :=
  fun h => match h !! l with
           | Some (ObjArray1 v) => (Ok v, h)
           | _ => (Raise TypeError, h)
           end.

(** The rows of a trajectory held either as a two-dimensional array or as a
    Python list of one-dimensional arrays. *)
Definition rows_of (X : loc) : st heap (list (list R)) :=
  fun h => match h !! X with
           | Some (ObjArray2 rs) => (Ok rs, h)
           | Some (ObjList ls) =>
               match mapM (fun l => match h !! l with
                                    | Some (ObjArray1 v) => Some v
                                    | _ => None
                                    end) ls with
               | Some rs => (Ok rs, h)
               | None => (Raise TypeError, h)
               end
           | _ => (Raise TypeError, h)
           end.

(** [np.array([X0])]: a new 1 x n array with a copy of the data of [X0]. *)
Definition np_array_of_list1 (X0 : loc) : st heap loc :=
  do* v := read_array1 X0 in alloc (ObjArray2 [v]).

(** [[np.array(X0)]]: a new Python list holding a new copy of [X0]. *)
Definition list_of_np_array (X0 : loc) : st heap loc :=
  do* v := read_array1 X0 in
  do* a := alloc (ObjArray1 v) in
  alloc (ObjList [a]).

(** The value of [X[-1]]. *)
Definition last_row (X : loc) : st heap (list R) :=
  do* rs := rows_of X in sret (List.last rs []).

(** [np.vstack((X, row))] returns a new array. *)
Definition np_vstack (X : loc) (row : list R) : st heap loc :=
  do* rs := rows_of X in
  do* rs' := lift (vstack rs row) in
  alloc (ObjArray2 rs').

(** [X.append(row)] stores the new row and mutates the list [X] in place. *)
Definition list_append (X : loc) (row : list R) : st heap loc :=
  do* r := alloc (ObjArray1 row) in
  fun h => match h !! X with
           | Some (ObjList ls) => (Ok X, <[X := ObjList (ls ++ [r])]> h)
           | _ => (Raise TypeError, h)
           end.

Definition euler_h (drift_fn diffusion_fn : list R -> R -> list R)
    (X0 : loc) (ts Us : list R) : st heap loc :=
  let dts := time_increments ts in
  let sqrtdts := map sqrt dts in
  do* dWs := lift (np_product_pair sqrtdts Us) in
  do* X := np_array_of_list1 X0 in
  sfoldM (fun X '(t, dt, dW) =>
            do* Xl := last_row X in
            do* r := lift (euler_row (drift_fn Xl t) (diffusion_fn Xl t)
                             Xl dt dW) in
            np_vstack X r)
         (zip3 (removelast ts) dts dWs) X.

Definition meas_euler_h (drift_fn diffusion_fn : list R -> R -> list R)
    (dW_fn : R -> R -> list R -> R -> R)
    (X0 : loc) (ts dMs : list R) : st heap loc :=
  let dts := time_increments ts in
  do* X := np_array_of_list1 X0 in
  sfoldM (fun X '(t, dt, dM) =>
            do* Xl := last_row X in
            let dW := dW_fn dM dt Xl t in
            do* r := lift (euler_row (drift_fn Xl t) (diffusion_fn Xl t)
                             Xl dt dW) in
            np_vstack X r)
         (zip3 (removelast ts) dts dMs) X.

Definition milstein_h (drift diffusion b_dx_b : list R -> R -> list R)
    (X0 : loc) (ts Us : list R) : st heap loc :=
  let dts := time_increments ts in
  let sqrtdts := map sqrt dts in
  do* dWs := lift (np_product_pair sqrtdts Us) in
  do* X := np_array_of_list1 X0 in
  sfoldM (fun X '(t, dt, dW) =>
            do* Xl := last_row X in
            do* r := lift (milstein_row (drift Xl t) (diffusion Xl t)
                             (b_dx_b Xl t) Xl dt dW) in
            np_vstack X r)
         (zip3 (removelast ts) dts dWs) X.

Definition meas_milstein_h
    (drift_fn diffusion_fn b_dx_b_fn : list R -> R -> list R)
    (dW_fn : R -> R -> list R -> R -> R)
    (X0 : loc) (ts dMs : list R) : st heap loc :=
  let dts := time_increments ts in
  do* X := np_array_of_list1 X0 in
  sfoldM (fun X '(t, dt, dM) =>
            do* Xl := last_row X in
            let dW := dW_fn dM dt Xl t in
            do* r := lift (milstein_row (drift_fn Xl t) (diffusion_fn Xl t)
                             (b_dx_b_fn Xl t) Xl dt dW) in
            np_vstack X r)
         (zip3 (removelast ts) dts dMs) X.

Definition time_ind_taylor_1_5_h (c : taylor_coeffs)
    (X0 : loc) (ts U1s U2s : list R) : st heap loc :=
  let dts := time_increments ts in
  let sqrtdts := map sqrt dts in
  do* dWs := lift (ufunc1 Rmult U1s sqrtdts) in
  do* z1 := lift (ufunc1 Rplus U1s (vdivs U2s (sqrt 3))) in
  do* z2 := lift (ufunc1 Rmult z1 sqrtdts) in
  do* z3 := lift (ufunc1 Rmult z2 dts) in
  let dZs := vdivs z3 2 in
  do* Xs := list_of_np_array X0 in
  sfoldM (fun Xs '(t, dt, dW, dZ) =>
            do* X := last_row Xs in
            do* r := lift (taylor_1_5_row c X dt dW dZ) in
            np_vstack Xs r)
         (zip4 (removelast ts) dts dWs dZs) Xs.

Definition faulty_milstein_h (drift diffusion b_dx_b : list R -> R -> list R)
    (X0 : loc) (ts Us : list R) : st heap loc :=
  let dts := time_increments ts in
  let sqrtdts := map sqrt dts in
  do* dWs := lift (np_product_pair sqrtdts Us) in
  do* X := list_of_np_array X0 in
  sfoldM (fun X '(t, dt, dW) =>
            do* Xl := last_row X in
            do* r := lift (faulty_milstein_row (drift Xl t) (diffusion Xl t)
                             (b_dx_b Xl t) Xl dt dW) in
            list_append X r)
         (zip3 (removelast ts) dts dWs) X.

(** *** Keyword dictionaries (grid_conv.py) *)

(** What a keyword dictionary may hold: the coefficient callables and the
    initial state prepared for the integrator, and the grid and noise arrays. *)
Inductive pyval : Type :=
| PyNone
| PyFloat (x : R)
| PyArray (a : list R)
| PyCallable (f : list R -> list R).

Abbreviation kwargs := (gmap string pyval).
Abbreviation dict_store := (gmap loc (gmap string pyval)).

(** [d.copy()] and a freshly built dictionary *)
Definition dict_alloc (m : kwargs) : st dict_store loc :=
  fun s => let l := fresh (dom s) in (Ok l, <[l := m]> s).

Definition dict_read (d : loc) : st dict_store kwargs :=
  fun s => match s !! d with
           | Some m => (Ok m, s)
           | None => (Raise TypeError, s)
           end.

Definition dict_copy (d : loc) : st dict_store loc :=
  do* m := dict_read d in dict_alloc m.

(** [d.update({k1: v1, ...})] writes into the object [d] itself. *)
Definition dict_update (d : loc) (items : list (string * pyval))
  : st dict_store unit :=
  fun s => match s !! d with
           | Some m =>
               (Ok tt, <[d := fold_left (fun m kv => <[kv.1 := kv.2]> m) items m]> s)
           | None => (Raise TypeError, s)
           end.

(** [rhos[-1]] *)
Definition getitem_last (rhos : list (list R)) : result (list R) :=
  match rhos with
  | [] => Raise IndexError
  | _ => Ok (List.last rhos [])
  end.

(** [integrator_fn( **keyword_args )] receives the contents of the dictionary. *)
Definition homodyne_strong_calc_rate
    (integrator_fn : kwargs -> result (list (list R)))
    (keyword_args : loc)
    (times U1s U2s times_2 U1s_2 U2s_2 times_4 U1s_4 U2s_4 : list R)
  : st dict_store R :=
  do* keyword_args_2 := dict_copy keyword_args in
  do* keyword_args_4 := dict_copy keyword_args in
  do* _ := dict_update keyword_args
             [("ts", PyArray times); ("U1s", PyArray U1s);
              ("U2s", PyArray U2s)]%string in
  do* _ := dict_update keyword_args_2
             [("ts", PyArray times_2); ("U1s", PyArray U1s_2);
              ("U2s", PyArray U2s_2)]%string in
  do* _ := dict_update keyword_args_4
             [("ts", PyArray times_4); ("U1s", PyArray U1s_4);
              ("U2s", PyArray U2s_4)]%string in
  do* kw := dict_read keyword_args in
  do* rhos := lift (integrator_fn kw) in
  do* kw_2 := dict_read keyword_args_2 in
  do* rhos_2 := lift (integrator_fn kw_2) in
  do* kw_4 := dict_read keyword_args_4 in
  do* rhos_4 := lift (integrator_fn kw_4) in
  lift (let* e4 := getitem_last rhos_4 in
        let* e2 := getitem_last rhos_2 in
        let* d42 := ufunc1 Rminus e4 e2 in
        let* e2' := getitem_last rhos_2 in
        let* e1 := getitem_last rhos in
        let* d21 := ufunc1 Rminus e2' e1 in
        Ok ((ln (l1_norm d42) - ln (l1_norm d21)) / ln 2)).

(** One element of [meta_kwargs]: a dictionary literal with eleven fixed
    keys; [keyword_args] is a reference to a dictionary object. *)
Record work_item : Type := mk_work_item {
  wi_integrator_fn : kwargs -> result (list (list R));
  wi_keyword_args : loc;
  wi_times : list R;
  wi_U1s : list R;
  wi_U2s : list R;
  wi_times_2 : list R;
  wi_U1s_2 : list R;
  wi_U2s_2 : list R;
  wi_times_4 : list R;
  wi_U1s_4 : list R;
  wi_U2s_4 : list R
}.

(** [homodyne_strong_calc_rate( **meta_kwarg )] *)
Definition run_work_item (w : work_item) : st dict_store R :=
  homodyne_strong_calc_rate (wi_integrator_fn w) (wi_keyword_args w)
    (wi_times w) (wi_U1s w) (wi_U2s w)
    (wi_times_2 w) (wi_U1s_2 w) (wi_U2s_2 w)
    (wi_times_4 w) (wi_U1s_4 w) (wi_U2s_4 w).

(** [np.random.randn(r, c)]: the process-wide random source is an oracle
    [randn k r c] indexed by the number [k] of the draw; a negative dimension
    is a [ValueError]. *)
Definition np_random_randn (randn : nat -> nat -> nat -> ndarray2)
    (k r : nat) (times : list R) : result ndarray2 :=
  match times with
  | [] => Raise ValueError
  | _ :: rest => Ok (randn k r (length rest))
  end.

(** [prep] is the dictionary returned by [prep_homodyne_gauss_1_5(rho_0, c_op,
    M_sq, N, H, basis)], a function of the model-preparation module; the
    argument [prep_fn] is not used by the code. *)
Definition homodyne_strong_grid_convergence
    (prep : kwargs) (randn : nat -> nat -> nat -> ndarray2)
    (integrator_fn : kwargs -> result (list (list R)))
    (times : list R) (U1s U2s : option ndarray2) (trajectories : nat)
  : st dict_store (list work_item) :=
  do* keyword_args := dict_alloc prep in
  do* U1s' := lift (match U1s with
                    | Some U => Ok U
                    | None => np_random_randn randn 0 trajectories times
                    end) in
  do* U2s' := lift (match U2s with
                    | Some U => Ok U
                    | None => np_random_randn randn
                                (match U1s with Some _ => 0%nat | None => 1%nat end) trajectories times
                    end) in
  do* r2 := lift (double_increments times U1s' (Some U2s')) in
  let '(times_2, U1s_2, U2s_2) := r2 in
  do* r4 := lift (double_increments times_2 U1s_2 U2s_2) in
  let '(times_4, U1s_4, U2s_4) := r4 in
  let meta_kwargs :=
    map (fun '(U1, U2, U1_2, U2_2, U1_4, U2_4) =>
           {| wi_integrator_fn := integrator_fn;
              wi_keyword_args := keyword_args;
              wi_times := times; wi_U1s := U1; wi_U2s := U2;
              wi_times_2 := times_2; wi_U1s_2 := U1_2; wi_U2s_2 := U2_2;
              wi_times_4 := times_4; wi_U1s_4 := U1_4; wi_U2s_4 := U2_4 |})
        (zip (zip (zip (zip (zip (rows U1s') (rows U2s')) (rows U1s_2))
                       (from_option rows [] U2s_2)) (rows U1s_4))
             (from_option rows [] U2s_4)) in
  sret meta_kwargs.

(** [Us[0]] *)
Definition getitem_row0 (Us : ndarray2) : result (list R) :=
  match rows Us with
  | [] => Raise IndexError
  | r :: _ => Ok r
  end.

(** [integrate] is [homodyne_gauss_integrate(rho_0, c_op, M_sq, N, H, basis,
    times, Us)] of [pysme.integrate] with its model arguments fixed. *)
Definition milstein_grid_convergence
    (integrate : list R -> list R -> result (list (list R)))
    (randn : nat -> nat -> nat -> ndarray2)
    (times : list R) (Us : option ndarray2)
  : result (list (list (list R) * list R)) :=
  let* Us := match Us with
             | Some U => Ok U
             | None => np_random_randn randn 0 1 times
             end in
  let* '(times_2, Us_2, _) := double_increments times Us None in
  let* '(times_4, Us_4, _) := double_increments times_2 Us_2 None in
  let* U0 := getitem_row0 Us in
  let* rhos := integrate times U0 in
  let* U0_2 := getitem_row0 Us_2 in
  let* rhos_2 := integrate times_2 U0_2 in
  let* U0_4 := getitem_row0 Us_4 in
  let* rhos_4 := integrate times_4 U0_4 in
  Ok [(rhos, times); (rhos_2, times_2); (rhos_4, times_4)].

(** [integrate] is [faulty_homodyne_gauss_integrate(rho_0, c_op, M_sq, N, H,
    basis, times, Us)] of [pysme.integrate] with its model arguments fixed. *)
Definition faulty_milstein_grid_convergence
    (integrate : list R -> list R -> result (list (list R)))
    (randn : nat -> nat -> nat -> ndarray2)
    (times : list R) (Us : option ndarray2)
  : result (list (list (list R) * list R)) :=
  let* Us := match Us with
             | Some U => Ok U
             | None => np_random_randn randn 0 1 times
             end in
  let* '(times_2, Us_2, _) := double_increments times Us None in
  let* '(times_4, Us_4, _) := double_increments times_2 Us_2 None in
  let* U0 := getitem_row0 Us in
  let* rhos := integrate times U0 in
  let* U0_2 := getitem_row0 Us_2 in
  let* rhos_2 := integrate times_2 U0_2 in
  let* U0_4 := getitem_row0 Us_4 in
  let* rhos_4 := integrate times_4 U0_4 in
  Ok [(rhos, times); (rhos_2, times_2); (rhos_4, times_4)].

(** [trajectory_convergence] is a stub: it returns [None] for every input. *)
Definition trajectory_convergence (times : list R) (U1s U2s : option ndarray2)
  : option (list (list R)) := None.

(** ** Specification-side definitions

    The update rules and grid quantities as the specification writes them,
    component by component, to be compared with what the code computes. *)

(** Component [mu] of a vector. *)
Definition comp (v : list R) (mu : nat) : R := nth mu v 0.

(** The vector of length [n] with components [f 0 .. f (n-1)]. *)
Definition tabulate (n : nat) (f : nat -> R) : list R := map f (seq 0 n).

Definition Delta_t (ts : list R) (i : nat) : R := nth (S i) ts 0 - nth i ts 0.

Definition Delta_W (ts Us : list R) (i : nat) : R :=
  nth i Us 0 * sqrt (Delta_t ts i).

Definition Delta_Z (ts U1s U2s : list R) (i : nat) : R :=
  (nth i U1s 0 + nth i U2s 0 / sqrt 3) * sqrt (Delta_t ts i) * Delta_t ts i / 2.

Definition euler_step (a b : list R -> R -> list R)
    (X : list R) (t dt dW : R) : list R :=
  tabulate (length X)
    (fun mu => comp X mu + comp (a X t) mu * dt + comp (b X t) mu * dW).

Definition milstein_step (a b c : list R -> R -> list R)
    (X : list R) (t dt dW : R) : list R :=
  tabulate (length X)
    (fun mu => comp X mu + comp (a X t) mu * dt + comp (b X t) mu * dW
               + 1 / 2 * comp (c X t) mu * (dW ^ 2 - dt)).

Definition faulty_milstein_step (a b c : list R -> R -> list R)
    (X : list R) (t dt dW : R) : list R :=
  tabulate (length X)
    (fun mu => comp X mu + comp (a X t) mu * dt + comp (b X t) mu * dW
               + comp (c X t) mu * (dW ^ 2 - dt)).

Definition taylor_1_5_step (c : taylor_coeffs)
    (X : list R) (dt dW dZ : R) : list R :=
  tabulate (length X)
    (fun mu =>
       comp X mu + comp (drift c X) mu * dt + comp (diffusion c X) mu * dW
       + 1 / 2 * comp (b_dx_b c X) mu * (dW ^ 2 - dt)
       + comp (b_dx_a c X) mu * dZ
       + (comp (a_dx_b c X) mu + 1 / 2 * comp (b_b_dx_dx_b c X) mu)
         * (dW * dt - dZ)
       + 1 / 2 * (comp (a_dx_a c X) mu + 1 / 2 * comp (b_b_dx_dx_a c X) mu)
         * dt ^ 2
       + 1 / 2 * comp (b_dx_b_dx_b c X) mu * (1 / 3 * dW ^ 2 - dt) * dW).

(** [traj] has [L] entries, starts at [X0], and entry [i+1] is [step i]
    applied to entry [i]. *)
Definition fold_trajectory (step : nat -> list R -> list R) (X0 : list R)
    (L : nat) (traj : list (list R)) : Prop :=
  length traj = L /\ nth 0 traj [] = X0 /\
  forall i, (S i < L)%nat -> nth (S i) traj [] = step i (nth i traj []).

(** A coefficient callable returns a vector of the dimension of the state. *)
Definition preserves_dim (n : nat) (f : list R -> R -> list R) : Prop :=
  forall X t, length X = n -> length (f X t) = n.

Definition preserves_dim1 (n : nat) (f : list R -> list R) : Prop :=
  forall X, length X = n -> length (f X) = n.

Definition taylor_coeffs_dim (n : nat) (c : taylor_coeffs) : Prop :=
  preserves_dim1 n (drift c) /\ preserves_dim1 n (diffusion c) /\
  preserves_dim1 n (b_dx_b c) /\ preserves_dim1 n (b_dx_a c) /\
  preserves_dim1 n (a_dx_b c) /\ preserves_dim1 n (a_dx_a c) /\
  preserves_dim1 n (b_dx_b_dx_b c) /\ preserves_dim1 n (b_b_dx_dx_b c) /\
  preserves_dim1 n (b_b_dx_dx_a c).

(** A callable that is identically zero on states of dimension [n]. *)
Definition vanishes (n : nat) (f : list R -> R -> list R) : Prop :=
  forall X t, length X = n -> f X t = replicate n 0.

Definition vanishes1 (n : nat) (f : list R -> list R) : Prop :=
  forall X, length X = n -> f X = replicate n 0.

(** The sum of the absolute values of the components. *)
Definition sum_abs (v : list R) : R := foldr (fun x acc => Rabs x + acc) 0 v.

(** Component-wise difference of two vectors of one length. *)
Definition vsub (u v : list R) : list R :=
  tabulate (length u) (fun mu => comp u mu - comp v mu).

(** The trajectory that starts at [x] and applies the update [g] once for
    every element of [inputs], in order. *)
Fixpoint iterate_steps {I : Type} (g : list R -> I -> list R) (x : list R)
    (inputs : list I) : list (list R) :=
  x :: match inputs with
       | [] => []
       | i :: rest => iterate_steps g (g x i) rest
       end.

(** [refinement_raises m]: the interval counts [m] for which the element-wise
    sum of the even and the odd columns cannot be broadcast. *)
Definition refinement_raises (m : nat) : bool := Nat.odd m && (5 <=? m)%nat.

(** The keyword dictionary [d] with the grid and the noise of one resolution
    stored under ['ts'], ['U1s'] and ['U2s']. *)
Definition with_grid (d : kwargs) (ts U1s U2s : list R) : kwargs :=
  <["U2s" := PyArray U2s]> (<["U1s" := PyArray U1s]> (<["ts" := PyArray ts]> d)).

(** A store computation that leaves the store as it found it. *)
Definition store_preserving {S A : Type} (m : st S A) : Prop :=
  forall s, (m s).2 = s.

(** A triple for store computations: from a store that satisfies [P], the
    computation either returns [a] in a store with [Q a], or raises in a
    store with [E]. *)
Definition hoare {S A : Type} (P : S -> Prop) (m : st S A)
    (Q : A -> S -> Prop) (E : S -> Prop) : Prop :=
  forall s, P s ->
    match m s with
    | (Ok a, s') => Q a s'
    | (Raise _, s') => E s'
    end.

(** Every object of the heap [h] is in [h'] with the same contents. *)
Definition frame (h h' : heap) : Prop :=
  forall l o, h !! l = Some o -> h' !! l = Some o.

(** The trajectory object [X] of the heap [h'] was created after [h], and so
    were its rows when it is a Python list of arrays. *)
Definition fresh_trajectory (h : heap) (X : loc) (h' : heap) : Prop :=
  frame h h' /\ h !! X = None /\
  forall ls, h' !! X = Some (ObjList ls) -> Forall (fun l => h !! l = None) ls.

(** What the caller who passed [X0] observes after an integrator has run
    from the heap [h]: [X0] and every other object of [h] are unchanged, and
    the result neither is [X0] nor contains it, so that writing to the result
    does not reach [X0]. *)
Definition result_apart_from (h : heap) (X0 : loc) (out : result loc * heap)
  : Prop :=
  out.2 !! X0 = h !! X0 /\ frame h out.2 /\
  forall X, out.1 = Ok X ->
    X <> X0 /\ h !! X = None /\
    (forall o, <[X := o]> out.2 !! X0 = h !! X0) /\
    forall ls, out.2 !! X = Some (ObjList ls) ->
      Forall (fun l => l <> X0 /\ h !! l = None) ls.

(** The object [X] of the heap [h] holds the trajectory [rs]. *)
Definition holds (h : heap) (X : loc) (rs : list (list R)) : Prop :=
  rows_of X h = (Ok rs, h).

(** The object [X] is a Python list whose elements are the arrays [rs]. *)
Definition list_holds (h : heap) (X : loc) (rs : list (list R)) : Prop :=
  exists ls, h !! X = Some (ObjList ls) /\
    Forall2 (fun l r => h !! l = Some (ObjArray1 r)) ls rs.

(** The store computation [out] ends as the value computation [p] does: with
    an object related to the same trajectory, or with the same exception. *)
Definition simulates (Rel : heap -> loc -> list (list R) -> Prop)
    (p : result (list (list R))) (out : result loc * heap) : Prop :=
  match p with
  | Ok rs => exists X, out.1 = Ok X /\ Rel out.2 X rs
  | Raise e => out.1 = Raise e
  end.

(** The trajectory [traj] starts with [X0] and each of its rows has the
    length of [X0]. *)
Definition rectangular_from (X0 : list R) (traj : list (list R)) : Prop :=
  nth 0 traj [] = X0 /\ Forall (fun r => length r = length X0) traj.

(** The three integrations of a driver, on the noise [u], [u2] and [u4] of the
    three resolutions. *)
Definition three_resolutions
    (integrate : list R -> list R -> result (list (list R)))
    (times u u2 u4 : list R) : result (list (list (list R) * list R)) :=
  let* rhos := integrate times u in
  let* rhos_2 := integrate (stride2 times) u2 in
  let* rhos_4 := integrate (stride2 (stride2 times)) u4 in
  Ok [(rhos, times); (rhos_2, stride2 times);
      (rhos_4, stride2 (stride2 times))].

(** ** Example inputs *)

(** Coefficient callables used in the examples: identically zero, the
    identity, and the constant 2 in every component. *)
Definition coeff_zero : list R -> R -> list R :=
  fun X _ => replicate (length X) 0.

Definition coeff_id : list R -> R -> list R := fun X _ => X.

Definition coeff_two : list R -> R -> list R :=
  fun X _ => replicate (length X) 2.

Definition example_taylor_coeffs : taylor_coeffs :=
  {| drift := fun X => replicate (length X) 0;
     diffusion := fun X => X;
     b_dx_b := fun X => replicate (length X) 0;
     b_dx_a := fun X => X;
     a_dx_b := fun X => X;
     a_dx_a := fun X => replicate (length X) 0;
     b_dx_b_dx_b := fun X => X;
     b_b_dx_dx_b := fun X => X;
     b_b_dx_dx_a := fun X => replicate (length X) 0 |}.

(** Order 1.5 coefficients of which only the drift, the diffusion and
    [b_dx_b] are not zero. *)
Definition zero_taylor_coeffs : taylor_coeffs :=
  {| drift := fun X => X;
     diffusion := fun X => X;
     b_dx_b := fun X => X;
     b_dx_a := fun X => replicate (length X) 0;
     a_dx_b := fun X => replicate (length X) 0;
     a_dx_a := fun X => replicate (length X) 0;
     b_dx_b_dx_b := fun X => replicate (length X) 0;
     b_b_dx_dx_b := fun X => replicate (length X) 0;
     b_b_dx_dx_a := fun X => replicate (length X) 0 |}.

Definition example_times : list R := [0; 1; 2; 3; 4].

Definition example_U1s : ndarray2 := mk_ndarray2 1 4 [[1; 1; 1; 1]].

Definition example_U2s : ndarray2 := mk_ndarray2 1 4 [[0; 0; 0; 0]].

(** An integrator stand-in that returns the one-row trajectory [[0]] for
    every keyword dictionary, and a random source that returns empty
    batches. *)
Definition example_integrator : kwargs -> result (list (list R)) :=
  fun _ => Ok [[0]].

(** An integrator stand-in whose end points are 0, 1 and 3 on grids of
    five, three and two time points. *)
Definition ratio_integrator : kwargs -> result (list (list R)) :=
  fun kw => match kw !! "ts"%string with
            | Some (PyArray [_; _; _; _; _]) => Ok [[0]]
            | Some (PyArray [_; _; _]) => Ok [[1]]
            | _ => Ok [[3]]
            end.

Definition example_randn : nat -> nat -> nat -> ndarray2 :=
  fun _ r c => mk_ndarray2 r c [].

(** Two noise rows for the ensemble driver, and a random source that returns
    arrays of the requested shape. *)
Definition example_U1s_pair : ndarray2 :=
  mk_ndarray2 2 4 [[1; 1; 1; 1]; [2; 2; 2; 2]].

Definition example_U2s_pair : ndarray2 :=
  mk_ndarray2 2 4 [[0; 0; 0; 0]; [3; 3; 3; 3]].

Definition constant_randn : nat -> nat -> nat -> ndarray2 :=
  fun _ r c => mk_ndarray2 r c (replicate r (replicate c 1)).

Definition example_store : gmap loc (gmap string pyval) := {[1%positive := ∅]}.

Definition example_heap : gmap loc pyobj := {[1%positive := ObjArray1 [1]]}.

(** * Verification *)

(** ** Lists and arrays *)

Lemma list_ind2 {A : Type} (P : list A -> Prop) :
  P [] -> (forall x, P [x]) -> (forall x y l, P l -> P (x :: y :: l)) ->
  forall l, P l.
Proof.
  intros H0 H1 H2.
  assert (Hboth : forall l, P l /\ forall x, P (x :: l)).
  { induction l as [|y l [IH1 IH2]]; split; auto. }
  intros l. apply Hboth.
Qed.

Lemma nth_map_lt {A B : Type} (f : A -> B) (l : list A) (n : nat) (d : A) (d' : B) :
  (n < length l)%nat -> nth n (map f l) d' = f (nth n l d).
Proof.
  revert n. induction l as [|x l IH]; intros [|n] Hn; simpl in *; try lia; auto.
  apply IH. lia.
Qed.

Lemma nth_zip_with_lt {A B C : Type} (f : A -> B -> C) (l : list A) (k : list B)
    (n : nat) (d1 : A) (d2 : B) (d : C) :
  (n < length l)%nat -> (n < length k)%nat ->
  nth n (zip_with f l k) d = f (nth n l d1) (nth n k d2).
Proof.
  revert k n. induction l as [|x l IH]; intros [|y k] [|n] Hl Hk;
    simpl in *; try lia; auto.
  apply IH; lia.
Qed.

Lemma list_eq_nth {A : Type} (d : A) (l k : list A) :
  length l = length k ->
  (forall n, (n < length l)%nat -> nth n l d = nth n k d) -> l = k.
Proof.
  revert k. induction l as [|x l IH]; intros [|y k] Hlen Hnth;
    simpl in *; try lia; auto.
  f_equal.
  - apply (Hnth 0%nat). lia.
  - apply IH; [lia|]. intros n Hn. apply (Hnth (S n)). lia.
Qed.

Lemma length_tabulate (n : nat) (f : nat -> R) : length (tabulate n f) = n.
Proof. unfold tabulate. rewrite length_map. apply length_seq. Qed.

Lemma nth_tabulate (n : nat) (f : nat -> R) (mu : nat) :
  (mu < n)%nat -> nth mu (tabulate n f) 0 = f mu.
Proof.
  intros Hmu. unfold tabulate.
  rewrite (nth_map_lt f _ mu 0%nat) by (rewrite length_seq; lia).
  rewrite seq_nth by lia. reflexivity.
Qed.

Lemma length_stride2 {A : Type} (l : list A) :
  length (stride2 l) = Nat.div2 (S (length l)).
Proof.
  induction l as [| x | x y l IH] using list_ind2; simpl; auto.
Qed.

Lemma nth_stride2 {A : Type} (d : A) (l : list A) :
  forall n, nth n (stride2 l) d = nth (2 * n) l d.
Proof.
  induction l as [| x | x y l IH] using list_ind2; intros [|n]; simpl; auto.
  - destruct n; reflexivity.
  - rewrite IH. replace (n + S (n + 0))%nat with (S (2 * n)) by lia.
    reflexivity.
Qed.

Lemma nth_stride2_tail {A : Type} (d : A) (l : list A) (n : nat) :
  nth n (stride2 (tail l)) d = nth (2 * n + 1) l d.
Proof.
  rewrite nth_stride2. replace (2 * n + 1)%nat with (S (2 * n)) by lia.
  destruct l; simpl; [destruct (n + (n + 0))%nat|]; reflexivity.
Qed.

Lemma length_tail {A : Type} (l : list A) : length (tail l) = (length l - 1)%nat.
Proof. destruct l; simpl; lia. Qed.

Lemma broadcast_dim_refl (n : nat) : broadcast_dim n n = Some n.
Proof. unfold broadcast_dim. rewrite Nat.eqb_refl. reflexivity. Qed.

Lemma zip_broadcast_same {A B C : Type} (f : A -> B -> C) (l : list A) (k : list B) :
  length l = length k -> zip_broadcast f l k = zip_with f l k.
Proof.
  intros H. unfold zip_broadcast. rewrite H, Nat.eqb_refl. reflexivity.
Qed.

Lemma ufunc1_same (f : R -> R -> R) (x y : list R) :
  length x = length y -> ufunc1 f x y = Ok (zip_with f x y).
Proof.
  intros H. unfold ufunc1. rewrite H, broadcast_dim_refl.
  rewrite zip_broadcast_same by exact H. reflexivity.
Qed.

Lemma zip_with_rows_same (f : R -> R -> R) (c : nat) (l k : list (list R)) :
  Forall (fun r => length r = c) l -> Forall (fun r => length r = c) k ->
  zip_with (zip_broadcast f) l k = zip_with (zip_with f) l k.
Proof.
  intros Hl. revert k. induction Hl as [|x l Hx Hl IH]; intros k Hk; [reflexivity|].
  destruct Hk as [|y k Hy Hk]; [reflexivity|]. simpl.
  rewrite zip_broadcast_same by congruence. f_equal. apply IH, Hk.
Qed.

Lemma ufunc2_same (f : R -> R -> R) (A B : ndarray2) :
  array2_wf A -> array2_wf B -> nrows A = nrows B -> ncols A = ncols B ->
  ufunc2 f A B =
  Ok {| nrows := nrows A; ncols := ncols A;
        rows := zip_with (zip_with f) (rows A) (rows B) |}.
Proof.
  intros [HA1 HA2] [HB1 HB2] Hr Hc. unfold ufunc2.
  rewrite <- Hr, <- Hc, !broadcast_dim_refl.
  rewrite zip_broadcast_same by congruence.
  rewrite (zip_with_rows_same f (ncols A)); auto.
  rewrite Hc. exact HB2.
Qed.

Lemma Forall_nth_length (c : nat) (l : list (list R)) (r : nat) :
  Forall (fun row => length row = c) l -> (r < length l)%nat ->
  length (nth r l []) = c.
Proof.
  intros H. revert r. induction H as [|x l Hx Hl IH]; intros [|r] Hr;
    simpl in *; try lia; auto.
  apply IH. lia.
Qed.

Lemma cols_even_wf (A : ndarray2) : array2_wf A -> array2_wf (cols_even A).
Proof.
  intros [H1 H2]. split; simpl.
  - rewrite length_map. exact H1.
  - apply Forall_map. eapply Forall_impl; [exact H2|].
    intros r Hr. simpl. rewrite length_stride2, Hr. reflexivity.
Qed.

Lemma cols_odd_wf (A : ndarray2) : array2_wf A -> array2_wf (cols_odd A).
Proof.
  intros [H1 H2]. split; simpl.
  - rewrite length_map. exact H1.
  - apply Forall_map. eapply Forall_impl; [exact H2|].
    intros r Hr. simpl. rewrite length_stride2, length_tail, Hr.
    destruct (ncols A); simpl; [reflexivity|]. rewrite Nat.sub_0_r. reflexivity.
Qed.

Lemma amap_wf (f : R -> R) (A : ndarray2) : array2_wf A -> array2_wf (amap f A).
Proof.
  intros [H1 H2]. split; simpl.
  - rewrite length_map. exact H1.
  - apply Forall_map. eapply Forall_impl; [exact H2|].
    intros r Hr. simpl. rewrite length_map. exact Hr.
Qed.

Lemma zip_rows_wf (f : R -> R -> R) (n c : nat) (l k : list (list R)) :
  length l = n -> length k = n ->
  Forall (fun r => length r = c) l -> Forall (fun r => length r = c) k ->
  array2_wf {| nrows := n; ncols := c; rows := zip_with (zip_with f) l k |}.
Proof.
  intros Hl Hk Fl Fk. split; simpl.
  - rewrite length_zip_with_l_eq; congruence.
  - clear Hl Hk. revert k Fk. induction Fl as [|x l Hx Fl IH]; intros k Fk; simpl.
    + constructor.
    + destruct Fk as [|y k Hy Fk]; constructor.
      * rewrite length_zip_with_l_eq; congruence.
      * apply IH, Fk.
Qed.

Lemma aget_amap (f : R -> R) (A : ndarray2) (r n : nat) :
  array2_wf A -> (r < nrows A)%nat -> (n < ncols A)%nat ->
  aget (amap f A) r n = f (aget A r n).
Proof.
  intros [H1 H2] Hr Hn. unfold aget, amap. simpl.
  rewrite (nth_map_lt (map f) _ r []) by lia.
  apply nth_map_lt. rewrite (Forall_nth_length (ncols A)); auto. lia.
Qed.

Lemma aget_zip (f : R -> R -> R) (n c : nat) (l k : list (list R)) (r j : nat) :
  length l = n -> length k = n ->
  Forall (fun row => length row = c) l -> Forall (fun row => length row = c) k ->
  (r < n)%nat -> (j < c)%nat ->
  aget {| nrows := n; ncols := c; rows := zip_with (zip_with f) l k |} r j =
  f (nth j (nth r l []) 0) (nth j (nth r k []) 0).
Proof.
  intros Hl Hk Fl Fk Hr Hj. unfold aget. simpl.
  rewrite (nth_zip_with_lt _ l k r [] []) by lia.
  apply nth_zip_with_lt; rewrite (Forall_nth_length c); auto; lia.
Qed.

Lemma aget_cols_even (A : ndarray2) (r n : nat) :
  nth n (nth r (rows (cols_even A)) []) 0 = aget A r (2 * n).
Proof.
  unfold aget. simpl.
  destruct (Nat.lt_ge_cases r (length (rows A))) as [Hr|Hr].
  - rewrite (nth_map_lt stride2 _ r []) by lia. apply nth_stride2.
  - rewrite (nth_overflow (map _ (rows A))) by (rewrite length_map; lia).
    rewrite (nth_overflow (rows A)) by lia.
    destruct n; reflexivity.
Qed.

Lemma aget_cols_odd (A : ndarray2) (r n : nat) :
  nth n (nth r (rows (cols_odd A)) []) 0 = aget A r (2 * n + 1).
Proof.
  unfold aget. simpl.
  destruct (Nat.lt_ge_cases r (length (rows A))) as [Hr|Hr].
  - rewrite (nth_map_lt (fun r => stride2 (tail r)) _ r []) by lia.
    apply nth_stride2_tail.
  - rewrite (nth_overflow (map _ (rows A))) by (rewrite length_map; lia).
    rewrite (nth_overflow (rows A)) by lia.
    destruct n; reflexivity.
Qed.

(** ** Increment refinement *)

Lemma sqrt2_neq_0 : sqrt 2 <> 0.
Proof.
  intros E. assert (H : sqrt 2 * sqrt 2 = 2) by (apply sqrt_def; lra).
  rewrite E in H. lra.
Qed.

Lemma two_over_sqrt2 : (1 + 1) / sqrt 2 = sqrt 2.
Proof.
  assert (H : sqrt 2 * sqrt 2 = 2) by (apply sqrt_def; lra).
  pose proof sqrt2_neq_0. field_simplify_eq; [lra | assumption].
Qed.


Lemma ufunc2_spec (f : R -> R -> R) (A B : ndarray2) :
  array2_wf A -> array2_wf B -> nrows A = nrows B -> ncols A = ncols B ->
  exists Cc, ufunc2 f A B = Ok Cc /\ array2_wf Cc /\
    nrows Cc = nrows A /\ ncols Cc = ncols A /\
    forall r n, (r < nrows A)%nat -> (n < ncols A)%nat ->
      aget Cc r n = f (aget A r n) (aget B r n).
Proof.
  intros HA HB Hr Hc. eexists. split; [apply ufunc2_same; assumption|].
  destruct HA as [HA1 HA2], HB as [HB1 HB2]. rewrite <- Hc in HB2.
  split; [apply zip_rows_wf; auto; congruence|].
  split; [reflexivity|]. split; [reflexivity|].
  intros r n Hr' Hn. apply aget_zip; auto. congruence.
Qed.

Lemma aget_even (A : ndarray2) (r n : nat) :
  aget (cols_even A) r n = aget A r (2 * n).
Proof. apply aget_cols_even. Qed.

Lemma aget_odd (A : ndarray2) (r n : nat) :
  aget (cols_odd A) r n = aget A r (2 * n + 1).
Proof. apply aget_cols_odd. Qed.

Lemma ncols_even_double (A : ndarray2) (k : nat) :
  ncols A = (2 * k)%nat -> ncols (cols_even A) = k.
Proof. intros H. simpl. rewrite H. apply Nat.div2_succ_double. Qed.

Lemma ncols_odd_double (A : ndarray2) (k : nat) :
  ncols A = (2 * k)%nat -> ncols (cols_odd A) = k.
Proof. intros H. simpl. rewrite H. apply Nat.div2_double. Qed.

(** C1.  On a grid of L = 2k+1 time points and noise batches with L-1 = 2k
    columns, [double_increments] returns every other time point (k+1 of
    them), [U1s'[r,n] = (U1s[r,2n] + U1s[r,2n+1]) / sqrt 2] and, when [U2s] is
    given, [U2s'[r,n] = (sqrt 3 * (U1s[r,2n] - U1s[r,2n+1]) + U2s[r,2n] +
    U2s[r,2n+1]) / (2 * sqrt 2)]; without [U2s] no third component is
    returned.  For times [0,1,2,3,4] and U1s [[1,1,1,1]] the result is
    [0,2,4] and [[sqrt 2, sqrt 2]]. *)
Theorem double_increments_spec (times : list R) (U1s : ndarray2)
    (U2s : option ndarray2) (k : nat) :
  length times = S (2 * k) ->
  array2_wf U1s -> ncols U1s = (2 * k)%nat ->
  (forall V, U2s = Some V ->
     array2_wf V /\ nrows V = nrows U1s /\ ncols V = (2 * k)%nat) ->
  (exists times' U1s' U2s',
     double_increments times U1s U2s = Ok (times', U1s', U2s') /\
     length times' = S k /\
     (forall n, (n <= k)%nat -> nth n times' 0 = nth (2 * n) times 0) /\
     array2_wf U1s' /\ nrows U1s' = nrows U1s /\ ncols U1s' = k /\
     (forall r n, (r < nrows U1s)%nat -> (n < k)%nat ->
        aget U1s' r n
        = (aget U1s r (2 * n) + aget U1s r (2 * n + 1)) / sqrt 2) /\
     match U2s with
     | None => U2s' = None
     | Some V =>
         exists V', U2s' = Some V' /\ array2_wf V' /\
           nrows V' = nrows U1s /\ ncols V' = k /\
           forall r n, (r < nrows U1s)%nat -> (n < k)%nat ->
             aget V' r n
             = (sqrt 3 * (aget U1s r (2 * n) - aget U1s r (2 * n + 1))
                + aget V r (2 * n) + aget V r (2 * n + 1)) / (2 * sqrt 2)
     end) /\
  double_increments [0; 1; 2; 3; 4] (mk_ndarray2 1 4 [[1; 1; 1; 1]]) None
  = Ok ([0; 2; 4], mk_ndarray2 1 2 [[sqrt 2; sqrt 2]], None).
Proof.
  intros Ht Hwf Hc HV. split.
  2:{ unfold double_increments, ufunc2, amap; simpl.
      rewrite !two_over_sqrt2. reflexivity. }
  pose proof (cols_even_wf _ Hwf) as He. pose proof (cols_odd_wf _ Hwf) as Ho.
  pose proof (ncols_even_double _ _ Hc) as Hce.
  pose proof (ncols_odd_double _ _ Hc) as Hco.
  destruct (ufunc2_spec Rplus (cols_even U1s) (cols_odd U1s))
    as (S1 & ES1 & WS1 & RS1 & CS1 & GS1); auto; [congruence|].
  rewrite Hce in CS1, GS1. simpl nrows in RS1, GS1.
  assert (Htimes : length (stride2 times) = S k /\
            forall n, (n <= k)%nat -> nth n (stride2 times) 0 = nth (2 * n) times 0).
  { split; [|intros; apply nth_stride2].
    rewrite length_stride2, Ht.
    replace (S (S (2 * k))) with (2 * S k)%nat by lia. apply Nat.div2_double. }
  assert (HU1 : forall r n, (r < nrows U1s)%nat -> (n < k)%nat ->
            aget (amap (fun x => x / sqrt 2) S1) r n
            = (aget U1s r (2 * n) + aget U1s r (2 * n + 1)) / sqrt 2).
  { intros r n Hr Hn. rewrite aget_amap by (auto; lia).
    rewrite GS1, aget_even, aget_odd by assumption. reflexivity. }
  unfold double_increments. rewrite ES1. simpl bind.
  destruct U2s as [V|].
  - destruct (HV V eq_refl) as (WV & RV & CV).
    pose proof (cols_even_wf _ WV) as HeV. pose proof (cols_odd_wf _ WV) as HoV.
    pose proof (ncols_even_double _ _ CV) as HceV.
    pose proof (ncols_odd_double _ _ CV) as HcoV.
    destruct (ufunc2_spec Rminus (cols_even U1s) (cols_odd U1s))
      as (D & ED & WD & RD & CD & GD); auto; [congruence|].
    rewrite Hce in CD, GD. simpl nrows in RD, GD.
    destruct (ufunc2_spec Rplus (amap (fun x => sqrt 3 * x) D) (cols_even V))
      as (A1 & EA & WA & RA & CA & GA);
      [apply amap_wf; assumption | assumption | simpl; congruence
      | simpl ncols at 1; simpl in HceV; simpl; congruence |].
    simpl nrows in RA, GA. simpl ncols in CA, GA.
    destruct (ufunc2_spec Rplus A1 (cols_odd V))
      as (B1 & EB & WB & RB & CB & GB);
      [assumption | assumption | simpl; congruence
      | simpl in HcoV; simpl; congruence |].
    rewrite ED. simpl bind. rewrite EA. simpl bind. rewrite EB. simpl bind.
    eexists _, _, _. split; [reflexivity|].
    split; [apply Htimes|]. split; [apply Htimes|].
    split; [apply amap_wf; assumption|].
    split; [simpl; congruence|]. split; [simpl; congruence|].
    split; [exact HU1|].
    eexists. split; [reflexivity|].
    split; [apply amap_wf; assumption|].
    split; [simpl; congruence|]. split; [simpl; congruence|].
    intros r n Hr Hn.
    rewrite aget_amap by (auto; congruence || lia).
    rewrite GB by (congruence || lia).
    rewrite GA by (congruence || lia).
    rewrite aget_amap by (auto; congruence || lia).
    rewrite GD by assumption.
    rewrite !aget_even, !aget_odd. reflexivity.
  - eexists _, _, _. split; [reflexivity|].
    split; [apply Htimes|]. split; [apply Htimes|].
    split; [apply amap_wf; assumption|].
    split; [simpl; congruence|]. split; [simpl; congruence|].
    split; [exact HU1|]. reflexivity.
Qed.

Lemma double_increments_spec_witness :
  length example_times = S (2 * 2) /\
  array2_wf example_U1s /\
  ncols example_U1s = (2 * 2)%nat /\
  exists times' U1s' U2s',
    double_increments example_times example_U1s None = Ok (times', U1s', U2s') /\
    length times' = 3%nat /\ ncols U1s' = 2%nat /\ U2s' = None.
Proof.
  assert (H1 : length example_times = S (2 * 2)) by reflexivity.
  assert (H2 : array2_wf example_U1s).
  { split; [reflexivity | repeat constructor]. }
  assert (H3 : ncols example_U1s = (2 * 2)%nat) by reflexivity.
  assert (H4 : forall V, @None ndarray2 = Some V ->
            array2_wf V /\ nrows V = nrows example_U1s /\ ncols V = (2 * 2)%nat)
    by (intros V HV; discriminate HV).
  destruct (double_increments_spec example_times example_U1s None 2 H1 H2 H3 H4)
    as [(t & u & v & E & Hl & _ & _ & _ & Hc & _ & Hv) _].
  split; [exact H1|]. split; [exact H2|]. split; [exact H3|].
  exists t, u, v. auto.
Defined.

(** ** Vectors *)

Lemma tabulate_ext (n : nat) (f g : nat -> R) :
  (forall mu, (mu < n)%nat -> f mu = g mu) -> tabulate n f = tabulate n g.
Proof.
  intros H. apply (list_eq_nth 0); rewrite !length_tabulate; [reflexivity|].
  intros mu Hmu. rewrite !nth_tabulate by assumption. apply H, Hmu.
Qed.

Lemma comp_tabulate (n : nat) (f : nat -> R) (mu : nat) :
  (mu < n)%nat -> comp (tabulate n f) mu = f mu.
Proof. apply nth_tabulate. Qed.

Lemma tabulate_comp (v : list R) : tabulate (length v) (comp v) = v.
Proof.
  apply (list_eq_nth 0); rewrite length_tabulate; [reflexivity|].
  intros mu Hmu. rewrite nth_tabulate by assumption. reflexivity.
Qed.

Lemma vmuls_tab (n : nat) (v : list R) (s : R) :
  length v = n -> vmuls v s = tabulate n (fun mu => comp v mu * s).
Proof.
  intros H. apply (list_eq_nth 0).
  - unfold vmuls. rewrite length_map, length_tabulate. exact H.
  - unfold vmuls. rewrite length_map. intros mu Hmu.
    rewrite nth_tabulate by lia. unfold comp.
    exact (nth_map_lt _ v mu 0 0 Hmu).
Qed.

Lemma vdivs_tab (n : nat) (v : list R) (s : R) :
  length v = n -> vdivs v s = tabulate n (fun mu => comp v mu / s).
Proof.
  intros H. apply (list_eq_nth 0).
  - unfold vdivs. rewrite length_map, length_tabulate. exact H.
  - unfold vdivs. rewrite length_map. intros mu Hmu.
    rewrite nth_tabulate by lia. unfold comp.
    exact (nth_map_lt _ v mu 0 0 Hmu).
Qed.

Lemma zip_with_tab (f : R -> R -> R) (n : nat) (x y : list R) :
  length x = n -> length y = n ->
  zip_with f x y = tabulate n (fun mu => f (comp x mu) (comp y mu)).
Proof.
  intros Hx Hy. apply (list_eq_nth 0).
  - rewrite length_zip_with_l_eq, length_tabulate by congruence. exact Hx.
  - rewrite length_zip_with_l_eq by congruence. intros mu Hmu.
    rewrite nth_tabulate by lia. unfold comp.
    apply nth_zip_with_lt; lia.
Qed.

Lemma ufunc1_tab (f : R -> R -> R) (n : nat) (x y : list R) :
  length x = n -> length y = n ->
  ufunc1 f x y = Ok (tabulate n (fun mu => f (comp x mu) (comp y mu))).
Proof.
  intros Hx Hy. rewrite ufunc1_same by congruence.
  rewrite (zip_with_tab f n) by assumption. reflexivity.
Qed.

(** Rewrites a row expression over vectors of length [n] into one
    [tabulate], then compares components. *)
Lemma length_vmuls (v : list R) (s : R) : length (vmuls v s) = length v.
Proof. apply length_map. Qed.

Lemma length_vdivs (v : list R) (s : R) : length (vdivs v s) = length v.
Proof. apply length_map. Qed.

Lemma bind_Ok {A B : Type} (a : A) (k : A -> result B) : bind (Ok a) k = k a.
Proof. reflexivity. Qed.

Ltac vec_len :=
  rewrite ?length_vmuls, ?length_vdivs, ?length_tabulate; auto.

Ltac row_tab n :=
  repeat first
    [ rewrite (ufunc1_tab _ n) by vec_len; rewrite bind_Ok; cbv beta
    | rewrite (ufunc1_tab _ n) by vec_len
    | rewrite (vmuls_tab n) by vec_len
    | rewrite (vdivs_tab n) by vec_len ].

Ltac comp_eq :=
  apply tabulate_ext; intros mu Hmu;
  repeat rewrite comp_tabulate by exact Hmu.

Lemma euler_row_ok (n : nat) (a b X : list R) (dt dW : R) :
  length X = n -> length a = n -> length b = n ->
  euler_row a b X dt dW
  = Ok (tabulate n (fun mu => comp X mu + comp a mu * dt + comp b mu * dW)).
Proof.
  intros HX Ha Hb. unfold euler_row. row_tab n. f_equal. comp_eq. reflexivity.
Qed.

Lemma milstein_row_ok (n : nat) (a b c X : list R) (dt dW : R) :
  length X = n -> length a = n -> length b = n -> length c = n ->
  milstein_row a b c X dt dW
  = Ok (tabulate n (fun mu => comp X mu + comp a mu * dt + comp b mu * dW
                               + 1 / 2 * comp c mu * (dW ^ 2 - dt))).
Proof.
  intros HX Ha Hb Hc. unfold milstein_row. row_tab n. f_equal. comp_eq. field.
Qed.

Lemma faulty_milstein_row_ok (n : nat) (a b c X : list R) (dt dW : R) :
  length X = n -> length a = n -> length b = n -> length c = n ->
  faulty_milstein_row a b c X dt dW
  = Ok (tabulate n (fun mu => comp X mu + comp a mu * dt + comp b mu * dW
                               + comp c mu * (dW ^ 2 - dt))).
Proof.
  intros HX Ha Hb Hc. unfold faulty_milstein_row. row_tab n. f_equal. comp_eq.
  reflexivity.
Qed.

Lemma taylor_1_5_row_ok (n : nat) (c : taylor_coeffs) (X : list R) (dt dW dZ : R) :
  taylor_coeffs_dim n c -> length X = n ->
  taylor_1_5_row c X dt dW dZ = Ok (taylor_1_5_step c X dt dW dZ).
Proof.
  intros (H1 & H2 & H3 & H4 & H5 & H6 & H7 & H8 & H9) HX.
  specialize (H1 X HX). specialize (H2 X HX). specialize (H3 X HX).
  specialize (H4 X HX). specialize (H5 X HX). specialize (H6 X HX).
  specialize (H7 X HX). specialize (H8 X HX). specialize (H9 X HX).
  unfold taylor_1_5_row, taylor_1_5_step. rewrite HX. row_tab n.
  f_equal. comp_eq. field.
Qed.

(** ** Loops *)

Lemma foldM_ext {A B : Type} (f g : A -> B -> result A) (l : list B) :
  (forall a b, f a b = g a b) -> forall a, foldM f l a = foldM g l a.
Proof.
  intros H. induction l as [|b l IH]; intros a; simpl; [reflexivity|].
  rewrite H. destruct (g a b); simpl; auto.
Qed.

Lemma vstack_ok (n : nat) (X : list (list R)) (r : list R) :
  length (List.last X []) = n -> length r = n -> vstack X r = Ok (X ++ [r]).
Proof.
  intros HX Hr. unfold vstack. rewrite HX, Hr, Nat.eqb_refl. reflexivity.
Qed.

Lemma foldM_push {I : Type} (n : nat)
    (push : list (list R) -> list R -> result (list (list R)))
    (row : list R -> I -> result (list R)) (g : list R -> I -> list R) :
  (forall X r, length (List.last X []) = n -> length r = n ->
     push X r = Ok (X ++ [r])) ->
  (forall x i, length x = n -> row x i = Ok (g x i) /\ length (g x i) = n) ->
  forall inputs pre x, length x = n ->
    foldM (fun X i => let* r := row (List.last X []) i in push X r)
      inputs (pre ++ [x])
    = Ok (pre ++ iterate_steps g x inputs).
Proof.
  intros Hpush Hrow. induction inputs as [|i inputs IH]; intros pre x Hx.
  - reflexivity.
  - simpl. rewrite last_last. destruct (Hrow x i Hx) as [E Hg].
    rewrite E, bind_Ok. rewrite Hpush by (rewrite ?last_last; assumption).
    rewrite bind_Ok. rewrite IH by assumption.
    rewrite <- app_assoc. reflexivity.
Qed.

Lemma length_iterate_steps {I : Type} (g : list R -> I -> list R)
    (inputs : list I) :
  forall x, length (iterate_steps g x inputs) = S (length inputs).
Proof.
  induction inputs as [|i inputs IH]; intros x; simpl; [reflexivity|].
  rewrite IH. reflexivity.
Qed.

Lemma nth_S_iterate_steps {I : Type} (g : list R -> I -> list R) (d : I)
    (inputs : list I) :
  forall x i, (i < length inputs)%nat ->
    nth (S i) (iterate_steps g x inputs) []
    = g (nth i (iterate_steps g x inputs) []) (nth i inputs d).
Proof.
  induction inputs as [|j inputs IH]; intros x i Hi; simpl in Hi; [lia|].
  destruct i as [|i].
  - simpl. destruct inputs; reflexivity.
  - change (nth (S i) (iterate_steps g (g x j) inputs) []
            = g (nth i (iterate_steps g (g x j) inputs) []) (nth i inputs d)).
    apply IH. lia.
Qed.

Lemma iterate_steps_dim {I : Type} (n : nat) (g : list R -> I -> list R)
    (inputs : list I) :
  (forall x i, length x = n -> length (g x i) = n) ->
  forall x, length x = n ->
    Forall (fun r => length r = n) (iterate_steps g x inputs).
Proof.
  intros Hg. induction inputs as [|i inputs IH]; intros x Hx; simpl.
  - constructor; [assumption | constructor].
  - constructor; [assumption|]. apply IH, Hg, Hx.
Qed.

Lemma iterate_steps_trajectory {I : Type} (g : list R -> I -> list R) (d : I)
    (inputs : list I) (x : list R) :
  fold_trajectory (fun i X => g X (nth i inputs d)) x (S (length inputs))
    (iterate_steps g x inputs).
Proof.
  split; [apply length_iterate_steps|]. split.
  - destruct inputs; reflexivity.
  - intros i Hi. apply nth_S_iterate_steps. lia.
Qed.

Lemma fold_trajectory_ext (step step' : nat -> list R -> list R)
    (X0 : list R) (L : nat) (traj : list (list R)) :
  (forall i X, (S i < L)%nat -> step i X = step' i X) ->
  fold_trajectory step X0 L traj -> fold_trajectory step' X0 L traj.
Proof.
  intros H (H1 & H2 & H3). split; [assumption|]. split; [assumption|].
  intros i Hi. rewrite <- H by assumption. apply H3, Hi.
Qed.

(** ** Time grids *)

Lemma length_removelast' {A : Type} (l : list A) :
  length (removelast l) = (length l - 1)%nat.
Proof.
  induction l as [|x l IH]; [reflexivity|].
  destruct l as [|y l]; [reflexivity|].
  change (S (length (removelast (y :: l))) = (length (x :: y :: l) - 1)%nat).
  rewrite IH. simpl. lia.
Qed.

Lemma nth_removelast {A : Type} (d : A) (l : list A) :
  forall i, (S i < length l)%nat -> nth i (removelast l) d = nth i l d.
Proof.
  induction l as [|x l IH]; intros i Hi; [simpl in Hi; lia|].
  destruct l as [|y l]; [simpl in Hi; lia|].
  destruct i as [|i]; [reflexivity|].
  change (nth i (removelast (y :: l)) d = nth i (y :: l) d).
  apply IH. simpl in *. lia.
Qed.

Lemma length_time_increments (ts : list R) :
  length (time_increments ts) = (length ts - 1)%nat.
Proof.
  unfold time_increments.
  rewrite length_zip_with_l_eq; rewrite length_tail; [reflexivity|].
  rewrite length_removelast'. reflexivity.
Qed.

Lemma nth_time_increments (ts : list R) (i : nat) :
  (S i < length ts)%nat -> nth i (time_increments ts) 0 = Delta_t ts i.
Proof.
  intros Hi. unfold time_increments, Delta_t.
  rewrite (nth_zip_with_lt Rminus _ _ i 0 0)
    by (rewrite ?length_tail, ?length_removelast'; lia).
  rewrite nth_removelast by assumption.
  destruct ts; [simpl in Hi; lia | reflexivity].
Qed.

Lemma length_zip3 {A B C : Type} (n : nat) (a : list A) (b : list B) (c : list C) :
  length a = n -> length b = n -> length c = n -> length (zip3 a b c) = n.
Proof.
  intros Ha Hb Hc. unfold zip3. rewrite !length_zip_with. lia.
Qed.

Lemma nth_zip3 {A B C : Type} (a : list A) (b : list B) (c : list C)
    (da : A) (db : B) (dc : C) (i : nat) :
  (i < length a)%nat -> (i < length b)%nat -> (i < length c)%nat ->
  nth i (zip3 a b c) (da, db, dc) = (nth i a da, nth i b db, nth i c dc).
Proof.
  intros Ha Hb Hc. unfold zip3.
  rewrite (nth_zip_with_lt pair _ c i (da, db) dc)
    by (rewrite ?length_zip_with; lia).
  rewrite (nth_zip_with_lt pair a b i da db) by lia. reflexivity.
Qed.

(** A loop over [zip(ts[:-1], dts, W)] that appends one row per step. *)
Lemma zip3_loop_trajectory (n L : nat)
    (push : list (list R) -> list R -> result (list (list R)))
    (row : list R -> R * R * R -> result (list R))
    (g : list R -> R * R * R -> list R) (ts W X0 : list R) :
  (forall X r, length (List.last X []) = n -> length r = n ->
     push X r = Ok (X ++ [r])) ->
  (forall x i, length x = n -> row x i = Ok (g x i) /\ length (g x i) = n) ->
  length ts = L -> (1 <= L)%nat -> length W = (L - 1)%nat -> length X0 = n ->
  exists traj,
    foldM (fun X i => let* r := row (List.last X []) i in push X r)
      (zip3 (removelast ts) (time_increments ts) W) [X0] = Ok traj /\
    Forall (fun r => length r = n) traj /\
    fold_trajectory (fun i X => g X (nth i ts 0, Delta_t ts i, nth i W 0))
      X0 L traj.
Proof.
  intros Hpush Hrow Hts HL HW HX0.
  exists (iterate_steps g X0 (zip3 (removelast ts) (time_increments ts) W)).
  split; [apply (foldM_push n push row g Hpush Hrow _ [] X0 HX0)|].
  split; [apply iterate_steps_dim; [intros; apply Hrow|]; assumption|].
  assert (Hlen : length (zip3 (removelast ts) (time_increments ts) W) = (L - 1)%nat).
  { apply length_zip3; rewrite ?length_removelast', ?length_time_increments; lia. }
  pose proof (iterate_steps_trajectory g (0, 0, 0) 
                (zip3 (removelast ts) (time_increments ts) W) X0) as Htr.
  rewrite Hlen in Htr. replace (S (L - 1)) with L in Htr by lia.
  revert Htr. apply fold_trajectory_ext. intros i X Hi.
  rewrite nth_zip3
    by (rewrite ?length_removelast', ?length_time_increments; lia).
  rewrite nth_removelast, nth_time_increments by lia. reflexivity.
Qed.

(** ** Trajectories of the integrators *)

Lemma np_product_pair_ok (xs ys : list R) :
  length xs = length ys -> np_product_pair xs ys = Ok (zip_with Rmult xs ys).
Proof. intros H. unfold np_product_pair. rewrite H, Nat.eqb_refl. reflexivity. Qed.

Lemma nth_dWs (ts Us : list R) (i : nat) :
  (S i < length ts)%nat -> length Us = (length ts - 1)%nat ->
  nth i (zip_with Rmult (map sqrt (time_increments ts)) Us) 0 = Delta_W ts Us i.
Proof.
  intros Hi HU. unfold Delta_W.
  rewrite (nth_zip_with_lt Rmult _ _ i 0 0)
    by (rewrite ?length_map, ?length_time_increments; lia).
  rewrite (nth_map_lt sqrt _ i 0) by (rewrite length_time_increments; lia).
  rewrite nth_time_increments by assumption. apply Rmult_comm.
Qed.

Lemma euler_trajectory (n L : nat) (a b : list R -> R -> list R)
    (X0 ts Us : list R) :
  preserves_dim n a -> preserves_dim n b -> length X0 = n ->
  length ts = L -> (1 <= L)%nat -> length Us = (L - 1)%nat ->
  exists traj, euler a b X0 ts Us = Ok traj /\
    Forall (fun r => length r = n) traj /\
    fold_trajectory
      (fun i X => euler_step a b X (nth i ts 0) (Delta_t ts i) (Delta_W ts Us i))
      X0 L traj.
Proof.
  intros Ha Hb HX0 Hts HL HUs. unfold euler.
  rewrite np_product_pair_ok
    by (rewrite length_map, length_time_increments; lia).
  rewrite bind_Ok.
  destruct (zip3_loop_trajectory n L vstack
              (fun x '(t, dt, dW) => euler_row (a x t) (b x t) x dt dW)
              (fun x '(t, dt, dW) => euler_step a b x t dt dW)
              ts (zip_with Rmult (map sqrt (time_increments ts)) Us) X0)
    as (traj & E & Hdim & Htr); auto.
  - apply vstack_ok.
  - intros x [[t dt] dW] Hx. unfold euler_step. rewrite Hx.
    split; [apply euler_row_ok; auto | apply length_tabulate].
  - rewrite length_zip_with_l_eq;
      rewrite length_map, length_time_increments; lia.
  - exists traj. split; [|split; [exact Hdim|]].
    + rewrite <- E. apply foldM_ext. intros X [[t dt] dW]. reflexivity.
    + revert Htr. apply fold_trajectory_ext. intros i X Hi.
      rewrite nth_dWs by lia. reflexivity.
Qed.

Lemma milstein_trajectory (n L : nat) (a b c : list R -> R -> list R)
    (X0 ts Us : list R) :
  preserves_dim n a -> preserves_dim n b -> preserves_dim n c ->
  length X0 = n ->
  length ts = L -> (1 <= L)%nat -> length Us = (L - 1)%nat ->
  exists traj, milstein a b c X0 ts Us = Ok traj /\
    Forall (fun r => length r = n) traj /\
    fold_trajectory
      (fun i X =>
         milstein_step a b c X (nth i ts 0) (Delta_t ts i) (Delta_W ts Us i))
      X0 L traj.
Proof.
  intros Ha Hb Hc HX0 Hts HL HUs. unfold milstein.
  rewrite np_product_pair_ok
    by (rewrite length_map, length_time_increments; lia).
  rewrite bind_Ok.
  destruct (zip3_loop_trajectory n L vstack
              (fun x '(t, dt, dW) =>
                 milstein_row (a x t) (b x t) (c x t) x dt dW)
              (fun x '(t, dt, dW) => milstein_step a b c x t dt dW)
              ts (zip_with Rmult (map sqrt (time_increments ts)) Us) X0)
    as (traj & E & Hdim & Htr); auto.
  - apply vstack_ok.
  - intros x [[t dt] dW] Hx. unfold milstein_step. rewrite Hx.
    split; [apply milstein_row_ok; auto | apply length_tabulate].
  - rewrite length_zip_with_l_eq;
      rewrite length_map, length_time_increments; lia.
  - exists traj. split; [|split; [exact Hdim|]].
    + rewrite <- E. apply foldM_ext. intros X [[t dt] dW]. reflexivity.
    + revert Htr. apply fold_trajectory_ext. intros i X Hi.
      rewrite nth_dWs by lia. reflexivity.
Qed.

Lemma faulty_milstein_trajectory (n L : nat) (a b c : list R -> R -> list R)
    (X0 ts Us : list R) :
  preserves_dim n a -> preserves_dim n b -> preserves_dim n c ->
  length X0 = n ->
  length ts = L -> (1 <= L)%nat -> length Us = (L - 1)%nat ->
  exists traj, faulty_milstein a b c X0 ts Us = Ok traj /\
    Forall (fun r => length r = n) traj /\
    fold_trajectory
      (fun i X =>
         faulty_milstein_step a b c X (nth i ts 0) (Delta_t ts i)
           (Delta_W ts Us i))
      X0 L traj.
Proof.
  intros Ha Hb Hc HX0 Hts HL HUs. unfold faulty_milstein.
  rewrite np_product_pair_ok
    by (rewrite length_map, length_time_increments; lia).
  rewrite bind_Ok.
  destruct (zip3_loop_trajectory n L (fun X r => Ok (X ++ [r]))
              (fun x '(t, dt, dW) =>
                 faulty_milstein_row (a x t) (b x t) (c x t) x dt dW)
              (fun x '(t, dt, dW) => faulty_milstein_step a b c x t dt dW)
              ts (zip_with Rmult (map sqrt (time_increments ts)) Us) X0)
    as (traj & E & Hdim & Htr); auto.
  - intros x [[t dt] dW] Hx. unfold faulty_milstein_step. rewrite Hx.
    split; [apply faulty_milstein_row_ok; auto | apply length_tabulate].
  - rewrite length_zip_with_l_eq;
      rewrite length_map, length_time_increments; lia.
  - exists traj. split; [|split; [exact Hdim|]].
    + rewrite <- E. apply foldM_ext. intros X [[t dt] dW]. reflexivity.
    + revert Htr. apply fold_trajectory_ext. intros i X Hi.
      rewrite nth_dWs by lia. reflexivity.
Qed.

Lemma meas_euler_trajectory (n L : nat) (a b : list R -> R -> list R)
    (dW_fn : R -> R -> list R -> R -> R) (X0 ts dMs : list R) :
  preserves_dim n a -> preserves_dim n b -> length X0 = n ->
  length ts = L -> (1 <= L)%nat -> length dMs = (L - 1)%nat ->
  exists traj, meas_euler a b dW_fn X0 ts dMs = Ok traj /\
    Forall (fun r => length r = n) traj /\
    fold_trajectory
      (fun i X =>
         euler_step a b X (nth i ts 0) (Delta_t ts i)
           (dW_fn (nth i dMs 0) (Delta_t ts i) X (nth i ts 0)))
      X0 L traj.
Proof.
  intros Ha Hb HX0 Hts HL HMs. unfold meas_euler.
  destruct (zip3_loop_trajectory n L vstack
              (fun x '(t, dt, dM) =>
                 euler_row (a x t) (b x t) x dt (dW_fn dM dt x t))
              (fun x '(t, dt, dM) => euler_step a b x t dt (dW_fn dM dt x t))
              ts dMs X0)
    as (traj & E & Hdim & Htr); auto.
  - apply vstack_ok.
  - intros x [[t dt] dM] Hx. unfold euler_step. rewrite Hx.
    split; [apply euler_row_ok; auto | apply length_tabulate].
  - exists traj. split; [|split; [exact Hdim | exact Htr]].
    rewrite <- E. apply foldM_ext. intros X [[t dt] dM]. reflexivity.
Qed.

Lemma meas_milstein_trajectory (n L : nat) (a b c : list R -> R -> list R)
    (dW_fn : R -> R -> list R -> R -> R) (X0 ts dMs : list R) :
  preserves_dim n a -> preserves_dim n b -> preserves_dim n c ->
  length X0 = n ->
  length ts = L -> (1 <= L)%nat -> length dMs = (L - 1)%nat ->
  exists traj, meas_milstein a b c dW_fn X0 ts dMs = Ok traj /\
    Forall (fun r => length r = n) traj /\
    fold_trajectory
      (fun i X =>
         milstein_step a b c X (nth i ts 0) (Delta_t ts i)
           (dW_fn (nth i dMs 0) (Delta_t ts i) X (nth i ts 0)))
      X0 L traj.
Proof.
  intros Ha Hb Hc HX0 Hts HL HMs. unfold meas_milstein.
  destruct (zip3_loop_trajectory n L vstack
              (fun x '(t, dt, dM) =>
                 milstein_row (a x t) (b x t) (c x t) x dt (dW_fn dM dt x t))
              (fun x '(t, dt, dM) =>
                 milstein_step a b c x t dt (dW_fn dM dt x t))
              ts dMs X0)
    as (traj & E & Hdim & Htr); auto.
  - apply vstack_ok.
  - intros x [[t dt] dM] Hx. unfold milstein_step. rewrite Hx.
    split; [apply milstein_row_ok; auto | apply length_tabulate].
  - exists traj. split; [|split; [exact Hdim | exact Htr]].
    rewrite <- E. apply foldM_ext. intros X [[t dt] dM]. reflexivity.
Qed.

Lemma length_taylor_1_5_step (c : taylor_coeffs) (X : list R) (dt dW dZ : R) :
  length (taylor_1_5_step c X dt dW dZ) = length X.
Proof. apply length_tabulate. Qed.

Lemma taylor_noise_ok (ts U1s U2s : list R) :
  length U1s = (length ts - 1)%nat -> length U2s = (length ts - 1)%nat ->
  exists dWs z1 z2 z3,
    ufunc1 Rmult U1s (map sqrt (time_increments ts)) = Ok dWs /\
    ufunc1 Rplus U1s (vdivs U2s (sqrt 3)) = Ok z1 /\
    ufunc1 Rmult z1 (map sqrt (time_increments ts)) = Ok z2 /\
    ufunc1 Rmult z2 (time_increments ts) = Ok z3 /\
    length dWs = (length ts - 1)%nat /\
    length (vdivs z3 2) = (length ts - 1)%nat /\
    forall i, (S i < length ts)%nat ->
      nth i dWs 0 = Delta_W ts U1s i /\
      nth i (vdivs z3 2) 0 = Delta_Z ts U1s U2s i.
Proof.
  intros H1 H2. set (m := (length ts - 1)%nat) in *.
  assert (Hd : length (time_increments ts) = m) by apply length_time_increments.
  assert (Hs : length (map sqrt (time_increments ts)) = m)
    by (rewrite length_map; exact Hd).
  assert (Hnth : forall i, (i < m)%nat ->
            comp (time_increments ts) i = Delta_t ts i /\
            comp (map sqrt (time_increments ts)) i = sqrt (Delta_t ts i)).
  { intros i Hi. unfold comp.
    rewrite (nth_map_lt sqrt _ i 0) by lia.
    rewrite nth_time_increments by (unfold m in Hi; lia). auto. }
  eexists _, _, _, _.
  split; [apply (ufunc1_tab _ m); assumption|].
  split; [apply (ufunc1_tab _ m); vec_len|].
  split; [apply (ufunc1_tab _ m); vec_len|].
  split; [apply (ufunc1_tab _ m); vec_len|].
  split; [apply length_tabulate|].
  split; [rewrite length_vdivs; apply length_tabulate|].
  intros i Hi. assert (Hi' : (i < m)%nat) by (unfold m; lia).
  destruct (Hnth i Hi') as [E1 E2].
  rewrite (vdivs_tab m) by vec_len. rewrite (vdivs_tab m U2s) by vec_len.
  rewrite !nth_tabulate by assumption.
  repeat rewrite comp_tabulate by assumption.
  rewrite E1, E2. unfold Delta_W, Delta_Z, comp. split; reflexivity.
Qed.

Lemma nth_zip4 {A B C D : Type} (a : list A) (b : list B) (c : list C)
    (d : list D) (da : A) (db : B) (dc : C) (dd : D) (i : nat) :
  (i < length a)%nat -> (i < length b)%nat -> (i < length c)%nat ->
  (i < length d)%nat ->
  nth i (zip4 a b c d) (da, db, dc, dd)
  = (nth i a da, nth i b db, nth i c dc, nth i d dd).
Proof.
  intros Ha Hb Hc Hd. unfold zip4.
  rewrite (nth_zip_with_lt pair _ d i (da, db, dc) dd)
    by (unfold zip3; rewrite ?length_zip_with; lia).
  rewrite nth_zip3 by lia. reflexivity.
Qed.

Lemma taylor_trajectory (n L : nat) (c : taylor_coeffs) (X0 ts U1s U2s : list R) :
  taylor_coeffs_dim n c -> length X0 = n ->
  length ts = L -> (1 <= L)%nat ->
  length U1s = (L - 1)%nat -> length U2s = (L - 1)%nat ->
  exists traj, time_ind_taylor_1_5 c X0 ts U1s U2s = Ok traj /\
    Forall (fun r => length r = n) traj /\
    fold_trajectory
      (fun i X =>
         taylor_1_5_step c X (Delta_t ts i) (Delta_W ts U1s i)
           (Delta_Z ts U1s U2s i))
      X0 L traj.
Proof.
  intros Hc HX0 Hts HL HU1 HU2. subst L.
  destruct (taylor_noise_ok ts U1s U2s HU1 HU2)
    as (dWs & z1 & z2 & z3 & E1 & E2 & E3 & E4 & LW & LZ & Hnth).
  unfold time_ind_taylor_1_5.
  rewrite E1, bind_Ok, E2, bind_Ok, E3, bind_Ok, E4, bind_Ok. cbv zeta.
  set (inputs := zip4 (removelast ts) (time_increments ts) dWs (vdivs z3 2)).
  set (g := fun (x : list R) (i : R * R * R * R) =>
              let '(t, dt, dW, dZ) := i in taylor_1_5_step c x dt dW dZ).
  exists (iterate_steps g X0 inputs).
  assert (Hlen : length inputs = (length ts - 1)%nat).
  { unfold inputs, zip4, zip3. rewrite !length_zip_with.
    rewrite length_removelast', length_time_increments. lia. }
  split; [|split].
  - assert (Hrow : forall x i, length x = n ->
              (fun x (i : R * R * R * R) =>
                 let '(t, dt, dW, dZ) := i in taylor_1_5_row c x dt dW dZ) x i
              = Ok (g x i) /\ length (g x i) = n).
    { intros x [[[t dt] dW] dZ] Hx. simpl.
      split; [apply (taylor_1_5_row_ok n); assumption|].
      rewrite length_taylor_1_5_step. exact Hx. }
    etransitivity;
      [|exact (foldM_push n vstack _ g (vstack_ok n) Hrow inputs [] X0 HX0)].
    apply foldM_ext. intros X [[[t dt] dW] dZ]. reflexivity.
  - apply iterate_steps_dim; [|exact HX0].
    intros x [[[t dt] dW] dZ] Hx. simpl.
    rewrite length_taylor_1_5_step. exact Hx.
  - pose proof (iterate_steps_trajectory g (0, 0, 0, 0) inputs X0) as Htr.
    rewrite Hlen in Htr. replace (S (length ts - 1)) with (length ts) in Htr by lia.
    revert Htr. apply fold_trajectory_ext. intros i X Hi.
    unfold inputs. rewrite nth_zip4
      by (rewrite ?length_removelast', ?length_time_increments; lia).
    destruct (Hnth i Hi) as [EW EZ]. rewrite EW, EZ.
    rewrite nth_time_increments by lia. reflexivity.
Qed.

Lemma Forall_nth_dim (n : nat) (traj : list (list R)) (i : nat) :
  Forall (fun r => length r = n) traj -> (i < length traj)%nat ->
  length (nth i traj []) = n.
Proof. apply Forall_nth_length. Qed.

(** C2.  On a grid of L points with noise samples of length L-1 and
    dimension-preserving coefficient callables, [time_ind_taylor_1_5] returns a
    trajectory whose row i+1 is, component by component, row i plus
    a dt + b dW + 1/2 (b.d)b (dW^2 - dt) + (b.d)a dZ
    + [(a.d)b + 1/2 bb.dd b] (dW dt - dZ) + 1/2 [(a.d)a + 1/2 bb.dd a] dt^2
    + 1/2 (b.d)(b.d)b (1/3 dW^2 - dt) dW, with dW = U1 sqrt(dt) and
    dZ = (U1 + U2/sqrt 3) sqrt(dt) dt / 2. *)
Theorem time_ind_taylor_1_5_update (n L : nat) (c : taylor_coeffs)
    (X0 ts U1s U2s : list R) :
  taylor_coeffs_dim n c -> length X0 = n ->
  length ts = L -> (1 <= L)%nat ->
  length U1s = (L - 1)%nat -> length U2s = (L - 1)%nat ->
  exists Xs,
    time_ind_taylor_1_5 c X0 ts U1s U2s = Ok Xs /\ length Xs = L /\
    forall i, (S i < L)%nat ->
      let X := nth i Xs [] in
      let dt := nth (S i) ts 0 - nth i ts 0 in
      let dW := nth i U1s 0 * sqrt dt in
      let dZ := (nth i U1s 0 + nth i U2s 0 / sqrt 3) * sqrt dt * dt / 2 in
      length (nth (S i) Xs []) = n /\
      forall mu, (mu < n)%nat ->
        comp (nth (S i) Xs []) mu
        = comp X mu + comp (drift c X) mu * dt + comp (diffusion c X) mu * dW
          + 1 / 2 * comp (b_dx_b c X) mu * (dW ^ 2 - dt)
          + comp (b_dx_a c X) mu * dZ
          + (comp (a_dx_b c X) mu + 1 / 2 * comp (b_b_dx_dx_b c X) mu)
            * (dW * dt - dZ)
          + 1 / 2 * (comp (a_dx_a c X) mu + 1 / 2 * comp (b_b_dx_dx_a c X) mu)
            * dt ^ 2
          + 1 / 2 * comp (b_dx_b_dx_b c X) mu * (1 / 3 * dW ^ 2 - dt) * dW.
Proof.
  intros Hc HX0 Hts HL HU1 HU2.
  destruct (taylor_trajectory n L c X0 ts U1s U2s Hc HX0 Hts HL HU1 HU2)
    as (Xs & E & Hdim & Hlen & Hfirst & Hstep).
  exists Xs. split; [exact E|]. split; [exact Hlen|].
  intros i Hi X dt dW dZ.
  assert (HX : length X = n) by (apply Forall_nth_dim; [assumption | lia]).
  split; [apply Forall_nth_dim; [assumption | lia]|].
  intros mu Hmu. rewrite (Hstep i Hi). fold X.
  unfold taylor_1_5_step. rewrite HX, comp_tabulate by exact Hmu.
  reflexivity.
Qed.

Lemma iterate_steps_ext_dim {I : Type} (n : nat) (g1 g2 : list R -> I -> list R)
    (inputs : list I) :
  (forall x i, length x = n -> g1 x i = g2 x i) ->
  (forall x i, length x = n -> length (g1 x i) = n) ->
  forall x, length x = n -> iterate_steps g1 x inputs = iterate_steps g2 x inputs.
Proof.
  intros Heq Hdim. induction inputs as [|i inputs IH]; intros x Hx; simpl.
  - reflexivity.
  - f_equal. rewrite <- Heq by exact Hx. apply IH, Hdim, Hx.
Qed.

Lemma comp_double (v : list R) (mu : nat) :
  comp (map (Rmult 2) v) mu = 2 * comp v mu.
Proof.
  unfold comp. rewrite <- (Rmult_0_r 2) at 1. apply map_nth.
Qed.

Lemma faulty_milstein_eq_milstein_doubled (n : nat)
    (a b c : list R -> R -> list R) (X0 ts Us : list R) :
  preserves_dim n a -> preserves_dim n b -> preserves_dim n c ->
  length X0 = n ->
  faulty_milstein a b c X0 ts Us
  = milstein a b (fun X t => map (Rmult 2) (c X t)) X0 ts Us.
Proof.
  intros Ha Hb Hc HX0. unfold faulty_milstein, milstein.
  destruct (np_product_pair (map sqrt (time_increments ts)) Us) as [dWs|e];
    [|reflexivity].
  rewrite !bind_Ok.
  set (inputs := zip3 (removelast ts) (time_increments ts) dWs).
  set (g1 := fun (x : list R) (i : R * R * R) =>
               let '(t, dt, dW) := i in faulty_milstein_step a b c x t dt dW).
  set (g2 := fun (x : list R) (i : R * R * R) =>
               let '(t, dt, dW) := i in
               milstein_step a b (fun X t => map (Rmult 2) (c X t)) x t dt dW).
  transitivity (Ok (iterate_steps g1 X0 inputs)).
  - etransitivity;
      [|apply (foldM_push n (fun X r => Ok (X ++ [r]))
                 (fun x (i : R * R * R) =>
                    let '(t, dt, dW) := i in
                    faulty_milstein_row (a x t) (b x t) (c x t) x dt dW)
                 g1) with (pre := []); auto].
    + apply foldM_ext. intros X [[t dt] dW]. reflexivity.
    + intros x [[t dt] dW] Hx. simpl. unfold faulty_milstein_step. rewrite Hx.
      split; [apply faulty_milstein_row_ok; auto | apply length_tabulate].
  - rewrite (iterate_steps_ext_dim n g1 g2); [| | |exact HX0].
    + symmetry. etransitivity;
        [|apply (foldM_push n vstack
                   (fun x (i : R * R * R) =>
                      let '(t, dt, dW) := i in
                      milstein_row (a x t) (b x t) (map (Rmult 2) (c x t))
                        x dt dW)
                   g2 (vstack_ok n)) with (pre := []); auto].
      * apply foldM_ext. intros X [[t dt] dW]. reflexivity.
      * intros x [[t dt] dW] Hx. simpl. unfold milstein_step. rewrite Hx.
        split; [apply milstein_row_ok; auto | apply length_tabulate].
        rewrite length_map. auto.
    + intros x [[t dt] dW] Hx. simpl.
      unfold faulty_milstein_step, milstein_step. rewrite Hx.
      apply tabulate_ext. intros mu Hmu. rewrite comp_double. field.
    + intros x [[t dt] dW] Hx. simpl. unfold faulty_milstein_step.
      rewrite length_tabulate. exact Hx.
Qed.

(** C3.  For dimension-preserving callables, [faulty_milstein] with
    correction c returns what [milstein] returns with correction 2c, and each
    of its steps adds a dt + b dW + c (dW^2 - dt), without the factor 1/2. *)
Theorem faulty_milstein_omits_half (n : nat) (a b c : list R -> R -> list R)
    (X0 ts Us : list R) :
  preserves_dim n a -> preserves_dim n b -> preserves_dim n c ->
  length X0 = n ->
  faulty_milstein a b c X0 ts Us
  = milstein a b (fun X t => map (Rmult 2) (c X t)) X0 ts Us /\
  ((1 <= length ts)%nat -> length Us = (length ts - 1)%nat ->
   exists traj,
     faulty_milstein a b c X0 ts Us = Ok traj /\
     length traj = length ts /\ nth 0 traj [] = X0 /\
     forall i, (S i < length ts)%nat ->
       let X := nth i traj [] in
       let t := nth i ts 0 in
       let dt := nth (S i) ts 0 - nth i ts 0 in
       let dW := nth i Us 0 * sqrt dt in
       length (nth (S i) traj []) = n /\
       forall mu, (mu < n)%nat ->
         comp (nth (S i) traj []) mu
         = comp X mu + comp (a X t) mu * dt + comp (b X t) mu * dW
           + comp (c X t) mu * (dW ^ 2 - dt)).
Proof.
  intros Ha Hb Hc HX0.
  split; [apply (faulty_milstein_eq_milstein_doubled n); assumption|].
  intros HL HUs.
  destruct (faulty_milstein_trajectory n (length ts) a b c X0 ts Us)
    as (traj & E & Hdim & Hlen & Hfirst & Hstep); auto.
  exists traj. split; [exact E|]. split; [exact Hlen|]. split; [exact Hfirst|].
  intros i Hi X t dt dW.
  assert (HX : length X = n) by (apply Forall_nth_dim; [assumption | lia]).
  split; [apply Forall_nth_dim; [assumption | lia]|].
  intros mu Hmu. rewrite (Hstep i Hi). fold X.
  unfold faulty_milstein_step. rewrite HX, comp_tabulate by exact Hmu.
  reflexivity.
Qed.

(** C4.  For each of euler, milstein, faulty_milstein, time_ind_taylor_1_5,
    meas_euler and meas_milstein, on a grid of L >= 2 points with noise or
    measurement sequences of length L-1, the returned trajectory has L
    entries, starts with X0, and entry i+1 is the scheme's update applied to
    entry i with the data of step i. *)
Theorem integrators_fold_in_time_order (n L : nat)
    (a b c : list R -> R -> list R) (tc : taylor_coeffs)
    (dW_fn : R -> R -> list R -> R -> R)
    (X0 ts Us U2s dMs : list R) :
  preserves_dim n a -> preserves_dim n b -> preserves_dim n c ->
  taylor_coeffs_dim n tc -> length X0 = n ->
  length ts = L -> (2 <= L)%nat ->
  length Us = (L - 1)%nat -> length U2s = (L - 1)%nat ->
  length dMs = (L - 1)%nat ->
  (exists traj, euler a b X0 ts Us = Ok traj /\
     fold_trajectory
       (fun i X => euler_step a b X (nth i ts 0) (Delta_t ts i) (Delta_W ts Us i))
       X0 L traj) /\
  (exists traj, milstein a b c X0 ts Us = Ok traj /\
     fold_trajectory
       (fun i X =>
          milstein_step a b c X (nth i ts 0) (Delta_t ts i) (Delta_W ts Us i))
       X0 L traj) /\
  (exists traj, faulty_milstein a b c X0 ts Us = Ok traj /\
     fold_trajectory
       (fun i X =>
          faulty_milstein_step a b c X (nth i ts 0) (Delta_t ts i)
            (Delta_W ts Us i))
       X0 L traj) /\
  (exists traj, time_ind_taylor_1_5 tc X0 ts Us U2s = Ok traj /\
     fold_trajectory
       (fun i X =>
          taylor_1_5_step tc X (Delta_t ts i) (Delta_W ts Us i)
            (Delta_Z ts Us U2s i))
       X0 L traj) /\
  (exists traj, meas_euler a b dW_fn X0 ts dMs = Ok traj /\
     fold_trajectory
       (fun i X =>
          euler_step a b X (nth i ts 0) (Delta_t ts i)
            (dW_fn (nth i dMs 0) (Delta_t ts i) X (nth i ts 0)))
       X0 L traj) /\
  (exists traj, meas_milstein a b c dW_fn X0 ts dMs = Ok traj /\
     fold_trajectory
       (fun i X =>
          milstein_step a b c X (nth i ts 0) (Delta_t ts i)
            (dW_fn (nth i dMs 0) (Delta_t ts i) X (nth i ts 0)))
       X0 L traj).
Proof.
  intros Ha Hb Hc Htc HX0 Hts HL HUs HU2 HMs.
  assert (HL1 : (1 <= L)%nat) by lia.
  repeat split.
  - destruct (euler_trajectory n L a b X0 ts Us) as (tr & E & _ & H); eauto.
  - destruct (milstein_trajectory n L a b c X0 ts Us) as (tr & E & _ & H); eauto.
  - destruct (faulty_milstein_trajectory n L a b c X0 ts Us)
      as (tr & E & _ & H); eauto.
  - destruct (taylor_trajectory n L tc X0 ts Us U2s) as (tr & E & _ & H); eauto.
  - destruct (meas_euler_trajectory n L a b dW_fn X0 ts dMs)
      as (tr & E & _ & H); eauto.
  - destruct (meas_milstein_trajectory n L a b c dW_fn X0 ts dMs)
      as (tr & E & _ & H); eauto.
Qed.

(** ** Zero noise *)

Lemma fold_trajectory_constant (step : nat -> list R -> list R) (X0 : list R)
    (L : nat) (traj : list (list R)) :
  (forall i, step i X0 = X0) ->
  fold_trajectory step X0 L traj -> (1 <= L)%nat -> traj = replicate L X0.
Proof.
  intros Hstep (Hlen & Hfirst & Hnext) HL.
  assert (Hall : forall i, (i < L)%nat -> nth i traj [] = X0).
  { induction i as [|i IH]; intros Hi; [exact Hfirst|].
    rewrite Hnext by exact Hi. rewrite IH by lia. apply Hstep. }
  apply (list_eq_nth []); rewrite ?length_replicate; [exact Hlen|].
  intros i Hi. rewrite Hall by lia.
  symmetry. apply nth_lookup_Some with (d := []).
  apply lookup_replicate_2. lia.
Qed.

Lemma comp_replicate_0 (n mu : nat) : comp (replicate n 0) mu = 0.
Proof.
  unfold comp. destruct (Nat.lt_ge_cases mu n) as [H|H].
  - apply nth_lookup_Some with (d := 0). apply lookup_replicate_2, H.
  - apply nth_overflow. rewrite length_replicate. exact H.
Qed.

Lemma Delta_W_zero (ts : list R) (m i : nat) :
  Delta_W ts (replicate m 0) i = 0.
Proof.
  unfold Delta_W. fold (comp (replicate m 0) i). rewrite comp_replicate_0.
  apply Rmult_0_l.
Qed.

Lemma Delta_Z_zero (ts : list R) (m i : nat) :
  Delta_Z ts (replicate m 0) (replicate m 0) i = 0.
Proof.
  unfold Delta_Z. fold (comp (replicate m 0) i). rewrite comp_replicate_0.
  field. intros E. assert (H : sqrt 3 * sqrt 3 = 3) by (apply sqrt_def; lra).
  rewrite E in H. lra.
Qed.

Lemma vanishes_preserves_dim (n : nat) (f : list R -> R -> list R) :
  vanishes n f -> preserves_dim n f.
Proof. intros H X t HX. rewrite H by exact HX. apply length_replicate. Qed.

(** C8, counterexample.  With zero noise and zero drift, Milstein with the
    constant correction 2 moves the state [1] on the grid [0, 1]. *)
Lemma zero_noise_milstein_moves :
  exists traj,
    milstein coeff_zero coeff_id coeff_two [1] [0; 1] [0] = Ok traj /\
    nth 1 traj [] <> [1].
Proof.
  eexists. split; [reflexivity|]. simpl.
  intros H. injection H as H. lra.
Qed.

(** C8, amended.  With all noise samples 0 and a drift that is identically
    zero, Euler returns the initial condition at every time point; Milstein
    does so when the correction b_dx_b vanishes as well, and order 1.5 Taylor
    when b_dx_b, a_dx_a and b_b_dx_dx_a vanish as well. *)
Theorem zero_noise_driftless (n L : nat) (a b c : list R -> R -> list R)
    (tc : taylor_coeffs) (X0 ts : list R) :
  vanishes n a -> preserves_dim n b -> preserves_dim n c ->
  taylor_coeffs_dim n tc -> vanishes1 n (drift tc) ->
  length X0 = n -> length ts = L -> (1 <= L)%nat ->
  euler a b X0 ts (replicate (L - 1) 0) = Ok (replicate L X0) /\
  (vanishes n c ->
   milstein a b c X0 ts (replicate (L - 1) 0) = Ok (replicate L X0)) /\
  (vanishes1 n (b_dx_b tc) -> vanishes1 n (a_dx_a tc) ->
   vanishes1 n (b_b_dx_dx_a tc) ->
   time_ind_taylor_1_5 tc X0 ts (replicate (L - 1) 0) (replicate (L - 1) 0)
   = Ok (replicate L X0)).
Proof.
  intros Ha Hb Hc Htc Hd HX0 Hts HL.
  pose proof (vanishes_preserves_dim n a Ha) as Ha'.
  assert (HU : length (replicate (L - 1) 0) = (L - 1)%nat)
    by apply length_replicate.
  split; [|split].
  - destruct (euler_trajectory n L a b X0 ts (replicate (L - 1) 0))
      as (traj & E & _ & Htr); auto.
    rewrite E. f_equal. revert Htr HL. apply fold_trajectory_constant.
    intros i. unfold euler_step. rewrite Delta_W_zero, HX0, Ha by exact HX0.
    transitivity (tabulate n (comp X0));
      [|rewrite <- HX0; apply tabulate_comp].
    apply tabulate_ext. intros mu Hmu. rewrite comp_replicate_0. ring.
  - intros Hc0.
    destruct (milstein_trajectory n L a b c X0 ts (replicate (L - 1) 0))
      as (traj & E & _ & Htr); auto.
    rewrite E. f_equal. revert Htr HL. apply fold_trajectory_constant.
    intros i. unfold milstein_step.
    rewrite Delta_W_zero, HX0, Ha, Hc0 by exact HX0.
    transitivity (tabulate n (comp X0));
      [|rewrite <- HX0; apply tabulate_comp].
    apply tabulate_ext. intros mu Hmu. rewrite !comp_replicate_0. ring.
  - intros H1 H2 H3.
    destruct (taylor_trajectory n L tc X0 ts (replicate (L - 1) 0)
                (replicate (L - 1) 0))
      as (traj & E & _ & Htr); auto.
    rewrite E. f_equal. revert Htr HL. apply fold_trajectory_constant.
    intros i. unfold taylor_1_5_step.
    rewrite Delta_W_zero, Delta_Z_zero, HX0, Hd, H1, H2, H3 by exact HX0.
    transitivity (tabulate n (comp X0));
      [|rewrite <- HX0; apply tabulate_comp].
    apply tabulate_ext. intros mu Hmu. rewrite !comp_replicate_0. field.
Qed.

(** ** Instances *)

Lemma coeff_zero_vanishes (n : nat) : vanishes n coeff_zero.
Proof. intros X t HX. unfold coeff_zero. rewrite HX. reflexivity. Qed.

Lemma coeff_zero_dim (n : nat) : preserves_dim n coeff_zero.
Proof. apply vanishes_preserves_dim, coeff_zero_vanishes. Qed.

Lemma coeff_id_dim (n : nat) : preserves_dim n coeff_id.
Proof. intros X t HX. exact HX. Qed.

Lemma coeff_two_dim (n : nat) : preserves_dim n coeff_two.
Proof. intros X t HX. unfold coeff_two. rewrite length_replicate. exact HX. Qed.

Lemma example_taylor_coeffs_dim (n : nat) :
  taylor_coeffs_dim n example_taylor_coeffs.
Proof.
  repeat split; intros X HX; simpl; rewrite ?length_replicate; exact HX.
Qed.

Lemma time_ind_taylor_1_5_update_witness :
  taylor_coeffs_dim 1 example_taylor_coeffs /\
  exists Xs, time_ind_taylor_1_5 example_taylor_coeffs [1] [0; 1] [0] [0] = Ok Xs /\
             length Xs = 2%nat.
Proof.
  split; [apply example_taylor_coeffs_dim|].
  destruct (time_ind_taylor_1_5_update 1 2 example_taylor_coeffs
              [1] [0; 1] [0] [0] (example_taylor_coeffs_dim 1)
              eq_refl eq_refl (le_S 1 1 (le_n 1)) eq_refl eq_refl)
    as (Xs & E & Hlen & _).
  exists Xs. split; assumption.
Defined.

Lemma faulty_milstein_omits_half_witness :
  preserves_dim 1 coeff_zero /\ preserves_dim 1 coeff_id /\
  preserves_dim 1 coeff_two /\
  faulty_milstein coeff_zero coeff_id coeff_two [1] [0; 1] [0]
  = milstein coeff_zero coeff_id (fun X t => map (Rmult 2) (coeff_two X t))
      [1] [0; 1] [0].
Proof.
  split; [apply coeff_zero_dim|]. split; [apply coeff_id_dim|].
  split; [apply coeff_two_dim|].
  exact (proj1 (faulty_milstein_omits_half 1 coeff_zero coeff_id coeff_two
                  [1] [0; 1] [0] (coeff_zero_dim 1) (coeff_id_dim 1)
                  (coeff_two_dim 1) eq_refl)).
Defined.

Lemma integrators_fold_in_time_order_witness :
  preserves_dim 1 coeff_zero /\ preserves_dim 1 coeff_id /\
  preserves_dim 1 coeff_two /\ taylor_coeffs_dim 1 example_taylor_coeffs /\
  exists traj, euler coeff_zero coeff_id [1] [0; 1] [0] = Ok traj /\
               length traj = 2%nat /\ nth 0 traj [] = [1].
Proof.
  split; [apply coeff_zero_dim|]. split; [apply coeff_id_dim|].
  split; [apply coeff_two_dim|]. split; [apply example_taylor_coeffs_dim|].
  destruct (integrators_fold_in_time_order 1 2 coeff_zero coeff_id coeff_two
              example_taylor_coeffs (fun dM _ _ _ => dM) [1] [0; 1] [0] [0] [0]
              (coeff_zero_dim 1) (coeff_id_dim 1) (coeff_two_dim 1)
              (example_taylor_coeffs_dim 1) eq_refl eq_refl (le_n 2)
              eq_refl eq_refl eq_refl)
    as [(traj & E & Hlen & Hfirst & _) _].
  exists traj. auto.
Defined.

Lemma zero_noise_driftless_witness :
  vanishes 1 coeff_zero /\ preserves_dim 1 coeff_id /\
  preserves_dim 1 coeff_two /\ taylor_coeffs_dim 1 example_taylor_coeffs /\
  vanishes1 1 (drift example_taylor_coeffs) /\
  euler coeff_zero coeff_id [1] [0; 1] (replicate (2 - 1) 0)
  = Ok (replicate 2 [1]).
Proof.
  assert (Hd : vanishes1 1 (drift example_taylor_coeffs)).
  { intros X HX. simpl. rewrite HX. reflexivity. }
  split; [apply coeff_zero_vanishes|]. split; [apply coeff_id_dim|].
  split; [apply coeff_two_dim|]. split; [apply example_taylor_coeffs_dim|].
  split; [exact Hd|].
  exact (proj1 (zero_noise_driftless 1 2 coeff_zero coeff_id coeff_two
                  example_taylor_coeffs [1] [0; 1]
                  (coeff_zero_vanishes 1) (coeff_id_dim 1) (coeff_two_dim 1)
                  (example_taylor_coeffs_dim 1) Hd eq_refl eq_refl
                  (le_S 1 1 (le_n 1)))).
Defined.

(** ** Refinement without validation *)

Lemma refine_cols (m : nat) :
  broadcast_dim (Nat.div2 (S m)) (Nat.div2 m)
  = if refinement_raises m then None
    else Some (if Nat.odd m then (if (m =? 1)%nat then 0%nat else 2%nat)
               else Nat.div2 m).
Proof.
  unfold refinement_raises, broadcast_dim.
  pose proof (Nat.div2_odd m) as Hm. pose proof (Nat.div2_odd (S m)) as HSm.
  rewrite Nat.odd_succ, <- Nat.negb_odd in HSm.
  destruct (Nat.odd m); cbn [Nat.b2n negb andb] in *.
  - assert (E : Nat.div2 (S m) = S (Nat.div2 m)) by lia. rewrite E.
    destruct (Nat.eqb_spec (S (Nat.div2 m)) (Nat.div2 m)); [lia|].
    destruct (Nat.eqb_spec (S (Nat.div2 m)) 1).
    + assert (m = 1%nat) by lia. subst m. reflexivity.
    + destruct (Nat.eqb_spec (Nat.div2 m) 1).
      * assert (m = 3%nat) by lia. subst m. reflexivity.
      * destruct (Nat.leb_spec 5 m); [reflexivity | lia].
  - assert (E : Nat.div2 (S m) = Nat.div2 m) by lia.
    rewrite E, Nat.eqb_refl. reflexivity.
Qed.

Lemma ufunc2_shape_ok (f : R -> R -> R) (A B : ndarray2) (c : nat) :
  nrows A = nrows B -> broadcast_dim (ncols A) (ncols B) = Some c ->
  ufunc2 f A B =
  Ok {| nrows := nrows A; ncols := c;
        rows := zip_broadcast (zip_broadcast f) (rows A) (rows B) |}.
Proof.
  intros Hr Hc. unfold ufunc2. rewrite <- Hr, broadcast_dim_refl, Hc.
  reflexivity.
Qed.

Lemma ufunc2_shape_raise (f : R -> R -> R) (A B : ndarray2) :
  broadcast_dim (ncols A) (ncols B) = None -> ufunc2 f A B = Raise ValueError.
Proof.
  intros Hc. unfold ufunc2. rewrite Hc.
  destruct (broadcast_dim (nrows A) (nrows B)); reflexivity.
Qed.

Lemma broadcast_dim_same_l (c a b : nat) :
  broadcast_dim a b = Some c -> broadcast_dim c a = Some c.
Proof.
  unfold broadcast_dim.
  destruct (Nat.eqb_spec a b); [intros [= <-]; rewrite Nat.eqb_refl; reflexivity|].
  destruct (Nat.eqb_spec a 1).
  - intros [= <-]. subst a. destruct (Nat.eqb_spec b 1); [lia|].
    reflexivity.
  - destruct (Nat.eqb_spec b 1); [|discriminate].
    intros [= <-]. rewrite Nat.eqb_refl. reflexivity.
Qed.

Lemma broadcast_dim_same_r (c a b : nat) :
  broadcast_dim a b = Some c -> broadcast_dim c b = Some c.
Proof.
  unfold broadcast_dim.
  destruct (Nat.eqb_spec a b); [intros [= <-]; subst; rewrite Nat.eqb_refl; reflexivity|].
  destruct (Nat.eqb_spec a 1).
  - intros [= <-]. rewrite Nat.eqb_refl. reflexivity.
  - destruct (Nat.eqb_spec b 1); [|discriminate].
    intros [= <-]. subst b. destruct (Nat.eqb_spec a 1); [lia|].
    reflexivity.
Qed.

(** The outcome of [double_increments] as a function of the shapes alone. *)
Lemma double_increments_shape (times : list R) (U1s : ndarray2)
    (U2s : option ndarray2) :
  (forall V, U2s = Some V -> nrows V = nrows U1s /\ ncols V = ncols U1s) ->
  match broadcast_dim (Nat.div2 (S (ncols U1s))) (Nat.div2 (ncols U1s)) with
  | None => double_increments times U1s U2s = Raise ValueError
  | Some c =>
      exists U1s' U2s',
        double_increments times U1s U2s = Ok (stride2 times, U1s', U2s') /\
        nrows U1s' = nrows U1s /\ ncols U1s' = c /\
        length (rows U1s') = length (rows U1s) /\
        forall V', U2s' = Some V' -> nrows V' = nrows U1s /\ ncols V' = c
  end.
Proof.
  intros HV. unfold double_increments.
  destruct (broadcast_dim _ _) as [c|] eqn:Hc.
  - rewrite !(ufunc2_shape_ok _ (cols_even U1s) (cols_odd U1s) c) by auto.
    rewrite !bind_Ok. cbv beta.
    assert (Hrows : length (rows (amap (fun x => x / sqrt 2)
              {| nrows := nrows (cols_even U1s); ncols := c;
                 rows := zip_broadcast (zip_broadcast Rplus)
                           (rows (cols_even U1s)) (rows (cols_odd U1s)) |}))
            = length (rows U1s)).
    { simpl. rewrite length_map.
      rewrite zip_broadcast_same by (rewrite !length_map; reflexivity).
      rewrite length_zip_with_l_eq; rewrite !length_map; reflexivity. }
    destruct U2s as [V|].
    + destruct (HV V eq_refl) as [HrV HcV].
      eexists _, _. split.
      { rewrite bind_Ok. cbv beta.
        rewrite (ufunc2_shape_ok _ _ (cols_even V) c);
          [| simpl; congruence
           | simpl; rewrite HcV; eapply broadcast_dim_same_l; exact Hc].
        rewrite bind_Ok. cbv beta.
        rewrite (ufunc2_shape_ok _ _ (cols_odd V) c);
          [| simpl; congruence
           | simpl; rewrite HcV; eapply broadcast_dim_same_r; exact Hc].
        rewrite bind_Ok. cbv beta. reflexivity. }
      split; [reflexivity|]. split; [reflexivity|]. split; [exact Hrows|].
      intros V' [= <-]. split; reflexivity.
    + eexists _, _. split; [reflexivity|].
      split; [reflexivity|]. split; [reflexivity|]. split; [exact Hrows|].
      intros V' [=].
  - rewrite ufunc2_shape_raise by exact Hc. reflexivity.
Qed.

Lemma getitem_row0_ok (Us : ndarray2) :
  rows Us <> [] -> exists r, getitem_row0 Us = Ok r.
Proof.
  unfold getitem_row0. destruct (rows Us) as [|r rs]; [congruence|].
  intros _. exists r. reflexivity.
Qed.

(** C7, counterexample.  Three intervals are refined without an error, into
    two time points and two noise columns; and the driver integrates a grid
    of two intervals. *)
Lemma odd_interval_count_not_rejected :
  double_increments [0; 1; 2; 3] (mk_ndarray2 1 3 [[1; 1; 1]]) None
  = Ok ([0; 2],
        mk_ndarray2 1 2 [[(1 + 1) / sqrt 2; (1 + 1) / sqrt 2]], None) /\
  is_ok (milstein_grid_convergence (fun ts _ => Ok [ts])
           (fun _ r c => mk_ndarray2 r c []) [0; 1; 2]
           (Some (mk_ndarray2 1 2 [[1; 1]]))) = true.
Proof. split; reflexivity. Qed.

(** C7, amended.  [double_increments] does not check the interval count m:
    it raises numpy's broadcasting [ValueError] exactly when m is odd and at
    least 5, and returns a refined grid and noise array otherwise (also for
    m = 1 and m = 3).  The driver [milstein_grid_convergence] has no check
    either.  It raises before it integrates in two cases only: with
    [ValueError] when one of its two refinements raises, that is when m is
    odd and at least 5 or m is even and m/2 is odd and at least 5; and,
    failing that, with [IndexError] at [Us[0]] when the noise array has no
    rows.  In every other case, whatever m is, it runs the three
    integrations, on the first row of the noise and of its two refinements,
    and its result is theirs. *)
Theorem refinement_not_validated (times : list R) (U1s : ndarray2)
    (U2s : option ndarray2)
    (integrate : list R -> list R -> result (list (list R)))
    (randn : nat -> nat -> nat -> ndarray2) :
  (forall V, U2s = Some V -> nrows V = nrows U1s /\ ncols V = ncols U1s) ->
  (if refinement_raises (ncols U1s)
   then double_increments times U1s U2s = Raise ValueError
   else exists U1s' U2s',
          double_increments times U1s U2s = Ok (stride2 times, U1s', U2s') /\
          nrows U1s' = nrows U1s) /\
  (if refinement_raises (ncols U1s)
      || Nat.even (ncols U1s) && refinement_raises (Nat.div2 (ncols U1s))
   then milstein_grid_convergence integrate randn times (Some U1s)
        = Raise ValueError
   else match rows U1s with
        | [] => milstein_grid_convergence integrate randn times (Some U1s)
                = Raise IndexError
        | u :: _ =>
            exists Us_2 Us_4 u2 u4,
              double_increments times U1s None
              = Ok (stride2 times, Us_2, None) /\
              double_increments (stride2 times) Us_2 None
              = Ok (stride2 (stride2 times), Us_4, None) /\
              getitem_row0 Us_2 = Ok u2 /\ getitem_row0 Us_4 = Ok u4 /\
              milstein_grid_convergence integrate randn times (Some U1s)
              = three_resolutions integrate times u u2 u4
        end).
Proof.
  intros HV. split.
  - pose proof (double_increments_shape times U1s U2s HV) as H.
    rewrite refine_cols in H.
    destruct (refinement_raises (ncols U1s)); [exact H|].
    destruct H as (U1s' & U2s' & E & Hr & _). exists U1s', U2s'. auto.
  - assert (HN : forall V, @None ndarray2 = Some V ->
              nrows V = nrows U1s /\ ncols V = ncols U1s) by (intros V [=]).
    pose proof (double_increments_shape times U1s None HN) as H.
    rewrite refine_cols in H. unfold milstein_grid_convergence.
    rewrite bind_Ok.
    destruct (refinement_raises (ncols U1s)) eqn:R1; simpl orb.
    { rewrite H. reflexivity. }
    destruct H as (Us_2 & o & E & Hr2 & Hc2 & Hl2 & Ho).
    assert (o = None) as ->.
    { revert E. unfold double_increments.
      destruct (ufunc2 Rplus (cols_even U1s) (cols_odd U1s));
        [|discriminate].
      rewrite bind_Ok. cbv beta. congruence. }
    rewrite E, bind_Ok.
    assert (HN2 : forall V, @None ndarray2 = Some V ->
              nrows V = nrows Us_2 /\ ncols V = ncols Us_2) by (intros V [=]).
    pose proof (double_increments_shape (stride2 times) Us_2 None HN2) as H2.
    rewrite refine_cols in H2.
    assert (R2 : refinement_raises (ncols Us_2)
                 = Nat.even (ncols U1s) && refinement_raises (Nat.div2 (ncols U1s))).
    { rewrite Hc2, <- Nat.negb_odd.
      destruct (Nat.odd (ncols U1s)); [|reflexivity].
      destruct (ncols U1s =? 1)%nat; reflexivity. }
    rewrite <- R2. destruct (refinement_raises (ncols Us_2)).
    { rewrite H2. reflexivity. }
    destruct H2 as (Us_4 & o4 & E4 & Hr4 & Hc4 & Hl4 & _).
    assert (o4 = None) as ->.
    { revert E4. unfold double_increments.
      destruct (ufunc2 Rplus (cols_even Us_2) (cols_odd Us_2));
        [|discriminate].
      rewrite bind_Ok. cbv beta. congruence. }
    rewrite E4, bind_Ok.
    destruct (rows U1s) as [|u rest] eqn:Hrows.
    { unfold getitem_row0 at 1. rewrite Hrows. reflexivity. }
    assert (Hne2 : rows Us_2 <> [])
      by (intros C; rewrite C in Hl2; discriminate Hl2).
    assert (Hne4 : rows Us_4 <> [])
      by (intros C; rewrite C in Hl4; rewrite <- Hl4 in Hl2;
          discriminate Hl2).
    destruct (getitem_row0_ok Us_2 Hne2) as (r2 & G2).
    destruct (getitem_row0_ok Us_4 Hne4) as (r4 & G4).
    exists Us_2, Us_4, r2, r4.
    split; [reflexivity|]. split; [exact E4|].
    split; [exact G2|]. split; [exact G4|].
    unfold three_resolutions, getitem_row0 at 1. rewrite Hrows, bind_Ok.
    destruct (integrate times u) as [rhos|e]; [|reflexivity].
    rewrite !bind_Ok, G2, bind_Ok.
    destruct (integrate (stride2 times) r2) as [rhos2|e]; [|reflexivity].
    rewrite !bind_Ok, G4, bind_Ok. reflexivity.
Qed.

Lemma refinement_not_validated_witness :
  (forall V, Some (mk_ndarray2 1 3 [[0; 0; 0]]) = Some V ->
     nrows V = nrows (mk_ndarray2 1 3 [[1; 1; 1]]) /\
     ncols V = ncols (mk_ndarray2 1 3 [[1; 1; 1]])) /\
  (exists U1s' U2s',
     double_increments [0; 1; 2; 3] (mk_ndarray2 1 3 [[1; 1; 1]])
       (Some (mk_ndarray2 1 3 [[0; 0; 0]]))
     = Ok (stride2 [0; 1; 2; 3], U1s', U2s') /\
     nrows U1s' = nrows (mk_ndarray2 1 3 [[1; 1; 1]])) /\
  exists Us_2 Us_4 u2 u4,
    double_increments [0; 1; 2; 3] (mk_ndarray2 1 3 [[1; 1; 1]]) None
    = Ok (stride2 [0; 1; 2; 3], Us_2, None) /\
    double_increments (stride2 [0; 1; 2; 3]) Us_2 None
    = Ok (stride2 (stride2 [0; 1; 2; 3]), Us_4, None) /\
    getitem_row0 Us_2 = Ok u2 /\ getitem_row0 Us_4 = Ok u4 /\
    milstein_grid_convergence (fun ts us => Ok [ts; us])
      (fun _ r c => mk_ndarray2 r c []) [0; 1; 2; 3]
      (Some (mk_ndarray2 1 3 [[1; 1; 1]]))
    = three_resolutions (fun ts us => Ok [ts; us]) [0; 1; 2; 3]
        [1; 1; 1] u2 u4.
Proof.
  assert (H1 : forall V, Some (mk_ndarray2 1 3 [[0; 0; 0]]) = Some V ->
            nrows V = nrows (mk_ndarray2 1 3 [[1; 1; 1]]) /\
            ncols V = ncols (mk_ndarray2 1 3 [[1; 1; 1]]))
    by (intros V [= <-]; split; reflexivity).
  split; [exact H1|].
  exact (refinement_not_validated [0; 1; 2; 3]
           (mk_ndarray2 1 3 [[1; 1; 1]]) (Some (mk_ndarray2 1 3 [[0; 0; 0]]))
           (fun ts us => Ok [ts; us]) (fun _ r c => mk_ndarray2 r c [])
           H1).
Defined.

(** ** The store monad *)

Lemma sbind_Ok {S A B : Type} (m : st S A) (k : A -> st S B) (s s' : S) (a : A) :
  m s = (Ok a, s') -> sbind m k s = k a s'.
Proof. intros H. unfold sbind. rewrite H. reflexivity. Qed.

Lemma sbind_Raise {S A B : Type} (m : st S A) (k : A -> st S B) (s s' : S) (e : exn) :
  m s = (Raise e, s') -> sbind m k s = (Raise e, s').
Proof. intros H. unfold sbind. rewrite H. reflexivity. Qed.

Lemma store_preserving_lift {S A : Type} (m : result A) :
  store_preserving (lift (S := S) m).
Proof. intros s. reflexivity. Qed.

Lemma store_preserving_sret {S A : Type} (a : A) :
  store_preserving (sret (S := S) a).
Proof. intros s. reflexivity. Qed.

Lemma store_preserving_sbind {S A B : Type} (m : st S A) (k : A -> st S B) :
  store_preserving m -> (forall a, store_preserving (k a)) ->
  store_preserving (sbind m k).
Proof.
  intros Hm Hk s. unfold sbind. specialize (Hm s).
  destruct (m s) as [[a|e] s']; simpl in *; subst s'; [apply Hk | reflexivity].
Qed.

Lemma store_preserving_dict_read (d : loc) : store_preserving (dict_read d).
Proof. intros s. unfold dict_read. destruct (s !! d); reflexivity. Qed.

(** ** Keyword dictionaries *)

Lemma fresh_dom_None {V : Type} (s : gmap loc V) : s !! fresh (dom s) = None.
Proof. apply not_elem_of_dom. apply is_fresh. Qed.

Lemma fresh_dom_ne {V : Type} (s : gmap loc V) (l : loc) (v : V) :
  s !! l = Some v -> fresh (dom s) <> l.
Proof. intros H E. rewrite <- E, fresh_dom_None in H. discriminate. Qed.

Lemma dict_update_with_grid (d : loc) (m : kwargs) (ts U1s U2s : list R)
    (s : gmap loc (gmap string pyval)) :
  s !! d = Some m ->
  dict_update d [("ts", PyArray ts); ("U1s", PyArray U1s); ("U2s", PyArray U2s)]%string s
  = (Ok tt, <[d := with_grid m ts U1s U2s]> s).
Proof. intros H. unfold dict_update. rewrite H. reflexivity. Qed.

(** The store after the three updates of [homodyne_strong_calc_rate]. *)
Lemma calc_rate_store (integrator_fn : kwargs -> result (list (list R)))
    (keyword_args : loc)
    (times U1s U2s times_2 U1s_2 U2s_2 times_4 U1s_4 U2s_4 : list R)
    (s : gmap loc (gmap string pyval)) (d : kwargs) :
  s !! keyword_args = Some d ->
  let k2 := fresh (dom s) in
  let k4 := fresh (dom (<[k2 := d]> s)) in
  let s' := <[k4 := with_grid d times_4 U1s_4 U2s_4]>
              (<[k2 := with_grid d times_2 U1s_2 U2s_2]>
                 (<[keyword_args := with_grid d times U1s U2s]>
                    (<[k4 := d]> (<[k2 := d]> s)))) in
  homodyne_strong_calc_rate integrator_fn keyword_args
    times U1s U2s times_2 U1s_2 U2s_2 times_4 U1s_4 U2s_4 s
  = ((let* rhos := integrator_fn (with_grid d times U1s U2s) in
      let* rhos_2 := integrator_fn (with_grid d times_2 U1s_2 U2s_2) in
      let* rhos_4 := integrator_fn (with_grid d times_4 U1s_4 U2s_4) in
      let* e4 := getitem_last rhos_4 in
      let* e2 := getitem_last rhos_2 in
      let* d42 := ufunc1 Rminus e4 e2 in
      let* e2' := getitem_last rhos_2 in
      let* e1 := getitem_last rhos in
      let* d21 := ufunc1 Rminus e2' e1 in
      Ok ((ln (l1_norm d42) - ln (l1_norm d21)) / ln 2)), s').
Proof.
  intros Hd k2 k4 s'.
  assert (Hk2 : k2 <> keyword_args) by (eapply fresh_dom_ne; exact Hd).
  assert (Hd1 : <[k2 := d]> s !! keyword_args = Some d)
    by (rewrite lookup_insert_ne by exact Hk2; exact Hd).
  assert (Hk4 : k4 <> keyword_args) by (eapply fresh_dom_ne; exact Hd1).
  assert (Hk42 : k4 <> k2).
  { eapply fresh_dom_ne. apply lookup_insert_eq. }
  assert (Hd2 : <[k4 := d]> (<[k2 := d]> s) !! keyword_args = Some d)
    by (rewrite lookup_insert_ne by exact Hk4; exact Hd1).
  unfold homodyne_strong_calc_rate, sbind, dict_copy, dict_read, dict_alloc,
    dict_update, lift, sbind.
  rewrite Hd. cbv beta iota zeta. fold k2. rewrite Hd1. cbv beta iota zeta.
  fold k4. rewrite Hd2. cbv beta iota zeta.
  change (fold_left _ [("ts", PyArray times); ("U1s", PyArray U1s);
                       ("U2s", PyArray U2s)]%string d)
    with (with_grid d times U1s U2s).
  rewrite (lookup_insert_ne _ keyword_args k2) by congruence.
  rewrite (lookup_insert_ne _ k4 k2) by congruence.
  rewrite lookup_insert_eq. cbv beta iota zeta.
  change (fold_left _ [("ts", PyArray times_2); ("U1s", PyArray U1s_2);
                       ("U2s", PyArray U2s_2)]%string d)
    with (with_grid d times_2 U1s_2 U2s_2).
  rewrite (lookup_insert_ne _ k2 k4) by congruence.
  rewrite (lookup_insert_ne _ keyword_args k4) by congruence.
  rewrite lookup_insert_eq. cbv beta iota zeta.
  change (fold_left _ [("ts", PyArray times_4); ("U1s", PyArray U1s_4);
                       ("U2s", PyArray U2s_4)]%string d)
    with (with_grid d times_4 U1s_4 U2s_4).
  fold s'.
  assert (L1 : s' !! keyword_args = Some (with_grid d times U1s U2s)).
  { unfold s'. rewrite (lookup_insert_ne _ k4 keyword_args) by congruence.
    rewrite (lookup_insert_ne _ k2 keyword_args) by congruence.
    apply lookup_insert_eq. }
  assert (L2 : s' !! k2 = Some (with_grid d times_2 U1s_2 U2s_2)).
  { unfold s'. rewrite (lookup_insert_ne _ k4 k2) by congruence.
    apply lookup_insert_eq. }
  assert (L4 : s' !! k4 = Some (with_grid d times_4 U1s_4 U2s_4)).
  { unfold s'. apply lookup_insert_eq. }
  rewrite L1. cbv beta iota zeta.
  destruct (integrator_fn (with_grid d times U1s U2s)) as [rhos|e];
    [|reflexivity].
  rewrite L2. cbv beta iota zeta.
  destruct (integrator_fn (with_grid d times_2 U1s_2 U2s_2)) as [rhos_2|e];
    [|reflexivity].
  rewrite L4. cbv beta iota zeta.
  destruct (integrator_fn (with_grid d times_4 U1s_4 U2s_4)) as [rhos_4|e];
    reflexivity.
Qed.

Lemma calc_rate_mutates (integrator_fn : kwargs -> result (list (list R)))
    (keyword_args : loc)
    (times U1s U2s times_2 U1s_2 U2s_2 times_4 U1s_4 U2s_4 : list R)
    (s : gmap loc (gmap string pyval)) (d : kwargs) :
  s !! keyword_args = Some d ->
  (homodyne_strong_calc_rate integrator_fn keyword_args
     times U1s U2s times_2 U1s_2 U2s_2 times_4 U1s_4 U2s_4 s).2
  !! keyword_args = Some (with_grid d times U1s U2s).
Proof.
  intros Hd. rewrite (calc_rate_store _ _ _ _ _ _ _ _ _ _ _ _ d Hd). simpl.
  assert (Hk2 : fresh (dom s) <> keyword_args)
    by (eapply fresh_dom_ne; exact Hd).
  assert (Hd1 : <[fresh (dom s) := d]> s !! keyword_args = Some d)
    by (rewrite lookup_insert_ne by exact Hk2; exact Hd).
  assert (Hk4 : fresh (dom (<[fresh (dom s) := d]> s)) <> keyword_args)
    by (eapply fresh_dom_ne; exact Hd1).
  rewrite lookup_insert_ne by exact Hk4.
  rewrite lookup_insert_ne by exact Hk2.
  apply lookup_insert_eq.
Qed.

Lemma fold_left_Rplus (l : list R) :
  forall a, fold_left Rplus l a = a + foldr Rplus 0 l.
Proof.
  induction l as [|x l IH]; intros a; simpl; [ring|].
  rewrite IH. ring.
Qed.

Lemma l1_norm_sum_abs (v : list R) : l1_norm v = sum_abs v.
Proof.
  unfold l1_norm, sum_abs. rewrite fold_left_Rplus, Rplus_0_l.
  induction v as [|x v IH]; simpl; [reflexivity|]. rewrite IH. reflexivity.
Qed.

Lemma getitem_last_ok (rhos : list (list R)) :
  rhos <> [] -> getitem_last rhos = Ok (List.last rhos []).
Proof. destruct rhos; [congruence | reflexivity]. Qed.

Lemma ufunc1_Rminus_vsub (u v : list R) :
  length u = length v -> ufunc1 Rminus u v = Ok (vsub u v).
Proof.
  intros H. rewrite (ufunc1_tab Rminus (length u)) by auto. reflexivity.
Qed.

(** C5.  [homodyne_strong_calc_rate] returns
    (log |X4_end - X2_end|_1 - log |X2_end - X_end|_1) / log 2, where X_end,
    X2_end and X4_end are the last rows of the trajectories that the
    integrator returns for the original, the doubled and the quadrupled
    grid, and |v|_1 is the sum of the absolute values of the components.
    Both distances are positive here, so that both logarithms are taken
    inside their domain: for a distance of zero numpy's [log] gives minus
    infinity and the rate is an infinity or NaN, values that the real numbers
    of this development do not have. *)
Theorem homodyne_strong_calc_rate_formula
    (integrator_fn : kwargs -> result (list (list R)))
    (keyword_args : loc)
    (times U1s U2s times_2 U1s_2 U2s_2 times_4 U1s_4 U2s_4 : list R)
    (s : gmap loc (gmap string pyval)) (d : kwargs)
    (rhos rhos_2 rhos_4 : list (list R)) :
  s !! keyword_args = Some d ->
  integrator_fn (with_grid d times U1s U2s) = Ok rhos ->
  integrator_fn (with_grid d times_2 U1s_2 U2s_2) = Ok rhos_2 ->
  integrator_fn (with_grid d times_4 U1s_4 U2s_4) = Ok rhos_4 ->
  rhos <> [] -> rhos_2 <> [] -> rhos_4 <> [] ->
  length (List.last rhos_4 []) = length (List.last rhos_2 []) ->
  length (List.last rhos_2 []) = length (List.last rhos []) ->
  let X_end := List.last rhos [] in
  let X2_end := List.last rhos_2 [] in
  let X4_end := List.last rhos_4 [] in
  0 < sum_abs (vsub X4_end X2_end) ->
  0 < sum_abs (vsub X2_end X_end) ->
  (homodyne_strong_calc_rate integrator_fn keyword_args
     times U1s U2s times_2 U1s_2 U2s_2 times_4 U1s_4 U2s_4 s).1
  = Ok ((ln (sum_abs (vsub X4_end X2_end)) - ln (sum_abs (vsub X2_end X_end)))
        / ln 2).
Proof.
  intros Hd E1 E2 E4 N1 N2 N4 L42 L21 X_end X2_end X4_end P42 P21.
  rewrite (calc_rate_store _ _ _ _ _ _ _ _ _ _ _ _ d Hd). simpl fst.
  rewrite E1, bind_Ok, E2, bind_Ok, E4, bind_Ok.
  rewrite (getitem_last_ok rhos_4), bind_Ok by assumption.
  rewrite (getitem_last_ok rhos_2), bind_Ok by assumption.
  fold X2_end X4_end.
  rewrite (ufunc1_Rminus_vsub X4_end X2_end), bind_Ok by exact L42.
  rewrite bind_Ok.
  rewrite (getitem_last_ok rhos), bind_Ok by assumption.
  fold X_end X2_end.
  rewrite (ufunc1_Rminus_vsub X2_end X_end), bind_Ok by exact L21.
  rewrite !l1_norm_sum_abs. reflexivity.
Qed.

(** ** The ensemble driver *)

Lemma grid_convergence_shares_dict (prep : kwargs)
    (randn : nat -> nat -> nat -> ndarray2)
    (integrator_fn : kwargs -> result (list (list R)))
    (times : list R) (U1s U2s : option ndarray2) (trajectories : nat)
    (s : gmap loc (gmap string pyval)) :
  let out := homodyne_strong_grid_convergence prep randn integrator_fn
               times U1s U2s trajectories s in
  out.2 = <[fresh (dom s) := prep]> s /\
  forall items, out.1 = Ok items ->
    Forall (fun w => wi_keyword_args w = fresh (dom s)) items.
Proof.
  unfold homodyne_strong_grid_convergence, sbind, dict_alloc, lift, sret.
  cbv beta iota zeta.
  destruct (match U1s with Some U => Ok U | None => _ end) as [U1s'|e];
    [|split; [reflexivity | intros items [=]]].
  destruct (match U2s with Some U => Ok U | None => _ end) as [U2s'|e];
    [|split; [reflexivity | intros items [=]]].
  destruct (double_increments times U1s' (Some U2s'))
    as [[[times_2 U1s_2] U2s_2]|e];
    [|split; [reflexivity | intros items [=]]].
  destruct (double_increments times_2 U1s_2 U2s_2)
    as [[[times_4 U1s_4] U2s_4]|e];
    [|split; [reflexivity | intros items [=]]].
  split; [reflexivity|]. intros items [= <-].
  apply Forall_map. apply Forall_forall.
  intros [[[[[U1 U2] U1_2] U2_2] U1_4] U2_4] _. reflexivity.
Qed.

(** C6.  On the grid [0,1,2,3,4] with one trajectory, whatever the
    integrator, [homodyne_strong_grid_convergence] returns one work item (the
    keyword arguments for [homodyne_strong_calc_rate]) and no rate: the
    integrator is never called. *)
Theorem grid_convergence_returns_work_items (prep : kwargs)
    (randn : nat -> nat -> nat -> ndarray2)
    (integrator_fn : kwargs -> result (list (list R))) :
  exists w,
    (homodyne_strong_grid_convergence prep randn integrator_fn example_times
       (Some example_U1s) (Some example_U2s) 1 ∅).1 = Ok [w] /\
    wi_integrator_fn w = integrator_fn /\
    wi_times w = [0; 1; 2; 3; 4] /\ wi_U1s w = [1; 1; 1; 1] /\
    wi_U2s w = [0; 0; 0; 0] /\
    wi_times_2 w = [0; 2; 4] /\ wi_times_4 w = [0; 4].
Proof. eexists. split; [reflexivity|]. repeat split. Qed.

Lemma homodyne_strong_calc_rate_formula_witness :
  example_store !! 1%positive = Some ∅ /\
  0 < sum_abs (vsub [3] [1]) /\ 0 < sum_abs (vsub [1] [0]) /\
  (homodyne_strong_calc_rate ratio_integrator 1%positive
     [0; 1; 2; 3; 4] [1; 1; 1; 1] [0; 0; 0; 0] [0; 2; 4] [1; 1] [0; 0]
     [0; 4] [1] [0] example_store).1
  = Ok ((ln (sum_abs (vsub [3] [1])) - ln (sum_abs (vsub [1] [0]))) / ln 2).
Proof.
  assert (H : example_store !! 1%positive = Some ∅) by reflexivity.
  assert (P42 : 0 < sum_abs (vsub [3] [1])).
  { simpl. unfold comp. simpl. rewrite Rabs_right; lra. }
  assert (P21 : 0 < sum_abs (vsub [1] [0])).
  { simpl. unfold comp. simpl. rewrite Rabs_right; lra. }
  split; [exact H|]. split; [exact P42|]. split; [exact P21|].
  apply (homodyne_strong_calc_rate_formula ratio_integrator 1%positive
           [0; 1; 2; 3; 4] [1; 1; 1; 1] [0; 0; 0; 0] [0; 2; 4] [1; 1] [0; 0]
           [0; 4] [1] [0] example_store ∅
           [[0]] [[1]] [[3]] H eq_refl eq_refl eq_refl);
    try discriminate; try reflexivity; assumption.
Defined.

(** ** The caller's initial condition *)

(** ** Triples *)

Lemma hoare_bind {S A B : Type} (P : S -> Prop) (m : st S A)
    (Q : A -> S -> Prop) (k : A -> st S B) (R' : B -> S -> Prop)
    (E : S -> Prop) :
  hoare P m Q E -> (forall a, hoare (Q a) (k a) R' E) ->
  hoare P (sbind m k) R' E.
Proof.
  intros Hm Hk s Hs. unfold sbind. specialize (Hm s Hs).
  destruct (m s) as [[a|e] s']; [apply Hk, Hm | exact Hm].
Qed.

Lemma hoare_preserving {S A : Type} (P : S -> Prop) (m : st S A) (E : S -> Prop) :
  store_preserving m -> (forall s, P s -> E s) ->
  hoare P m (fun _ s' => P s') E.
Proof.
  intros Hm HE s Hs. specialize (Hm s).
  destruct (m s) as [[a|e] s']; simpl in Hm; subst s'; auto.
Qed.

Lemma hoare_bind_preserving {S A B : Type} (P : S -> Prop) (m : st S A)
    (k : A -> st S B) (R' : B -> S -> Prop) (E : S -> Prop) :
  store_preserving m -> (forall s, P s -> E s) ->
  (forall a, hoare P (k a) R' E) ->
  hoare P (sbind m k) R' E.
Proof.
  intros Hm HE Hk. apply (hoare_bind P m (fun _ s' => P s')); [|exact Hk].
  apply hoare_preserving; assumption.
Qed.

Lemma hoare_sfoldM {S A B : Type} (I : A -> S -> Prop) (E : S -> Prop)
    (f : A -> B -> st S A) (l : list B) :
  (forall a b, hoare (I a) (f a b) I E) ->
  forall a, hoare (I a) (sfoldM f l a) I E.
Proof.
  intros Hf. induction l as [|b l IH]; intros a; simpl.
  - intros s Hs. exact Hs.
  - apply (hoare_bind _ _ I); [apply Hf | exact IH].
Qed.

(** ** The heap *)

Lemma frame_refl (h : heap) : frame h h.
Proof. intros l o H. exact H. Qed.

Lemma frame_alloc (h s : heap) (o : pyobj) :
  frame h s -> frame h (<[fresh (dom s) := o]> s).
Proof.
  intros Hf l o' Hl. rewrite lookup_insert_ne; [apply Hf, Hl|].
  eapply fresh_dom_ne. apply Hf, Hl.
Qed.

Lemma frame_fresh (h s : heap) : frame h s -> h !! fresh (dom s) = None.
Proof.
  intros Hf. destruct (h !! fresh (dom s)) as [o|] eqn:E; [|reflexivity].
  apply Hf in E. rewrite fresh_dom_None in E. discriminate.
Qed.

Lemma store_preserving_read_array1 (l : loc) : store_preserving (read_array1 l).
Proof.
  intros s. unfold read_array1. destruct (s !! l) as [[| |]|]; reflexivity.
Qed.

Lemma store_preserving_rows_of (X : loc) : store_preserving (rows_of X).
Proof.
  intros s. unfold rows_of. destruct (s !! X) as [[|rs|ls]|]; try reflexivity.
  destruct (mapM _ ls); reflexivity.
Qed.

Lemma store_preserving_last_row (X : loc) : store_preserving (last_row X).
Proof.
  apply store_preserving_sbind; [apply store_preserving_rows_of|].
  intros rs. apply store_preserving_sret.
Qed.

Lemma fresh_trajectory_frame (h : heap) (X : loc) (s : heap) :
  fresh_trajectory h X s -> frame h s.
Proof. intros H. apply H. Qed.

(** [alloc] of an array yields a fresh trajectory. *)
Lemma hoare_alloc_array2 (h : heap) (rs : list (list R)) :
  hoare (frame h) (alloc (ObjArray2 rs)) (fresh_trajectory h) (frame h).
Proof.
  intros s Hs. unfold alloc. simpl.
  split; [apply frame_alloc, Hs|]. split; [apply frame_fresh, Hs|].
  intros ls. rewrite lookup_insert_eq. discriminate.
Qed.

Lemma hoare_np_array_of_list1 (h : heap) (X0 : loc) :
  hoare (frame h) (np_array_of_list1 X0) (fresh_trajectory h) (frame h).
Proof.
  apply hoare_bind_preserving; [apply store_preserving_read_array1 | auto |].
  intros v. apply hoare_alloc_array2.
Qed.

Lemma hoare_list_of_np_array (h : heap) (X0 : loc) :
  hoare (frame h) (list_of_np_array X0) (fresh_trajectory h) (frame h).
Proof.
  apply hoare_bind_preserving; [apply store_preserving_read_array1 | auto |].
  intros v s Hs. unfold sbind, alloc. simpl.
  set (a := fresh (dom s)). set (s1 := <[a := ObjArray1 v]> s).
  assert (Hs1 : frame h s1) by (apply frame_alloc, Hs).
  split; [apply frame_alloc, Hs1|]. split; [apply frame_fresh, Hs1|].
  intros ls. rewrite lookup_insert_eq. intros [= <-].
  constructor; [apply frame_fresh, Hs | constructor].
Qed.

Lemma hoare_np_vstack (h : heap) (X : loc) (row : list R) :
  hoare (fresh_trajectory h X) (np_vstack X row) (fresh_trajectory h) (frame h).
Proof.
  apply hoare_bind_preserving;
    [apply store_preserving_rows_of | apply fresh_trajectory_frame |].
  intros rs.
  apply hoare_bind_preserving;
    [apply store_preserving_lift | apply fresh_trajectory_frame |].
  intros rs' s Hs. apply hoare_alloc_array2. apply Hs.
Qed.

Lemma hoare_list_append (h : heap) (X : loc) (row : list R) :
  hoare (fresh_trajectory h X) (list_append X row) (fresh_trajectory h) (frame h).
Proof.
  intros s (Hf & HX & Hls). unfold list_append, sbind, alloc. simpl.
  set (r := fresh (dom s)). set (s1 := <[r := ObjArray1 row]> s).
  assert (Hs1 : frame h s1) by (apply frame_alloc, Hf).
  assert (Hr : h !! r = None) by (apply frame_fresh, Hf).
  destruct (s1 !! X) as [[| |ls]|] eqn:EX; try exact Hs1.
  assert (HrX : r <> X).
  { intros ->. unfold s1 in EX. rewrite lookup_insert_eq in EX. discriminate. }
  split; [|split].
  - intros l o Hl. rewrite lookup_insert_ne; [apply Hs1, Hl|].
    intros <-. rewrite HX in Hl. discriminate.
  - exact HX.
  - intros ls'. rewrite lookup_insert_eq. intros [= <-].
    apply Forall_app. split.
    + apply Hls. unfold s1 in EX. rewrite lookup_insert_ne in EX by exact HrX.
      exact EX.
    + constructor; [exact Hr | constructor].
Qed.

(** A loop that reads the last row, computes the next one and pushes it. *)
Lemma hoare_push_loop {I : Type} (h : heap)
    (push : loc -> list R -> st heap loc)
    (row : list R -> I -> result (list R)) (inputs : list I) (X : loc) :
  (forall X r, hoare (fresh_trajectory h X) (push X r)
                 (fresh_trajectory h) (frame h)) ->
  hoare (fresh_trajectory h X)
    (sfoldM (fun X i => do* Xl := last_row X in
                        do* r := lift (row Xl i) in push X r) inputs X)
    (fresh_trajectory h) (frame h).
Proof.
  intros Hpush. apply hoare_sfoldM. intros X' i.
  apply hoare_bind_preserving;
    [apply store_preserving_last_row | apply fresh_trajectory_frame |].
  intros Xl.
  apply hoare_bind_preserving;
    [apply store_preserving_lift | apply fresh_trajectory_frame |].
  intros r. apply Hpush.
Qed.

Lemma sfoldM_ext {S A B : Type} (f g : A -> B -> st S A) (l : list B) :
  (forall a b s, f a b s = g a b s) ->
  forall a s, sfoldM f l a s = sfoldM g l a s.
Proof.
  intros H. induction l as [|b l IH]; intros a s; simpl; [reflexivity|].
  unfold sbind. rewrite H. destruct (g a b s) as [[a'|e] s']; auto.
Qed.

Lemma hoare_ext {S A : Type} (P : S -> Prop) (m m' : st S A)
    (Q : A -> S -> Prop) (E : S -> Prop) :
  (forall s, m s = m' s) -> hoare P m' Q E -> hoare P m Q E.
Proof. intros H Hm s Hs. rewrite H. apply Hm, Hs. Qed.

Lemma hoare_euler_h (h : heap) (a b : list R -> R -> list R) (X0 : loc)
    (ts Us : list R) :
  hoare (frame h) (euler_h a b X0 ts Us) (fresh_trajectory h) (frame h).
Proof.
  unfold euler_h.
  apply hoare_bind_preserving; [apply store_preserving_lift | auto |].
  intros dWs. eapply hoare_bind; [apply hoare_np_array_of_list1|].
  intros X. eapply hoare_ext;
    [|apply (hoare_push_loop h np_vstack
               (fun Xl '(t, dt, dW) => euler_row (a Xl t) (b Xl t) Xl dt dW));
      apply hoare_np_vstack].
  intros s. apply sfoldM_ext. intros X' [[t dt] dW] s'. reflexivity.
Qed.

Lemma hoare_meas_euler_h (h : heap) (a b : list R -> R -> list R)
    (dW_fn : R -> R -> list R -> R -> R) (X0 : loc) (ts dMs : list R) :
  hoare (frame h) (meas_euler_h a b dW_fn X0 ts dMs)
    (fresh_trajectory h) (frame h).
Proof.
  unfold meas_euler_h.
  eapply hoare_bind; [apply hoare_np_array_of_list1|].
  intros X. eapply hoare_ext;
    [|apply (hoare_push_loop h np_vstack
               (fun Xl '(t, dt, dM) =>
                  euler_row (a Xl t) (b Xl t) Xl dt (dW_fn dM dt Xl t)));
      apply hoare_np_vstack].
  intros s. apply sfoldM_ext. intros X' [[t dt] dM] s'. reflexivity.
Qed.

Lemma hoare_milstein_h (h : heap) (a b c : list R -> R -> list R) (X0 : loc)
    (ts Us : list R) :
  hoare (frame h) (milstein_h a b c X0 ts Us) (fresh_trajectory h) (frame h).
Proof.
  unfold milstein_h.
  apply hoare_bind_preserving; [apply store_preserving_lift | auto |].
  intros dWs. eapply hoare_bind; [apply hoare_np_array_of_list1|].
  intros X. eapply hoare_ext;
    [|apply (hoare_push_loop h np_vstack
               (fun Xl '(t, dt, dW) =>
                  milstein_row (a Xl t) (b Xl t) (c Xl t) Xl dt dW));
      apply hoare_np_vstack].
  intros s. apply sfoldM_ext. intros X' [[t dt] dW] s'. reflexivity.
Qed.

Lemma hoare_meas_milstein_h (h : heap) (a b c : list R -> R -> list R)
    (dW_fn : R -> R -> list R -> R -> R) (X0 : loc) (ts dMs : list R) :
  hoare (frame h) (meas_milstein_h a b c dW_fn X0 ts dMs)
    (fresh_trajectory h) (frame h).
Proof.
  unfold meas_milstein_h.
  eapply hoare_bind; [apply hoare_np_array_of_list1|].
  intros X. eapply hoare_ext;
    [|apply (hoare_push_loop h np_vstack
               (fun Xl '(t, dt, dM) =>
                  milstein_row (a Xl t) (b Xl t) (c Xl t) Xl dt
                    (dW_fn dM dt Xl t)));
      apply hoare_np_vstack].
  intros s. apply sfoldM_ext. intros X' [[t dt] dM] s'. reflexivity.
Qed.

Lemma hoare_time_ind_taylor_1_5_h (h : heap) (c : taylor_coeffs) (X0 : loc)
    (ts U1s U2s : list R) :
  hoare (frame h) (time_ind_taylor_1_5_h c X0 ts U1s U2s)
    (fresh_trajectory h) (frame h).
Proof.
  unfold time_ind_taylor_1_5_h.
  apply hoare_bind_preserving; [apply store_preserving_lift | auto |].
  intros dWs.
  apply hoare_bind_preserving; [apply store_preserving_lift | auto |].
  intros z1.
  apply hoare_bind_preserving; [apply store_preserving_lift | auto |].
  intros z2.
  apply hoare_bind_preserving; [apply store_preserving_lift | auto |].
  intros z3. cbv zeta.
  eapply hoare_bind; [apply hoare_list_of_np_array|].
  intros X. eapply hoare_ext;
    [|apply (hoare_push_loop h np_vstack
               (fun Xl (i : R * R * R * R) =>
                  let '(t, dt, dW, dZ) := i in taylor_1_5_row c Xl dt dW dZ));
      apply hoare_np_vstack].
  intros s. apply sfoldM_ext. intros X' [[[t dt] dW] dZ] s'. reflexivity.
Qed.

Lemma hoare_faulty_milstein_h (h : heap) (a b c : list R -> R -> list R)
    (X0 : loc) (ts Us : list R) :
  hoare (frame h) (faulty_milstein_h a b c X0 ts Us)
    (fresh_trajectory h) (frame h).
Proof.
  unfold faulty_milstein_h.
  apply hoare_bind_preserving; [apply store_preserving_lift | auto |].
  intros dWs. eapply hoare_bind; [apply hoare_list_of_np_array|].
  intros X. eapply hoare_ext;
    [|apply (hoare_push_loop h list_append
               (fun Xl '(t, dt, dW) =>
                  faulty_milstein_row (a Xl t) (b Xl t) (c Xl t) Xl dt dW));
      apply hoare_list_append].
  intros s. apply sfoldM_ext. intros X' [[t dt] dW] s'. reflexivity.
Qed.

Lemma hoare_result_apart_from (h : heap) (X0 : loc) (v : pyobj)
    (m : st heap loc) :
  h !! X0 = Some v ->
  hoare (frame h) m (fresh_trajectory h) (frame h) ->
  result_apart_from h X0 (m h).
Proof.
  intros HX0 Hm. specialize (Hm h (frame_refl h)). unfold result_apart_from.
  destruct (m h) as [[X|e] s']; simpl.
  - destruct Hm as (Hf & HX & Hls).
    assert (Hne : X <> X0) by (intros ->; rewrite HX in HX0; discriminate).
    split; [rewrite HX0; apply Hf, HX0|]. split; [exact Hf|].
    intros X' [= <-]. split; [exact Hne|]. split; [exact HX|]. split.
    + intros o. rewrite lookup_insert_ne by exact Hne.
      rewrite HX0. apply Hf, HX0.
    + intros ls Hl. eapply Forall_impl; [apply Hls, Hl|].
      intros l Hnone. split; [|exact Hnone].
      intros ->. rewrite Hnone in HX0. discriminate.
  - split; [rewrite HX0; apply Hm, HX0|]. split; [exact Hm|].
    intros X [=].
Qed.

(** C9.  An integrator called with the array [X0] leaves [X0], and every
    other object the caller holds, as it was; the trajectory it returns is a
    new object, and so is each of its rows, so nothing done to the result
    reaches [X0]. *)
Theorem integrators_do_not_touch_X0 (h : heap) (X0 : loc) (x0 : list R)
    (a b c : list R -> R -> list R) (tc : taylor_coeffs)
    (dW_fn : R -> R -> list R -> R -> R) (ts Us U2s dMs : list R) :
  h !! X0 = Some (ObjArray1 x0) ->
  result_apart_from h X0 (euler_h a b X0 ts Us h) /\
  result_apart_from h X0 (meas_euler_h a b dW_fn X0 ts dMs h) /\
  result_apart_from h X0 (milstein_h a b c X0 ts Us h) /\
  result_apart_from h X0 (meas_milstein_h a b c dW_fn X0 ts dMs h) /\
  result_apart_from h X0 (time_ind_taylor_1_5_h tc X0 ts Us U2s h) /\
  result_apart_from h X0 (faulty_milstein_h a b c X0 ts Us h).
Proof.
  intros HX0.
  pose proof (fun m => hoare_result_apart_from h X0 _ m HX0) as Hm.
  split; [apply Hm, hoare_euler_h|].
  split; [apply Hm, hoare_meas_euler_h|].
  split; [apply Hm, hoare_milstein_h|].
  split; [apply Hm, hoare_meas_milstein_h|].
  split; [apply Hm, hoare_time_ind_taylor_1_5_h|].
  apply Hm, hoare_faulty_milstein_h.
Qed.

Lemma integrators_do_not_touch_X0_witness :
  example_heap !! 1%positive = Some (ObjArray1 [1]) /\
  (exists X, (euler_h coeff_zero coeff_id 1%positive [0; 1] [0] example_heap).1
             = Ok X) /\
  result_apart_from example_heap 1%positive
    (euler_h coeff_zero coeff_id 1%positive [0; 1] [0] example_heap).
Proof.
  assert (H : example_heap !! 1%positive = Some (ObjArray1 [1]))
    by reflexivity.
  split; [exact H|]. split; [eexists; reflexivity|].
  exact (proj1 (integrators_do_not_touch_X0 example_heap 1%positive [1]
                  coeff_zero coeff_id coeff_two example_taylor_coeffs
                  (fun dM _ _ _ => dM) [0; 1] [0] [0] [0] H)).
Defined.

(** ** The store-passing integrators compute the same trajectories *)

Lemma simulates_weaken (Rel Rel' : heap -> loc -> list (list R) -> Prop)
    (p : result (list (list R))) (out : result loc * heap) :
  (forall s X rs, Rel s X rs -> Rel' s X rs) ->
  simulates Rel p out -> simulates Rel' p out.
Proof.
  intros H. unfold simulates. destruct p as [rs|e]; [|auto].
  intros (X & E & HR). exists X. auto.
Qed.

Lemma mapM_read_arrays (h : heap) (ls : list loc) (rs : list (list R)) :
  Forall2 (fun l r => h !! l = Some (ObjArray1 r)) ls rs ->
  mapM (fun l => match h !! l with
                 | Some (ObjArray1 v) => Some v
                 | _ => None
                 end) ls = Some rs.
Proof.
  induction 1 as [|l r ls rs Hl _ IH]; [reflexivity|].
  simpl. rewrite Hl. simpl. rewrite IH. reflexivity.
Qed.

Lemma list_holds_holds (h : heap) (X : loc) (rs : list (list R)) :
  list_holds h X rs -> holds h X rs.
Proof.
  intros (ls & HX & Hrs). unfold holds, rows_of.
  rewrite HX, (mapM_read_arrays h ls rs Hrs). reflexivity.
Qed.

Lemma last_row_holds (h : heap) (X : loc) (rs : list (list R)) :
  holds h X rs -> last_row X h = (Ok (List.last rs []), h).
Proof. intros H. unfold last_row, sbind. rewrite H. reflexivity. Qed.

Lemma np_vstack_simulates (h : heap) (X : loc) (rs : list (list R)) (r : list R) :
  holds h X rs -> simulates holds (vstack rs r) (np_vstack X r h).
Proof.
  intros H. unfold np_vstack, sbind, lift. rewrite H.
  destruct (vstack rs r) as [rs'|e]; simpl; [|reflexivity].
  eexists. split; [reflexivity|].
  unfold holds, rows_of. rewrite lookup_insert_eq. reflexivity.
Qed.

Lemma list_append_simulates (h : heap) (X : loc) (rs : list (list R)) (r : list R) :
  list_holds h X rs ->
  simulates list_holds (Ok (rs ++ [r])) (list_append X r h).
Proof.
  intros (ls & HX & Hrs). unfold list_append, sbind, alloc. simpl.
  set (a := fresh (dom h)).
  assert (HaX : a <> X) by (eapply fresh_dom_ne; exact HX).
  rewrite lookup_insert_ne by exact HaX. rewrite HX. simpl.
  exists X. split; [reflexivity|].
  exists (ls ++ [a]). split; [apply lookup_insert_eq|].
  apply Forall2_app.
  - eapply Forall2_impl; [exact Hrs|]. intros l v Hl. simpl in Hl.
    rewrite lookup_insert_ne by (intros <-; rewrite HX in Hl; discriminate).
    rewrite lookup_insert_ne by (eapply fresh_dom_ne; exact Hl).
    exact Hl.
  - constructor; [|constructor].
    rewrite lookup_insert_ne by (intros E; apply HaX; symmetry; exact E).
    apply lookup_insert_eq.
Qed.

Lemma push_loop_simulates {I : Type}
    (Rel : heap -> loc -> list (list R) -> Prop)
    (push_h : loc -> list R -> st heap loc)
    (push_p : list (list R) -> list R -> result (list (list R)))
    (row : list R -> I -> result (list R)) :
  (forall s X rs, Rel s X rs -> holds s X rs) ->
  (forall s X rs r, Rel s X rs -> simulates Rel (push_p rs r) (push_h X r s)) ->
  forall inputs s X rs, Rel s X rs ->
    simulates Rel
      (foldM (fun X i => let* r := row (List.last X []) i in push_p X r)
         inputs rs)
      (sfoldM (fun X i => do* Xl := last_row X in
                          do* r := lift (row Xl i) in push_h X r)
         inputs X s).
Proof.
  intros Hholds Hpush. induction inputs as [|i inputs IH]; intros s X rs HR.
  - simpl. exists X. split; [reflexivity | exact HR].
  - assert (Ebody : (do* Xl := last_row X in
                      do* r := lift (row Xl i) in push_h X r) s
                     = match row (List.last rs []) i with
                       | Ok r => push_h X r s
                       | Raise e => (Raise e, s)
                       end).
    { rewrite (sbind_Ok _ _ s s (List.last rs []))
        by (apply last_row_holds; auto).
      unfold sbind, lift. destruct (row (List.last rs []) i); reflexivity. }
    cbn [foldM sfoldM]. unfold sbind at 1. rewrite Ebody.
    destruct (row (List.last rs []) i) as [r|e]; [|reflexivity].
    rewrite bind_Ok.
    specialize (Hpush s X rs r HR). unfold simulates in Hpush.
    destruct (push_p rs r) as [rs'|e].
    + destruct Hpush as (X' & E & HR').
      destruct (push_h X r s) as [res s'] eqn:Ep. simpl in E, HR'. subst res.
      rewrite bind_Ok. apply IH, HR'.
    + destruct (push_h X r s) as [res s'] eqn:Ep. simpl in Hpush. subst res.
      reflexivity.
Qed.

Lemma simulates_bind_lift {A : Type}
    (Rel : heap -> loc -> list (list R) -> Prop) (m : result A)
    (p : A -> result (list (list R))) (k : A -> st heap loc) (h : heap) :
  (forall x, simulates Rel (p x) (k x h)) ->
  simulates Rel (let* x := m in p x) (sbind (lift m) k h).
Proof.
  intros H. unfold sbind, lift. destruct m as [x|e]; [apply H | reflexivity].
Qed.

Lemma np_array_of_list1_holds (h : heap) (X0 : loc) (x0 : list R) :
  h !! X0 = Some (ObjArray1 x0) ->
  exists X s, np_array_of_list1 X0 h = (Ok X, s) /\ holds s X [x0].
Proof.
  intros H. unfold np_array_of_list1, sbind, read_array1, alloc. rewrite H.
  eexists _, _. split; [reflexivity|].
  unfold holds, rows_of. rewrite lookup_insert_eq. reflexivity.
Qed.

Lemma list_of_np_array_holds (h : heap) (X0 : loc) (x0 : list R) :
  h !! X0 = Some (ObjArray1 x0) ->
  exists X s, list_of_np_array X0 h = (Ok X, s) /\ list_holds s X [x0].
Proof.
  intros H. unfold list_of_np_array, sbind, read_array1, alloc. rewrite H.
  eexists _, _. split; [reflexivity|].
  eexists. split; [apply lookup_insert_eq|].
  constructor; [|constructor].
  rewrite lookup_insert_ne by (eapply fresh_dom_ne; apply lookup_insert_eq).
  apply lookup_insert_eq.
Qed.

(** [X = np.array([X0])] followed by a loop of [np.vstack]. *)
Lemma array_vstack_loop_simulates {I : Type} (h : heap) (X0 : loc)
    (x0 : list R) (row : list R -> I -> result (list R)) (inputs : list I) :
  h !! X0 = Some (ObjArray1 x0) ->
  simulates holds
    (foldM (fun X i => let* r := row (List.last X []) i in vstack X r)
       inputs [x0])
    (sbind (np_array_of_list1 X0)
       (sfoldM (fun X i => do* Xl := last_row X in
                           do* r := lift (row Xl i) in np_vstack X r) inputs)
       h).
Proof.
  intros H. destruct (np_array_of_list1_holds h X0 x0 H) as (X & s & E & Hh).
  rewrite (sbind_Ok _ _ h s X E).
  apply (push_loop_simulates holds np_vstack vstack row); auto.
  intros s' X' rs r HR. apply np_vstack_simulates, HR.
Qed.

(** [Xs = [np.array(X0)]] followed by a loop of [np.vstack]. *)
Lemma list_vstack_loop_simulates {I : Type} (h : heap) (X0 : loc)
    (x0 : list R) (row : list R -> I -> result (list R)) (inputs : list I) :
  h !! X0 = Some (ObjArray1 x0) ->
  simulates holds
    (foldM (fun X i => let* r := row (List.last X []) i in vstack X r)
       inputs [x0])
    (sbind (list_of_np_array X0)
       (sfoldM (fun X i => do* Xl := last_row X in
                           do* r := lift (row Xl i) in np_vstack X r) inputs)
       h).
Proof.
  intros H. destruct (list_of_np_array_holds h X0 x0 H) as (X & s & E & Hh).
  rewrite (sbind_Ok _ _ h s X E).
  apply (push_loop_simulates holds np_vstack vstack row); auto.
  - intros s' X' rs r HR. apply np_vstack_simulates, HR.
  - apply list_holds_holds, Hh.
Qed.

(** [X = [np.array(X0)]] followed by a loop of [X.append]. *)
Lemma list_append_loop_simulates {I : Type} (h : heap) (X0 : loc)
    (x0 : list R) (row : list R -> I -> result (list R)) (inputs : list I) :
  h !! X0 = Some (ObjArray1 x0) ->
  simulates holds
    (foldM (fun X i => let* r := row (List.last X []) i in Ok (X ++ [r]))
       inputs [x0])
    (sbind (list_of_np_array X0)
       (sfoldM (fun X i => do* Xl := last_row X in
                           do* r := lift (row Xl i) in list_append X r) inputs)
       h).
Proof.
  intros H. destruct (list_of_np_array_holds h X0 x0 H) as (X & s & E & Hh).
  rewrite (sbind_Ok _ _ h s X E).
  apply (simulates_weaken list_holds holds); [apply list_holds_holds|].
  apply (push_loop_simulates list_holds list_append
           (fun X r => Ok (X ++ [r])) row); auto.
  - apply list_holds_holds.
  - intros s' X' rs r HR. apply list_append_simulates, HR.
Qed.

Lemma simulates_ext (Rel : heap -> loc -> list (list R) -> Prop)
    (p p' : result (list (list R))) (out out' : result loc * heap) :
  p = p' -> out = out' -> simulates Rel p' out' -> simulates Rel p out.
Proof. intros -> ->. auto. Qed.

Lemma sbind_ext {S A B : Type} (m : st S A) (k k' : A -> st S B) (s : S) :
  (forall a s', k a s' = k' a s') -> sbind m k s = sbind m k' s.
Proof.
  intros H. unfold sbind. destruct (m s) as [[a|e] s']; [apply H | reflexivity].
Qed.

(** Every store-passing integrator returns an object that holds the
    trajectory of its value-level counterpart, or raises as it does. *)
Theorem store_integrators_simulate (h : heap) (X0 : loc) (x0 : list R)
    (a b c : list R -> R -> list R) (tc : taylor_coeffs)
    (dW_fn : R -> R -> list R -> R -> R) (ts Us U2s dMs : list R) :
  h !! X0 = Some (ObjArray1 x0) ->
  simulates holds (euler a b x0 ts Us) (euler_h a b X0 ts Us h) /\
  simulates holds (meas_euler a b dW_fn x0 ts dMs)
    (meas_euler_h a b dW_fn X0 ts dMs h) /\
  simulates holds (milstein a b c x0 ts Us) (milstein_h a b c X0 ts Us h) /\
  simulates holds (meas_milstein a b c dW_fn x0 ts dMs)
    (meas_milstein_h a b c dW_fn X0 ts dMs h) /\
  simulates holds (time_ind_taylor_1_5 tc x0 ts Us U2s)
    (time_ind_taylor_1_5_h tc X0 ts Us U2s h) /\
  simulates holds (faulty_milstein a b c x0 ts Us)
    (faulty_milstein_h a b c X0 ts Us h).
Proof.
  intros H. split; [|split; [|split; [|split; [|split]]]].
  - unfold euler, euler_h. apply simulates_bind_lift. intros dWs.
    eapply simulates_ext;
      [| |apply (array_vstack_loop_simulates h X0 x0
                   (fun Xl '(t, dt, dW) =>
                      euler_row (a Xl t) (b Xl t) Xl dt dW)); exact H].
    + apply foldM_ext. intros X [[t dt] dW]. reflexivity.
    + apply sbind_ext. intros X s. apply sfoldM_ext.
      intros X' [[t dt] dW] s'. reflexivity.
  - unfold meas_euler, meas_euler_h.
    eapply simulates_ext;
      [| |apply (array_vstack_loop_simulates h X0 x0
                   (fun Xl '(t, dt, dM) =>
                      euler_row (a Xl t) (b Xl t) Xl dt (dW_fn dM dt Xl t)));
          exact H].
    + apply foldM_ext. intros X [[t dt] dM]. reflexivity.
    + apply sbind_ext. intros X s. apply sfoldM_ext.
      intros X' [[t dt] dM] s'. reflexivity.
  - unfold milstein, milstein_h. apply simulates_bind_lift. intros dWs.
    eapply simulates_ext;
      [| |apply (array_vstack_loop_simulates h X0 x0
                   (fun Xl '(t, dt, dW) =>
                      milstein_row (a Xl t) (b Xl t) (c Xl t) Xl dt dW));
          exact H].
    + apply foldM_ext. intros X [[t dt] dW]. reflexivity.
    + apply sbind_ext. intros X s. apply sfoldM_ext.
      intros X' [[t dt] dW] s'. reflexivity.
  - unfold meas_milstein, meas_milstein_h.
    eapply simulates_ext;
      [| |apply (array_vstack_loop_simulates h X0 x0
                   (fun Xl '(t, dt, dM) =>
                      milstein_row (a Xl t) (b Xl t) (c Xl t) Xl dt
                        (dW_fn dM dt Xl t)));
          exact H].
    + apply foldM_ext. intros X [[t dt] dM]. reflexivity.
    + apply sbind_ext. intros X s. apply sfoldM_ext.
      intros X' [[t dt] dM] s'. reflexivity.
  - unfold time_ind_taylor_1_5, time_ind_taylor_1_5_h.
    apply simulates_bind_lift. intros dWs.
    apply simulates_bind_lift. intros z1.
    apply simulates_bind_lift. intros z2.
    apply simulates_bind_lift. intros z3. cbv zeta.
    eapply simulates_ext;
      [| |apply (list_vstack_loop_simulates h X0 x0
                   (fun Xl (i : R * R * R * R) =>
                      let '(t, dt, dW, dZ) := i in
                      taylor_1_5_row tc Xl dt dW dZ));
          exact H].
    + apply foldM_ext. intros X [[[t dt] dW] dZ]. reflexivity.
    + apply sbind_ext. intros X s. apply sfoldM_ext.
      intros X' [[[t dt] dW] dZ] s'. reflexivity.
  - unfold faulty_milstein, faulty_milstein_h.
    apply simulates_bind_lift. intros dWs.
    eapply simulates_ext;
      [| |apply (list_append_loop_simulates h X0 x0
                   (fun Xl '(t, dt, dW) =>
                      faulty_milstein_row (a Xl t) (b Xl t) (c Xl t) Xl dt dW));
          exact H].
    + apply foldM_ext. intros X [[t dt] dW]. reflexivity.
    + apply sbind_ext. intros X s. apply sfoldM_ext.
      intros X' [[t dt] dW] s'. reflexivity.
Qed.

(** ** The L1 norm *)

Lemma sum_abs_nonneg (v : list R) : 0 <= sum_abs v.
Proof.
  induction v as [|x v IH]; simpl; [lra|]. pose proof (Rabs_pos x). lra.
Qed.

Lemma sum_abs_zero (v : list R) : sum_abs v = 0 <-> Forall (fun x => x = 0) v.
Proof.
  induction v as [|x v IH]; simpl.
  - split; [constructor | reflexivity].
  - pose proof (Rabs_pos x). pose proof (sum_abs_nonneg v). split.
    + intros H1. constructor.
      * destruct (Req_dec x 0) as [E|E]; [exact E|].
        apply Rabs_pos_lt in E. lra.
      * apply IH. lra.
    + intros Hall. inversion Hall as [|? ? Hx Hv]; subst.
      rewrite Rabs_R0. apply IH in Hv. lra.
Qed.

Lemma sum_abs_scale (v : list R) (s : R) :
  sum_abs (vmuls v s) = Rabs s * sum_abs v.
Proof.
  induction v as [|x v IH]; simpl; [ring|].
  fold (vmuls v s). rewrite IH, Rabs_mult. ring.
Qed.

Lemma sum_abs_zip_plus (u : list R) :
  forall v, sum_abs (zip_with Rplus u v) <= sum_abs u + sum_abs v.
Proof.
  induction u as [|x u IH]; intros [|y v]; simpl.
  - lra.
  - pose proof (Rabs_pos y). pose proof (sum_abs_nonneg v). lra.
  - pose proof (Rabs_pos x). pose proof (sum_abs_nonneg u). lra.
  - specialize (IH v). pose proof (Rabs_triang x y). lra.
Qed.

(** X1.  [l1_norm] is a norm on vectors: it is never negative, it is zero
    exactly for the vectors whose entries are all zero, it scales with the
    absolute value of a factor, and it obeys the triangle inequality. *)
Theorem l1_norm_is_a_norm (u v : list R) (s : R) :
  0 <= l1_norm u /\
  (l1_norm u = 0 <-> Forall (fun x => x = 0) u) /\
  l1_norm (vmuls u s) = Rabs s * l1_norm u /\
  l1_norm (zip_with Rplus u v) <= l1_norm u + l1_norm v.
Proof.
  rewrite !l1_norm_sum_abs.
  split; [apply sum_abs_nonneg|]. split; [apply sum_abs_zero|].
  split; [apply sum_abs_scale | apply sum_abs_zip_plus].
Qed.

(** ** Refinement: composition and the Wiener path *)

Lemma sqrt3_neq_0 : sqrt 3 <> 0.
Proof.
  intros E. assert (H : sqrt 3 * sqrt 3 = 3) by (apply sqrt_def; lra).
  rewrite E in H. lra.
Qed.

(** The outcome of [double_increments] on an even number [2k] of columns. *)
Lemma double_increments_even (times : list R) (U1s : ndarray2)
    (U2s : option ndarray2) (k : nat) :
  array2_wf U1s -> ncols U1s = (2 * k)%nat ->
  (forall V, U2s = Some V ->
     array2_wf V /\ nrows V = nrows U1s /\ ncols V = (2 * k)%nat) ->
  exists U1s' U2s',
    double_increments times U1s U2s = Ok (stride2 times, U1s', U2s') /\
    array2_wf U1s' /\ nrows U1s' = nrows U1s /\ ncols U1s' = k /\
    (forall r n, (r < nrows U1s)%nat -> (n < k)%nat ->
       aget U1s' r n
       = (aget U1s r (2 * n) + aget U1s r (2 * n + 1)) / sqrt 2) /\
    match U2s with
    | None => U2s' = None
    | Some V =>
        exists V', U2s' = Some V' /\ array2_wf V' /\
          nrows V' = nrows U1s /\ ncols V' = k /\
          forall r n, (r < nrows U1s)%nat -> (n < k)%nat ->
            aget V' r n
            = (sqrt 3 * (aget U1s r (2 * n) - aget U1s r (2 * n + 1))
               + aget V r (2 * n) + aget V r (2 * n + 1)) / (2 * sqrt 2)
    end.
Proof.
  intros Hwf Hc HV.
  pose proof (cols_even_wf _ Hwf) as He. pose proof (cols_odd_wf _ Hwf) as Ho.
  pose proof (ncols_even_double _ _ Hc) as Hce.
  pose proof (ncols_odd_double _ _ Hc) as Hco.
  destruct (ufunc2_spec Rplus (cols_even U1s) (cols_odd U1s))
    as (S1 & ES1 & WS1 & RS1 & CS1 & GS1); auto; [congruence|].
  rewrite Hce in CS1, GS1. simpl nrows in RS1, GS1.
  assert (HU1 : forall r n, (r < nrows U1s)%nat -> (n < k)%nat ->
            aget (amap (fun x => x / sqrt 2) S1) r n
            = (aget U1s r (2 * n) + aget U1s r (2 * n + 1)) / sqrt 2).
  { intros r n Hr Hn. rewrite aget_amap by (auto; lia).
    rewrite GS1, aget_even, aget_odd by assumption. reflexivity. }
  unfold double_increments. rewrite ES1, bind_Ok.
  destruct U2s as [V|].
  - destruct (HV V eq_refl) as (WV & RV & CV).
    pose proof (cols_even_wf _ WV) as HeV. pose proof (cols_odd_wf _ WV) as HoV.
    pose proof (ncols_even_double _ _ CV) as HceV.
    pose proof (ncols_odd_double _ _ CV) as HcoV.
    destruct (ufunc2_spec Rminus (cols_even U1s) (cols_odd U1s))
      as (D & ED & WD & RD & CD & GD); auto; [congruence|].
    rewrite Hce in CD, GD. simpl nrows in RD, GD.
    destruct (ufunc2_spec Rplus (amap (fun x => sqrt 3 * x) D) (cols_even V))
      as (A1 & EA & WA & RA & CA & GA);
      [apply amap_wf; assumption | assumption | simpl; congruence
      | simpl ncols at 1; simpl in HceV; simpl; congruence |].
    simpl nrows in RA, GA. simpl ncols in CA, GA.
    destruct (ufunc2_spec Rplus A1 (cols_odd V))
      as (B1 & EB & WB & RB & CB & GB);
      [assumption | assumption | simpl; congruence
      | simpl in HcoV; simpl; congruence |].
    rewrite ED, bind_Ok, EA, bind_Ok, EB, bind_Ok.
    eexists _, _. split; [reflexivity|].
    split; [apply amap_wf; assumption|].
    split; [simpl; congruence|]. split; [simpl; congruence|].
    split; [exact HU1|].
    eexists. split; [reflexivity|].
    split; [apply amap_wf; assumption|].
    split; [simpl; congruence|]. split; [simpl; congruence|].
    intros r n Hr Hn.
    rewrite aget_amap by (auto; congruence || lia).
    rewrite GB by (congruence || lia).
    rewrite GA by (congruence || lia).
    rewrite aget_amap by (auto; congruence || lia).
    rewrite GD by assumption.
    rewrite !aget_even, !aget_odd. reflexivity.
  - eexists _, _. split; [reflexivity|].
    split; [apply amap_wf; assumption|].
    split; [simpl; congruence|]. split; [simpl; congruence|].
    split; [exact HU1|]. reflexivity.
Qed.

(** X2.  Two refinements in a row, as the drivers perform them: for 4k
    intervals the second result keeps every fourth time and its noise is the
    sum of four neighbouring entries of the original noise, divided by 2. *)
Theorem double_increments_twice (times : list R) (U1s : ndarray2) (k : nat) :
  length times = S (4 * k) ->
  array2_wf U1s -> ncols U1s = (4 * k)%nat ->
  exists times_2 U1s_2 times_4 U1s_4,
    double_increments times U1s None = Ok (times_2, U1s_2, None) /\
    double_increments times_2 U1s_2 None = Ok (times_4, U1s_4, None) /\
    length times_4 = S k /\
    (forall n, (n <= k)%nat -> nth n times_4 0 = nth (4 * n) times 0) /\
    array2_wf U1s_4 /\ nrows U1s_4 = nrows U1s /\ ncols U1s_4 = k /\
    forall r n, (r < nrows U1s)%nat -> (n < k)%nat ->
      aget U1s_4 r n
      = (aget U1s r (4 * n) + aget U1s r (4 * n + 1)
         + aget U1s r (4 * n + 2) + aget U1s r (4 * n + 3)) / 2.
Proof.
  intros Ht Hwf Hc.
  assert (HN : forall (A : ndarray2) (m : nat) V, @None ndarray2 = Some V ->
            array2_wf V /\ nrows V = nrows A /\ ncols V = m)
    by (intros A m V [=]).
  destruct (double_increments_even times U1s None (2 * k) Hwf)
    as (U2 & o2 & E2 & W2 & R2 & C2 & G2 & ->); [lia | apply HN |].
  destruct (double_increments_even (stride2 times) U2 None k W2 C2)
    as (U4 & o4 & E4 & W4 & R4 & C4 & G4 & ->); [apply HN|].
  exists (stride2 times), U2, (stride2 (stride2 times)), U4.
  split; [exact E2|]. split; [exact E4|].
  split.
  { rewrite !length_stride2, Ht.
    replace (S (S (4 * k))) with (2 * S (2 * k))%nat by lia.
    rewrite Nat.div2_double.
    replace (S (S (2 * k))) with (2 * S k)%nat by lia.
    apply Nat.div2_double. }
  split.
  { intros n Hn. rewrite !nth_stride2. f_equal. lia. }
  split; [exact W4|]. split; [congruence|]. split; [exact C4|].
  intros r n Hr Hn. rewrite G4 by (congruence || lia).
  rewrite !G2 by lia.
  replace (2 * (2 * n))%nat with (4 * n)%nat by lia.
  replace (2 * (2 * n) + 1)%nat with (4 * n + 1)%nat by lia.
  replace (2 * (2 * n + 1))%nat with (4 * n + 2)%nat by lia.
  replace (4 * n + 2 + 1)%nat with (4 * n + 3)%nat by lia.
  pose proof sqrt2_neq_0 as Hs.
  assert (Hs2 : sqrt 2 * sqrt 2 = 2) by (apply sqrt_def; lra).
  set (s := sqrt 2) in *. rewrite <- Hs2. field. exact Hs.
Qed.

(** X3.  [double_increments] keeps the driving path.  On an evenly spaced
    grid of step dt, with dW = U1 sqrt(dt) and
    dZ = (U1 + U2/sqrt 3) sqrt(dt) dt / 2 as [time_ind_taylor_1_5] forms them,
    the refined grid has step 2 dt, its Wiener increment over a doubled
    interval is the sum of the two increments it covers, and its dZ is
    dZ(2n) + dZ(2n+1) + dW(2n) dt. *)
Theorem refinement_preserves_wiener_path (times : list R) (U1s V : ndarray2)
    (k : nat) (dt : R) :
  length times = S (2 * k) ->
  array2_wf U1s -> ncols U1s = (2 * k)%nat ->
  array2_wf V -> nrows V = nrows U1s -> ncols V = (2 * k)%nat ->
  0 <= dt ->
  (forall i, (i < 2 * k)%nat -> nth (S i) times 0 - nth i times 0 = dt) ->
  exists times' U1s' V',
    double_increments times U1s (Some V) = Ok (times', U1s', Some V') /\
    forall r n, (r < nrows U1s)%nat -> (n < k)%nat ->
      let u := nth r (rows U1s) [] in
      let v := nth r (rows V) [] in
      let u' := nth r (rows U1s') [] in
      let v' := nth r (rows V') [] in
      Delta_t times' n = 2 * dt /\
      Delta_W times' u' n
      = Delta_W times u (2 * n) + Delta_W times u (2 * n + 1) /\
      Delta_Z times' u' v' n
      = Delta_Z times u v (2 * n) + Delta_Z times u v (2 * n + 1)
        + Delta_W times u (2 * n) * dt.
Proof.
  intros Ht Hwf Hc HwfV HrV HcV Hdt Heven.
  destruct (double_increments_even times U1s (Some V) k Hwf Hc)
    as (U1s' & o & E & W' & R' & C' & G1 & V' & -> & WV' & RV' & CV' & G2).
  { intros V0 [= <-]. auto. }
  exists (stride2 times), U1s', V'. split; [exact E|].
  intros r n Hr Hn u v u' v'.
  assert (D0 : Delta_t times (2 * n) = dt) by (apply Heven; lia).
  assert (D1 : Delta_t times (2 * n + 1) = dt) by (apply Heven; lia).
  assert (D2 : Delta_t (stride2 times) n = 2 * dt).
  { unfold Delta_t in *. rewrite !nth_stride2.
    replace (2 * S n)%nat with (S (2 * n + 1)) by lia.
    replace (S (2 * n)) with (2 * n + 1)%nat in D0 by lia. lra. }
  split; [exact D2|].
  assert (Hs : sqrt (2 * dt) = sqrt 2 * sqrt dt) by (apply sqrt_mult; lra).
  pose proof sqrt2_neq_0 as H2. pose proof sqrt3_neq_0 as H3.
  unfold Delta_W, Delta_Z. rewrite D0, D1, D2, Hs.
  change (nth n u' 0) with (aget U1s' r n).
  change (nth n v' 0) with (aget V' r n).
  change (nth (2 * n) u 0) with (aget U1s r (2 * n)).
  change (nth (2 * n + 1) u 0) with (aget U1s r (2 * n + 1)).
  change (nth (2 * n) v 0) with (aget V r (2 * n)).
  change (nth (2 * n + 1) v 0) with (aget V r (2 * n + 1)).
  rewrite G1, G2 by assumption.
  split; field; auto.
Qed.

Lemma refinement_preserves_wiener_path_witness :
  (forall i, (i < 2 * 2)%nat ->
     nth (S i) example_times 0 - nth i example_times 0 = 1) /\
  exists times' U1s' V',
    double_increments example_times example_U1s (Some example_U2s)
    = Ok (times', U1s', Some V') /\
    Delta_W times' (nth 0 (rows U1s') []) 0
    = Delta_W example_times (nth 0 (rows example_U1s) []) 0
      + Delta_W example_times (nth 0 (rows example_U1s) []) 1.
Proof.
  assert (Hw1 : array2_wf example_U1s)
    by (split; [reflexivity | repeat constructor]).
  assert (Hw2 : array2_wf example_U2s)
    by (split; [reflexivity | repeat constructor]).
  assert (Hdt : 0 <= 1) by lra.
  assert (He : forall i, (i < 2 * 2)%nat ->
            nth (S i) example_times 0 - nth i example_times 0 = 1).
  { intros i Hi. destruct i as [|[|[|[|i]]]]; simpl; try lra. lia. }
  split; [exact He|].
  destruct (refinement_preserves_wiener_path example_times example_U1s
              example_U2s 2 1 eq_refl Hw1 eq_refl Hw2 eq_refl eq_refl Hdt He)
    as (t' & u' & v' & E & Hall).
  exists t', u', v'. split; [exact E|].
  exact (proj1 (proj2 (Hall 0%nat 0%nat (le_n 1) (le_S 1 1 (le_n 1))))).
Defined.

Lemma double_increments_twice_witness :
  array2_wf example_U1s /\
  exists (times_4 : list R) U1s_4,
    length times_4 = 2%nat /\ ncols U1s_4 = 1%nat /\
    aget U1s_4 0 0
    = (aget example_U1s 0 (4 * 0) + aget example_U1s 0 (4 * 0 + 1)
       + aget example_U1s 0 (4 * 0 + 2) + aget example_U1s 0 (4 * 0 + 3)) / 2.
Proof.
  assert (Hw1 : array2_wf example_U1s)
    by (split; [reflexivity | repeat constructor]).
  split; [exact Hw1|].
  destruct (double_increments_twice example_times example_U1s 1
              eq_refl Hw1 eq_refl)
    as (t2 & u2 & t4 & u4 & _ & _ & Hl & _ & _ & _ & Hc & Hg).
  exists t4, u4. split; [exact Hl|]. split; [exact Hc|].
  apply Hg; simpl; lia.
Defined.

(** ** Shapes of the returned trajectories *)

Lemma bind_Ok_inv {A B : Type} (m : result A) (k : A -> result B) (b : B) :
  bind m k = Ok b -> exists a, m = Ok a /\ k a = Ok b.
Proof. destruct m as [a|e]; simpl; [eauto | discriminate]. Qed.

Lemma vstack_Ok_inv (X : list (list R)) (r : list R) (X' : list (list R)) :
  vstack X r = Ok X' -> X' = X ++ [r] /\ length r = length (List.last X []).
Proof.
  unfold vstack. destruct (Nat.eqb_spec (length r) (length (List.last X []))).
  - intros [= <-]. auto.
  - discriminate.
Qed.

Lemma last_Forall {A : Type} (P : A -> Prop) (d : A) (l : list A) :
  l <> [] -> Forall P l -> P (List.last l d).
Proof.
  intros Hne Hall. destruct (exists_last Hne) as (l' & x & ->).
  rewrite last_last. apply Forall_app in Hall. destruct Hall as [_ Hx].
  inversion Hx. assumption.
Qed.

(** A loop of [np.vstack] keeps the array rectangular and adds one row per
    step, whatever the rows are computed from. *)
Lemma foldM_vstack_rectangular {I : Type} (n : nat)
    (row : list R -> I -> result (list R)) (inputs : list I) :
  forall X traj, X <> [] -> Forall (fun r => length r = n) X ->
    foldM (fun X i => let* r := row (List.last X []) i in vstack X r) inputs X
    = Ok traj ->
    Forall (fun r => length r = n) traj /\
    length traj = (length X + length inputs)%nat /\
    nth 0 traj [] = nth 0 X [].
Proof.
  induction inputs as [|i inputs IH]; intros X traj Hne Hall H.
  - simpl in H. injection H as <-. split; [exact Hall|]. split; [simpl; lia|].
    reflexivity.
  - simpl in H. apply bind_Ok_inv in H. destruct H as (X' & HX' & H).
    apply bind_Ok_inv in HX'. destruct HX' as (r & Hr & Hv).
    apply vstack_Ok_inv in Hv. destruct Hv as [-> Hlen].
    apply IH in H.
    + destruct H as (H1 & H2 & H3). split; [exact H1|]. split.
      * rewrite H2, length_app. simpl. lia.
      * rewrite H3. destruct X; [congruence | reflexivity].
    + destruct X; discriminate.
    + apply Forall_app. split; [exact Hall|]. constructor; [|constructor].
      rewrite Hlen. apply (last_Forall (fun r => length r = n)); assumption.
Qed.

Lemma vstack_loop_from_X0 {I : Type} (row : list R -> I -> result (list R))
    (inputs : list I) (X0 : list R) (traj : list (list R)) :
  foldM (fun X i => let* r := row (List.last X []) i in vstack X r)
    inputs [X0] = Ok traj ->
  rectangular_from X0 traj /\ length traj = S (length inputs).
Proof.
  intros H.
  apply (foldM_vstack_rectangular (length X0)) in H;
    [|discriminate | constructor; [reflexivity | constructor]].
  destruct H as (H1 & H2 & H3). split; [split; assumption | exact H2].
Qed.

Lemma vstack_loop_shape {I : Type} (row : list R -> I -> result (list R))
    (f : list (list R) -> I -> result (list (list R)))
    (inputs : list I) (X0 : list R) (traj : list (list R)) :
  foldM f inputs [X0] = Ok traj ->
  (forall X i, f X i = let* r := row (List.last X []) i in vstack X r) ->
  rectangular_from X0 traj /\ length traj = S (length inputs).
Proof.
  intros H Hf. apply (vstack_loop_from_X0 row). rewrite <- H.
  symmetry. apply foldM_ext, Hf.
Qed.

Lemma np_product_pair_Ok_inv (xs ys dWs : list R) :
  np_product_pair xs ys = Ok dWs ->
  length xs = length ys /\ dWs = zip_with Rmult xs ys.
Proof.
  unfold np_product_pair. destruct (Nat.eqb_spec (length xs) (length ys)).
  - intros [= <-]. auto.
  - discriminate.
Qed.

Lemma length_zip3_min {A B C : Type} (a : list A) (b : list B) (c : list C) :
  length (zip3 a b c) = Nat.min (Nat.min (length a) (length b)) (length c).
Proof. unfold zip3. rewrite !length_zip_with. reflexivity. Qed.

(** X4.  Whatever the coefficient callables return, a trajectory returned
    by [euler], [milstein], [meas_euler], [meas_milstein] or
    [time_ind_taylor_1_5] starts with X0 and all its rows have the length of
    X0 ([np.vstack] raises otherwise).  It has at least one row, X0 itself,
    also for an empty list of times, and never more than max(1, len(ts))
    rows.  [euler] and [milstein] return exactly max(1, len(ts)) rows when
    there is one noise sample per interval; the measurement integrators stop
    silently at the shorter of the intervals and the measurement record, with
    max(1, min(len(ts), len(dMs) + 1)) rows. *)
Theorem vstack_integrators_return_rectangular
    (a b c : list R -> R -> list R) (tc : taylor_coeffs)
    (dW_fn : R -> R -> list R -> R -> R)
    (X0 ts Us U2s dMs : list R) (traj : list (list R)) :
  (euler a b X0 ts Us = Ok traj ->
   rectangular_from X0 traj /\
   (1 <= length traj <= Nat.max 1 (length ts))%nat /\
   (length Us = (length ts - 1)%nat ->
    length traj = Nat.max 1 (length ts))) /\
  (milstein a b c X0 ts Us = Ok traj ->
   rectangular_from X0 traj /\
   (1 <= length traj <= Nat.max 1 (length ts))%nat /\
   (length Us = (length ts - 1)%nat ->
    length traj = Nat.max 1 (length ts))) /\
  (meas_euler a b dW_fn X0 ts dMs = Ok traj ->
   rectangular_from X0 traj /\
   length traj = Nat.max 1 (Nat.min (length ts) (S (length dMs)))) /\
  (meas_milstein a b c dW_fn X0 ts dMs = Ok traj ->
   rectangular_from X0 traj /\
   length traj = Nat.max 1 (Nat.min (length ts) (S (length dMs)))) /\
  (time_ind_taylor_1_5 tc X0 ts Us U2s = Ok traj ->
   rectangular_from X0 traj /\
   (1 <= length traj <= Nat.max 1 (length ts))%nat).
Proof.
  split; [|split; [|split; [|split]]].
  - unfold euler. intros H. apply bind_Ok_inv in H.
    destruct H as (dWs & HdW & H). apply np_product_pair_Ok_inv in HdW.
    destruct HdW as [Hlen ->].
    rewrite length_map, length_time_increments in Hlen.
    apply (vstack_loop_shape
             (fun Xl '(t, dt, dW) =>
                            euler_row (a Xl t) (b Xl t) Xl dt dW)) in H;
      [|intros X [[t dt] dW]; reflexivity]. destruct H as [Hrect Hl].
    split; [exact Hrect|].
    rewrite Hl, length_zip3_min, length_removelast', length_time_increments.
    rewrite length_zip_with, length_map, length_time_increments. lia.
  - unfold milstein. intros H. apply bind_Ok_inv in H.
    destruct H as (dWs & HdW & H). apply np_product_pair_Ok_inv in HdW.
    destruct HdW as [Hlen ->].
    rewrite length_map, length_time_increments in Hlen.
    apply (vstack_loop_shape
             (fun Xl '(t, dt, dW) =>
                            milstein_row (a Xl t) (b Xl t) (c Xl t) Xl dt dW)) in H;
      [|intros X [[t dt] dW]; reflexivity]. destruct H as [Hrect Hl].
    split; [exact Hrect|].
    rewrite Hl, length_zip3_min, length_removelast', length_time_increments.
    rewrite length_zip_with, length_map, length_time_increments. lia.
  - unfold meas_euler. intros H.
    apply (vstack_loop_shape
             (fun Xl '(t, dt, dM) =>
                            euler_row (a Xl t) (b Xl t) Xl dt
                              (dW_fn dM dt Xl t))) in H;
      [|intros X [[t dt] dM]; reflexivity]. destruct H as [Hrect Hl].
    split; [exact Hrect|].
    rewrite Hl, length_zip3_min, length_removelast', length_time_increments.
    lia.
  - unfold meas_milstein. intros H.
    apply (vstack_loop_shape
             (fun Xl '(t, dt, dM) =>
                            milstein_row (a Xl t) (b Xl t) (c Xl t) Xl dt
                              (dW_fn dM dt Xl t))) in H;
      [|intros X [[t dt] dM]; reflexivity]. destruct H as [Hrect Hl].
    split; [exact Hrect|].
    rewrite Hl, length_zip3_min, length_removelast', length_time_increments.
    lia.
  - unfold time_ind_taylor_1_5. intros H.
    apply bind_Ok_inv in H. destruct H as (dWs & _ & H).
    apply bind_Ok_inv in H. destruct H as (z1 & _ & H).
    apply bind_Ok_inv in H. destruct H as (z2 & _ & H).
    apply bind_Ok_inv in H. destruct H as (z3 & _ & H). cbv zeta in H.
    apply (vstack_loop_shape
             (fun Xl (i : R * R * R * R) =>
                            let '(t, dt, dW, dZ) := i in
                            taylor_1_5_row tc Xl dt dW dZ)) in H;
      [|intros X [[[t dt] dW] dZ]; reflexivity]. destruct H as [Hrect Hl].
    split; [exact Hrect|].
    rewrite Hl. unfold zip4. rewrite length_zip_with, length_zip3_min.
    rewrite length_removelast'. lia.
Qed.

Lemma vstack_integrators_return_rectangular_witness :
  (exists traj,
     euler coeff_id coeff_id [1] [0; 1; 3] [1; 1] = Ok traj /\
     rectangular_from [1] traj /\ length traj = 3%nat) /\
  exists traj,
    time_ind_taylor_1_5 example_taylor_coeffs [1] [] [] [] = Ok traj /\
    rectangular_from [1] traj /\ length traj = 1%nat.
Proof.
  split.
  - destruct (euler coeff_id coeff_id [1] [0; 1; 3] [1; 1]) as [traj|e] eqn:E;
      [|discriminate E].
    exists traj. split; [reflexivity|].
    destruct (proj1 (vstack_integrators_return_rectangular
                       coeff_id coeff_id coeff_id example_taylor_coeffs
                       (fun dM dt _ _ => sqrt dt * dM)
                       [1] [0; 1; 3] [1; 1] [] [] traj) E) as (Hr & _ & Hl).
    split; [exact Hr | exact (Hl eq_refl)].
  - destruct (time_ind_taylor_1_5 example_taylor_coeffs [1] [] [] [])
      as [traj|e] eqn:E; [|discriminate E].
    exists traj. split; [reflexivity|].
    destruct (proj2 (proj2 (proj2 (proj2
                (vstack_integrators_return_rectangular
                   coeff_id coeff_id coeff_id example_taylor_coeffs
                   (fun dM dt _ _ => sqrt dt * dM)
                   [1] [] [] [] [] traj)))) E) as (Hr & Hl).
    split; [exact Hr|]. simpl in Hl. lia.
Defined.

(** ** The two Milstein variants without assumptions on the callables *)

Lemma faulty_row_eq_milstein_row_doubled (a b c X : list R) (dt dW : R) :
  faulty_milstein_row a b c X dt dW
  = milstein_row a b (map (Rmult 2) c) X dt dW.
Proof.
  unfold faulty_milstein_row, milstein_row.
  assert (E : vdivs (vmuls (map (Rmult 2) c) (dW ^ 2 - dt)) 2
              = vmuls c (dW ^ 2 - dt)).
  { unfold vdivs, vmuls. rewrite !map_map. apply map_ext. intros x. field. }
  rewrite E. reflexivity.
Qed.

Lemma foldM_append_prefix {I : Type} (row : list R -> I -> result (list R))
    (inputs : list I) :
  forall X traj,
    foldM (fun X i => let* r := row (List.last X []) i in Ok (X ++ [r]))
      inputs X = Ok traj ->
    exists rest, traj = X ++ rest.
Proof.
  induction inputs as [|i inputs IH]; intros X traj H; simpl in H.
  - injection H as <-. exists []. rewrite app_nil_r. reflexivity.
  - destruct (row (List.last X []) i) as [r|e]; [|discriminate].
    simpl in H. apply IH in H. destruct H as (rest & ->).
    exists (r :: rest). rewrite <- app_assoc. reflexivity.
Qed.

(** A loop of [np.vstack] succeeds exactly when the same loop with
    [list.append] does and yields rows of one length. *)
Lemma foldM_vstack_iff_append {I : Type} (n : nat)
    (row : list R -> I -> result (list R)) (inputs : list I) :
  forall X traj, X <> [] -> Forall (fun r => length r = n) X ->
    (foldM (fun X i => let* r := row (List.last X []) i in vstack X r)
       inputs X = Ok traj
     <->
     foldM (fun X i => let* r := row (List.last X []) i in Ok (X ++ [r]))
       inputs X = Ok traj /\ Forall (fun r => length r = n) traj).
Proof.
  induction inputs as [|i inputs IH]; intros X traj Hne Hall; simpl.
  - split.
    + intros [= <-]. auto.
    + intros [H _]. exact H.
  - assert (Hlast : length (List.last X []) = n)
      by (apply (last_Forall (fun r => length r = n)); assumption).
    destruct (row (List.last X []) i) as [r|e]; simpl;
      [|split; [discriminate | intros [H _]; discriminate]].
    unfold vstack. rewrite Hlast.
    destruct (Nat.eqb_spec (length r) n) as [Hr|Hr]; simpl.
    + apply IH; [destruct X; discriminate|].
      apply Forall_app. split; [exact Hall|]. constructor; [exact Hr|constructor].
    + split; [discriminate|]. intros [H Hrect]. exfalso. apply Hr.
      apply foldM_append_prefix in H. destruct H as (rest & ->).
      rewrite !Forall_app in Hrect. destruct Hrect as [[_ Hr'] _].
      inversion Hr'. assumption.
Qed.

(** X5.  For arbitrary callables: [milstein] with the correction doubled
    returns a trajectory exactly when [faulty_milstein] returns that
    trajectory and its rows all have the length of X0.  The list-based
    [faulty_milstein] does not check the row lengths, the [np.vstack]-based
    [milstein] does. *)
Theorem milstein_doubled_iff_faulty_rectangular
    (a b c : list R -> R -> list R) (X0 ts Us : list R)
    (traj : list (list R)) :
  milstein a b (fun X t => map (Rmult 2) (c X t)) X0 ts Us = Ok traj <->
  faulty_milstein a b c X0 ts Us = Ok traj /\
  Forall (fun r => length r = length X0) traj.
Proof.
  unfold milstein, faulty_milstein.
  destruct (np_product_pair (map sqrt (time_increments ts)) Us) as [dWs|e];
    simpl; [|split; [discriminate | intros [H _]; discriminate]].
  rewrite (foldM_ext _ (fun X i =>
             let* r := (fun Xl (i : R * R * R) =>
                          let '(t, dt, dW) := i in
                          faulty_milstein_row (a Xl t) (b Xl t) (c Xl t)
                            Xl dt dW)
                         (List.last X []) i in vstack X r))
    by (intros X [[t dt] dW]; cbv beta iota;
        rewrite faulty_row_eq_milstein_row_doubled; reflexivity).
  rewrite (foldM_ext
             (fun X '(t, dt, dW) =>
                let Xl := List.last X [] in
                let* r := faulty_milstein_row (a Xl t) (b Xl t) (c Xl t)
                            Xl dt dW in Ok (X ++ [r]))
             (fun X i =>
                let* r := (fun Xl (i : R * R * R) =>
                             let '(t, dt, dW) := i in
                             faulty_milstein_row (a Xl t) (b Xl t) (c Xl t)
                               Xl dt dW)
                            (List.last X []) i in Ok (X ++ [r])))
    by (intros X [[t dt] dW]; reflexivity).
  apply (foldM_vstack_iff_append (length X0)
           (fun Xl (i : R * R * R) =>
              let '(t, dt, dW) := i in
              faulty_milstein_row (a Xl t) (b Xl t) (c Xl t) Xl dt dW));
    [discriminate|].
  constructor; [reflexivity | constructor].
Qed.

(** ** Relations between the schemes *)

Lemma foldM_zip3_noise {T : Type} (f : T -> R * R * R -> result T)
    (A : list R) :
  forall (B U : list R) (x : T),
    foldM f (zip3 A B (zip_with Rmult (map sqrt B) U)) x
    = foldM (fun X (i : R * R * R) =>
               let '(t, dt, dM) := i in f X (t, dt, sqrt dt * dM))
        (zip3 A B U) x.
Proof.
  induction A as [|t A IH]; intros [|dt B] [|u U] x; try reflexivity.
  change (bind (f x (t, dt, sqrt dt * u))
            (foldM f (zip3 A B (zip_with Rmult (map sqrt B) U)))
          = bind (f x (t, dt, sqrt dt * u))
              (foldM (fun X (i : R * R * R) =>
                        let '(t, dt, dM) := i in f X (t, dt, sqrt dt * dM))
                 (zip3 A B U))).
  destruct (f x (t, dt, sqrt dt * u)) as [x'|e]; simpl; [apply IH | reflexivity].
Qed.

(** X6.  With one noise sample per interval, [euler] and [milstein] are
    [meas_euler] and [meas_milstein] for the increment function
    dW(dM, dt, X, t) = sqrt(dt) dM: same trajectories, same exceptions. *)
Theorem scalar_noise_is_measurement_noise (a b c : list R -> R -> list R)
    (X0 ts Us : list R) :
  length Us = (length ts - 1)%nat ->
  euler a b X0 ts Us
  = meas_euler a b (fun dM dt _ _ => sqrt dt * dM) X0 ts Us /\
  milstein a b c X0 ts Us
  = meas_milstein a b c (fun dM dt _ _ => sqrt dt * dM) X0 ts Us.
Proof.
  intros Hlen.
  assert (Hp : np_product_pair (map sqrt (time_increments ts)) Us
               = Ok (zip_with Rmult (map sqrt (time_increments ts)) Us)).
  { apply np_product_pair_ok.
    rewrite length_map, length_time_increments. congruence. }
  split.
  - unfold euler, meas_euler. rewrite Hp, bind_Ok, foldM_zip3_noise.
    apply foldM_ext. intros X [[t dt] dM]. reflexivity.
  - unfold milstein, meas_milstein. rewrite Hp, bind_Ok, foldM_zip3_noise.
    apply foldM_ext. intros X [[t dt] dM]. reflexivity.
Qed.

Lemma scalar_noise_is_measurement_noise_witness :
  length [0; 1] = (length [0; 1; 2] - 1)%nat /\
  euler coeff_zero coeff_id [1] [0; 1; 2] [0; 1]
  = meas_euler coeff_zero coeff_id (fun dM dt _ _ => sqrt dt * dM)
      [1] [0; 1; 2] [0; 1].
Proof.
  split; [reflexivity|].
  exact (proj1 (scalar_noise_is_measurement_noise coeff_zero coeff_id
                  coeff_two [1] [0; 1; 2] [0; 1] eq_refl)).
Defined.

Lemma broadcast_dim_not_1 (n m c : nat) :
  broadcast_dim n m = Some c -> n <> 1%nat -> c = n.
Proof.
  unfold broadcast_dim.
  destruct (Nat.eqb_spec n m); [intros [= <-]; reflexivity|].
  destruct (Nat.eqb_spec n 1); [intros _ H; contradiction|].
  destruct (Nat.eqb_spec m 1); [intros [= <-]; reflexivity | discriminate].
Qed.

Lemma length_zip_broadcast {A B C : Type} (f : A -> B -> C)
    (xs : list A) (ys : list B) (c : nat) :
  broadcast_dim (length xs) (length ys) = Some c ->
  length (zip_broadcast f xs ys) = c.
Proof.
  unfold broadcast_dim, zip_broadcast.
  destruct (Nat.eqb_spec (length xs) (length ys)) as [E|E].
  - intros [= <-]. rewrite length_zip_with. lia.
  - destruct (Nat.eqb_spec (length xs) 1) as [E1|E1].
    + intros [= <-]. destruct xs as [|x [|]]; try discriminate.
      apply length_map.
    + destruct (Nat.eqb_spec (length ys) 1) as [E2|E2]; [|discriminate].
      intros [= <-]. destruct ys as [|y [|]]; try discriminate.
      destruct xs as [|x [|x' xs]]; simpl in *; try lia.
      rewrite length_map. reflexivity.
Qed.

Lemma ufunc1_length (f : R -> R -> R) (x y z : list R) :
  ufunc1 f x y = Ok z -> length x <> 1%nat -> length z = length x.
Proof.
  unfold ufunc1. destruct (broadcast_dim (length x) (length y)) as [c|] eqn:E;
    [|discriminate].
  intros [= <-] Hne. rewrite (length_zip_broadcast f x y c E).
  eapply broadcast_dim_not_1; eassumption.
Qed.

(** Adding a zero vector of the state's length changes nothing. *)
Lemma ufunc1_plus_zeros (s : list R) (n : nat) :
  (n <> 1%nat -> length s = n) ->
  ufunc1 Rplus s (replicate n 0) = Ok s.
Proof.
  intros Hlen. unfold ufunc1, zip_broadcast. rewrite length_replicate.
  destruct (Nat.eq_dec n 1%nat) as [->|Hn].
  - simpl replicate. unfold broadcast_dim. simpl length.
    destruct (Nat.eqb_spec (length s) 1) as [E|E].
    + destruct s as [|x [|]]; try discriminate. simpl.
      rewrite Rplus_0_r. reflexivity.
    + destruct s as [|x [|x' s]]; simpl in *; try lia; [reflexivity|].
      f_equal. rewrite !Rplus_0_r. f_equal. f_equal.
      rewrite <- (map_id s) at 2. apply map_ext. intros y. apply Rplus_0_r.
  - rewrite (Hlen Hn), broadcast_dim_refl, Nat.eqb_refl. f_equal.
    apply (list_eq_nth 0).
    + rewrite length_zip_with, length_replicate. lia.
    + rewrite length_zip_with, length_replicate. intros i Hi.
      rewrite (nth_zip_with_lt Rplus s (replicate n 0) i 0 0)
        by (rewrite ?length_replicate; lia).
      fold (comp (replicate n 0) i). rewrite comp_replicate_0. apply Rplus_0_r.
Qed.

Lemma zero_correction_term (n : nat) (s : R) :
  vdivs (vmuls (replicate n 0) s) 2 = replicate n 0.
Proof.
  unfold vdivs, vmuls. rewrite map_map.
  induction n as [|n IH]; simpl; [reflexivity|]. rewrite IH. f_equal. field.
Qed.

Lemma milstein_row_zero_correction (a b X : list R) (dt dW : R) :
  milstein_row a b (replicate (length X) 0) X dt dW = euler_row a b X dt dW.
Proof.
  unfold milstein_row, euler_row. rewrite zero_correction_term.
  destruct (ufunc1 Rplus X (vmuls a dt)) as [s1|e] eqn:E1; [|reflexivity].
  rewrite !bind_Ok.
  destruct (ufunc1 Rplus s1 (vmuls b dW)) as [s2|e] eqn:E2; [|reflexivity].
  rewrite bind_Ok. apply ufunc1_plus_zeros. intros Hn.
  apply ufunc1_length in E1; [|exact Hn].
  apply ufunc1_length in E2; [|congruence]. congruence.
Qed.

(** X7.  When the correction callable returns the zero vector, [milstein]
    is [euler] and [meas_milstein] is [meas_euler], for every drift and
    diffusion callable and on every input, exceptions included. *)
Theorem milstein_without_correction_is_euler
    (a b c : list R -> R -> list R) (dW_fn : R -> R -> list R -> R -> R)
    (X0 ts Us dMs : list R) :
  (forall X t, c X t = replicate (length X) 0) ->
  milstein a b c X0 ts Us = euler a b X0 ts Us /\
  meas_milstein a b c dW_fn X0 ts dMs = meas_euler a b dW_fn X0 ts dMs.
Proof.
  intros Hc. split.
  - unfold milstein, euler.
    destruct (np_product_pair _ Us) as [dWs|e]; [|reflexivity].
    rewrite !bind_Ok. apply foldM_ext. intros X [[t dt] dW]. cbv zeta.
    rewrite Hc, milstein_row_zero_correction. reflexivity.
  - unfold meas_milstein, meas_euler.
    apply foldM_ext. intros X [[t dt] dM]. cbv zeta.
    rewrite Hc, milstein_row_zero_correction. reflexivity.
Qed.

Lemma milstein_without_correction_is_euler_witness :
  (forall X t, coeff_zero X t = replicate (length X) 0) /\
  milstein coeff_id coeff_id coeff_zero [1] [0; 1] [1]
  = euler coeff_id coeff_id [1] [0; 1] [1].
Proof.
  assert (H : forall X t, coeff_zero X t = replicate (length X) 0)
    by (intros X t; reflexivity).
  split; [exact H|].
  exact (proj1 (milstein_without_correction_is_euler coeff_id coeff_id
                  coeff_zero (fun dM _ _ _ => dM) [1] [0; 1] [1] [1] H)).
Defined.

Lemma fold_trajectory_eq (n : nat) (step step' : nat -> list R -> list R)
    (X0 : list R) (L : nat) (t1 t2 : list (list R)) :
  Forall (fun r => length r = n) t1 ->
  (forall i X, length X = n -> step i X = step' i X) ->
  fold_trajectory step X0 L t1 -> fold_trajectory step' X0 L t2 -> t1 = t2.
Proof.
  intros Hdim Heq (L1 & F1 & S1) (L2 & F2 & S2).
  assert (Hall : forall i, (i < L)%nat -> nth i t1 [] = nth i t2 []).
  { induction i as [|i IH]; intros Hi; [congruence|].
    rewrite S1, S2 by exact Hi. rewrite <- IH by lia.
    apply Heq. apply Forall_nth_dim; [exact Hdim | lia]. }
  apply (list_eq_nth []); [congruence|]. intros i Hi. apply Hall. lia.
Qed.

(** X8.  When the six coefficient callables of order higher than Milstein
    return zero vectors, [time_ind_taylor_1_5] is [milstein] with the
    time-independent drift, diffusion and correction: the second noise
    sequence no longer matters. *)
Theorem taylor_without_higher_corrections_is_milstein (n L : nat)
    (tc : taylor_coeffs) (X0 ts U1s U2s : list R) :
  taylor_coeffs_dim n tc ->
  vanishes1 n (b_dx_a tc) -> vanishes1 n (a_dx_b tc) ->
  vanishes1 n (a_dx_a tc) -> vanishes1 n (b_dx_b_dx_b tc) ->
  vanishes1 n (b_b_dx_dx_b tc) -> vanishes1 n (b_b_dx_dx_a tc) ->
  length X0 = n -> length ts = L -> (1 <= L)%nat ->
  length U1s = (L - 1)%nat -> length U2s = (L - 1)%nat ->
  time_ind_taylor_1_5 tc X0 ts U1s U2s
  = milstein (fun X _ => drift tc X) (fun X _ => diffusion tc X)
      (fun X _ => b_dx_b tc X) X0 ts U1s.
Proof.
  intros Hdim V1 V2 V3 V4 V5 V6 HX0 Hts HL HU1 HU2.
  destruct (taylor_trajectory n L tc X0 ts U1s U2s)
    as (t1 & E1 & D1 & F1); auto.
  destruct Hdim as (Ha & Hb & Hc & _).
  destruct (milstein_trajectory n L (fun X _ => drift tc X)
              (fun X _ => diffusion tc X) (fun X _ => b_dx_b tc X) X0 ts U1s)
    as (t2 & E2 & D2 & F2); auto;
    try (intros X t HX; auto).
  rewrite E1, E2. f_equal.
  refine (fold_trajectory_eq n _ _ X0 L t1 t2 D1 _ F1 F2).
  intros i X HX. unfold taylor_1_5_step, milstein_step.
  rewrite V1, V2, V3, V4, V5, V6 by exact HX.
  apply tabulate_ext. intros mu Hmu. rewrite !comp_replicate_0. field.
Qed.

Lemma taylor_without_higher_corrections_is_milstein_witness :
  taylor_coeffs_dim 1 zero_taylor_coeffs /\
  time_ind_taylor_1_5 zero_taylor_coeffs [1] [0; 1] [1] [1]
  = milstein (fun X _ => drift zero_taylor_coeffs X)
      (fun X _ => diffusion zero_taylor_coeffs X)
      (fun X _ => b_dx_b zero_taylor_coeffs X) [1] [0; 1] [1].
Proof.
  assert (Hd : taylor_coeffs_dim 1 zero_taylor_coeffs).
  { repeat split; intros X HX; simpl; rewrite ?length_replicate; exact HX. }
  assert (Hv : forall X : list R, length X = 1%nat ->
            replicate (length X) 0 = replicate 1 0)
    by (intros X HX; rewrite HX; reflexivity).
  split; [exact Hd|].
  exact (taylor_without_higher_corrections_is_milstein 1 2 zero_taylor_coeffs
           [1] [0; 1] [1] [1] Hd Hv Hv Hv Hv Hv Hv eq_refl eq_refl
           (le_S 1 1 (le_n 1)) eq_refl eq_refl).
Defined.

(** X9.  With a constant drift k and no diffusion, [euler] is exact: row i
    of the trajectory is X0 + k (t_i - t_0), whatever the noise, on every
    non-decreasing grid, evenly spaced or not. *)
Theorem euler_constant_drift_is_exact (n L : nat) (k : list R)
    (b : list R -> R -> list R) (X0 ts Us : list R) :
  length k = n -> vanishes n b -> length X0 = n ->
  length ts = L -> (1 <= L)%nat -> length Us = (L - 1)%nat ->
  (forall i, (S i < L)%nat -> nth i ts 0 <= nth (S i) ts 0) ->
  exists traj,
    euler (fun _ _ => k) b X0 ts Us = Ok traj /\
    forall i, (i < L)%nat ->
      nth i traj []
      = tabulate n (fun mu => comp X0 mu
                              + comp k mu * (nth i ts 0 - nth 0 ts 0)).
Proof.
  intros Hk Hb HX0 Hts HL HUs _.
  destruct (euler_trajectory n L (fun _ _ => k) b X0 ts Us)
    as (traj & E & Hdim & Hlen & Hfirst & Hstep); auto.
  { intros X t HX. exact Hk. }
  { apply vanishes_preserves_dim, Hb. }
  exists traj. split; [exact E|].
  induction i as [|i IH]; intros Hi.
  - rewrite Hfirst. rewrite <- (tabulate_comp X0) at 1. rewrite HX0.
    apply tabulate_ext. intros mu Hmu. ring.
  - rewrite Hstep by exact Hi. rewrite IH by lia.
    unfold euler_step. rewrite length_tabulate.
    rewrite Hb by apply length_tabulate.
    apply tabulate_ext. intros mu Hmu.
    rewrite comp_tabulate, comp_replicate_0 by exact Hmu.
    unfold Delta_t. ring.
Qed.

Lemma euler_constant_drift_is_exact_witness :
  vanishes 1 coeff_zero /\
  (forall i, (S i < 3)%nat -> nth i [0; 1; 3] 0 <= nth (S i) [0; 1; 3] 0) /\
  exists traj,
    euler (fun _ _ => [2]) coeff_zero [1] [0; 1; 3] [1; 1] = Ok traj /\
    nth 2 traj []
    = tabulate 1 (fun mu => comp [1] mu
                            + comp [2] mu * (nth 2 [0; 1; 3] 0 - nth 0 [0; 1; 3] 0)).
Proof.
  assert (Hm : forall i, (S i < 3)%nat ->
            nth i [0; 1; 3] 0 <= nth (S i) [0; 1; 3] 0).
  { intros i Hi. destruct i as [|[|i]]; simpl; try lra. lia. }
  split; [apply coeff_zero_vanishes|]. split; [exact Hm|].
  destruct (euler_constant_drift_is_exact 1 3 [2] coeff_zero [1] [0; 1; 3]
              [1; 1] eq_refl (coeff_zero_vanishes 1) eq_refl eq_refl
              (le_S 1 2 (le_S 1 1 (le_n 1))) eq_refl Hm)
    as (traj & E & Hall).
  exists traj. split; [exact E|]. apply Hall. lia.
Defined.

(** ** Broadcasting of a single noise sample *)

Lemma ufunc1_singleton_l (f : R -> R -> R) (u : R) (ys : list R) :
  ufunc1 f [u] ys = Ok (map (f u) ys).
Proof.
  unfold ufunc1, broadcast_dim, zip_broadcast. simpl length.
  destruct (Nat.eqb_spec 1 (length ys)) as [E|E].
  - destruct ys as [|y [|]]; try discriminate. reflexivity.
  - reflexivity.
Qed.

Lemma zip_with_replicate_map (f : R -> R -> R) (u : R) (ys : list R) :
  zip_with f (replicate (length ys) u) ys = map (f u) ys.
Proof. induction ys as [|y ys IH]; simpl; [reflexivity|]. rewrite IH. reflexivity. Qed.

Lemma ufunc1_replicate_l (f : R -> R -> R) (u : R) (ys : list R) :
  ufunc1 f (replicate (length ys) u) ys = Ok (map (f u) ys).
Proof.
  rewrite ufunc1_same by apply length_replicate.
  rewrite zip_with_replicate_map. reflexivity.
Qed.

(** X10.  Noise of length one is not rejected by [time_ind_taylor_1_5]:
    broadcasting reuses the single sample in every interval, so the result is
    that of the noise repeated once per interval. *)
Theorem taylor_reuses_a_single_noise_sample (tc : taylor_coeffs)
    (X0 ts : list R) (u v : R) :
  time_ind_taylor_1_5 tc X0 ts [u] [v]
  = time_ind_taylor_1_5 tc X0 ts (replicate (length ts - 1) u)
      (replicate (length ts - 1) v).
Proof.
  unfold time_ind_taylor_1_5.
  set (dts := time_increments ts). set (sq := map sqrt dts).
  assert (Hm : (length ts - 1)%nat = length sq).
  { unfold sq, dts. rewrite length_map, length_time_increments. reflexivity. }
  rewrite Hm.
  rewrite ufunc1_singleton_l, ufunc1_replicate_l, !bind_Ok.
  assert (Ez : vdivs (replicate (length sq) v) (sqrt 3)
               = replicate (length sq) (v / sqrt 3)).
  { unfold vdivs. generalize (length sq). intros m.
    induction m as [|m IH]; simpl; [reflexivity|]. rewrite IH. reflexivity. }
  rewrite Ez. rewrite ufunc1_singleton_l.
  rewrite (ufunc1_same Rplus (replicate _ u) (replicate _ (v / sqrt 3)))
    by (rewrite !length_replicate; reflexivity).
  rewrite !bind_Ok.
  assert (Er : zip_with Rplus (replicate (length sq) u)
                 (replicate (length sq) (v / sqrt 3))
               = replicate (length sq) (u + v / sqrt 3)).
  { generalize (length sq). intros m.
    induction m as [|m IH]; simpl; [reflexivity|]. rewrite IH. reflexivity. }
  rewrite Er.
  change (map (Rplus u) (vdivs [v] (sqrt 3))) with [u + v / sqrt 3].
  rewrite ufunc1_singleton_l, ufunc1_replicate_l. reflexivity.
Qed.

(** ** More on [homodyne_strong_calc_rate] *)

(** X11.  What a call of [homodyne_strong_calc_rate] does to the
    dictionaries: in the caller's dictionary every key other than ['ts'],
    ['U1s'] and ['U2s'] keeps its value, exactly two new dictionaries are
    allocated, holding the caller's entries with the grid and the noise of
    the doubled and the quadrupled intervals, and no other dictionary
    changes. *)
Theorem calc_rate_touches_nothing_else
    (integrator_fn : kwargs -> result (list (list R)))
    (keyword_args : loc)
    (times U1s U2s times_2 U1s_2 U2s_2 times_4 U1s_4 U2s_4 : list R)
    (s : gmap loc (gmap string pyval)) (d : kwargs) :
  s !! keyword_args = Some d ->
  let s' := (homodyne_strong_calc_rate integrator_fn keyword_args
               times U1s U2s times_2 U1s_2 U2s_2 times_4 U1s_4 U2s_4 s).2 in
  (exists d', s' !! keyword_args = Some d' /\
     forall key, key <> "ts"%string -> key <> "U1s"%string ->
       key <> "U2s"%string -> d' !! key = d !! key) /\
  exists k2 k4,
    k2 <> k4 /\ s !! k2 = None /\ s !! k4 = None /\
    s' !! k2 = Some (with_grid d times_2 U1s_2 U2s_2) /\
    s' !! k4 = Some (with_grid d times_4 U1s_4 U2s_4) /\
    forall l, l <> keyword_args -> l <> k2 -> l <> k4 -> s' !! l = s !! l.
Proof.
  intros Hd s'. subst s'.
  rewrite (calc_rate_store _ _ _ _ _ _ _ _ _ _ _ _ d Hd). simpl snd.
  set (k2 := fresh (dom s)). set (k4 := fresh (dom (<[k2 := d]> s))).
  assert (Hk2 : k2 <> keyword_args) by (eapply fresh_dom_ne; exact Hd).
  assert (Hd1 : <[k2 := d]> s !! keyword_args = Some d)
    by (rewrite lookup_insert_ne by exact Hk2; exact Hd).
  assert (Hk4 : k4 <> keyword_args) by (eapply fresh_dom_ne; exact Hd1).
  assert (Hk42 : k4 <> k2) by (eapply fresh_dom_ne; apply lookup_insert_eq).
  assert (Hn2 : s !! k2 = None) by apply fresh_dom_None.
  assert (Hn4 : s !! k4 = None).
  { pose proof (fresh_dom_None (<[k2 := d]> s)) as H. fold k4 in H.
    rewrite lookup_insert_ne in H by congruence. exact H. }
  split.
  - exists (with_grid d times U1s U2s). split.
    + rewrite lookup_insert_ne by exact Hk4.
      rewrite lookup_insert_ne by exact Hk2. apply lookup_insert_eq.
    + intros key H1 H2 H3. unfold with_grid.
      rewrite !lookup_insert_ne by congruence. reflexivity.
  - exists k2, k4. split; [congruence|]. split; [exact Hn2|].
    split; [exact Hn4|]. split; [|split].
    + rewrite lookup_insert_ne by exact Hk42. apply lookup_insert_eq.
    + apply lookup_insert_eq.
    + intros l H1 H2 H3. rewrite !lookup_insert_ne by congruence.
      reflexivity.
Qed.

Lemma with_grid_with_grid (d : kwargs) (t u v t' u' v' : list R) :
  with_grid (with_grid d t u v) t' u' v' = with_grid d t' u' v'.
Proof.
  unfold with_grid. apply map_eq. intros key.
  destruct (decide (key = "U2s"%string)) as [->|H1];
    [rewrite !lookup_insert_eq; reflexivity|].
  rewrite !(lookup_insert_ne _ "U2s"%string key) by congruence.
  destruct (decide (key = "U1s"%string)) as [->|H2];
    [rewrite !lookup_insert_eq; reflexivity|].
  rewrite !(lookup_insert_ne _ "U1s"%string key) by congruence.
  destruct (decide (key = "ts"%string)) as [->|H3];
    [rewrite !lookup_insert_eq; reflexivity|].
  rewrite !(lookup_insert_ne _ "ts"%string key) by congruence.
  rewrite !(lookup_insert_ne _ "U2s"%string key) by congruence.
  rewrite !(lookup_insert_ne _ "U1s"%string key) by congruence.
  rewrite !(lookup_insert_ne _ "ts"%string key) by congruence.
  reflexivity.
Qed.

(** X12.  The mutation of the caller's dictionary does not leak into a
    later result: the rate computed on the store that an earlier call (with
    any integrator, grid and noise) left behind is the rate computed on the
    original store. *)
Theorem calc_rate_ignores_earlier_runs
    (integrator_fn integrator_fn' : kwargs -> result (list (list R)))
    (keyword_args : loc)
    (times U1s U2s times_2 U1s_2 U2s_2 times_4 U1s_4 U2s_4 : list R)
    (times' U1s' U2s' times_2' U1s_2' U2s_2' times_4' U1s_4' U2s_4' : list R)
    (s : gmap loc (gmap string pyval)) (d : kwargs) :
  s !! keyword_args = Some d ->
  let s1 := (homodyne_strong_calc_rate integrator_fn' keyword_args
               times' U1s' U2s' times_2' U1s_2' U2s_2'
               times_4' U1s_4' U2s_4' s).2 in
  (homodyne_strong_calc_rate integrator_fn keyword_args
     times U1s U2s times_2 U1s_2 U2s_2 times_4 U1s_4 U2s_4 s1).1
  = (homodyne_strong_calc_rate integrator_fn keyword_args
       times U1s U2s times_2 U1s_2 U2s_2 times_4 U1s_4 U2s_4 s).1.
Proof.
  intros Hd s1.
  assert (Hd1 : s1 !! keyword_args = Some (with_grid d times' U1s' U2s'))
    by (apply calc_rate_mutates; exact Hd).
  rewrite (calc_rate_store _ _ _ _ _ _ _ _ _ _ _ _ _ Hd1).
  rewrite (calc_rate_store _ _ _ _ _ _ _ _ _ _ _ _ d Hd).
  simpl fst. rewrite !with_grid_with_grid. reflexivity.
Qed.

Lemma calc_rate_ignores_earlier_runs_witness :
  example_store !! 1%positive = Some ∅ /\
  (homodyne_strong_calc_rate example_integrator 1%positive
     [0; 1; 2] [1; 1] [0; 0] [0; 2] [1] [0] [0] [] []
     (homodyne_strong_calc_rate example_integrator 1%positive
        [0; 4] [1] [1] [0] [] [] [0] [] [] example_store).2).1
  = (homodyne_strong_calc_rate example_integrator 1%positive
       [0; 1; 2] [1; 1] [0; 0] [0; 2] [1] [0] [0] [] [] example_store).1.
Proof.
  assert (H : example_store !! 1%positive = Some ∅) by reflexivity.
  split; [exact H|].
  exact (calc_rate_ignores_earlier_runs example_integrator example_integrator
           1%positive [0; 1; 2] [1; 1] [0; 0] [0; 2] [1] [0] [0] [] []
           [0; 4] [1] [1] [0] [] [] [0] [] [] example_store ∅ H).
Defined.

Lemma calc_rate_touches_nothing_else_witness :
  example_store !! 1%positive = Some ∅ /\
  exists d',
    (homodyne_strong_calc_rate example_integrator 1%positive
       [0; 1; 2] [1; 1] [0; 0] [0; 2] [1] [0] [0] [] [] example_store).2
    !! 1%positive = Some d' /\
    d' !! "X0"%string = (∅ : kwargs) !! "X0"%string.
Proof.
  assert (H : example_store !! 1%positive = Some ∅) by reflexivity.
  split; [exact H|].
  destruct (proj1 (calc_rate_touches_nothing_else example_integrator
                     1%positive [0; 1; 2] [1; 1] [0; 0] [0; 2] [1] [0] [0]
                     [] [] example_store ∅ H)) as (d' & Hd' & Hkeys).
  exists d'. split; [exact Hd'|]. apply Hkeys; discriminate.
Defined.

Lemma calc_rate_value
    (integrator_fn : kwargs -> result (list (list R)))
    (keyword_args : loc)
    (times U1s U2s times_2 U1s_2 U2s_2 times_4 U1s_4 U2s_4 : list R)
    (s : gmap loc (gmap string pyval)) (d : kwargs)
    (rhos rhos_2 rhos_4 : list (list R)) :
  s !! keyword_args = Some d ->
  integrator_fn (with_grid d times U1s U2s) = Ok rhos ->
  integrator_fn (with_grid d times_2 U1s_2 U2s_2) = Ok rhos_2 ->
  integrator_fn (with_grid d times_4 U1s_4 U2s_4) = Ok rhos_4 ->
  rhos <> [] -> rhos_2 <> [] -> rhos_4 <> [] ->
  length (List.last rhos_4 []) = length (List.last rhos_2 []) ->
  length (List.last rhos_2 []) = length (List.last rhos []) ->
  (homodyne_strong_calc_rate integrator_fn keyword_args
     times U1s U2s times_2 U1s_2 U2s_2 times_4 U1s_4 U2s_4 s).1
  = Ok ((ln (sum_abs (vsub (List.last rhos_4 []) (List.last rhos_2 [])))
         - ln (sum_abs (vsub (List.last rhos_2 []) (List.last rhos []))))
        / ln 2).
Proof.
  intros Hd E1 E2 E4 N1 N2 N4 L42 L21.
  rewrite (calc_rate_store _ _ _ _ _ _ _ _ _ _ _ _ d Hd). simpl fst.
  rewrite E1, bind_Ok, E2, bind_Ok, E4, bind_Ok.
  rewrite (getitem_last_ok rhos_4), bind_Ok by assumption.
  rewrite (getitem_last_ok rhos_2), bind_Ok by assumption.
  rewrite ufunc1_Rminus_vsub, bind_Ok by exact L42.
  rewrite bind_Ok.
  rewrite (getitem_last_ok rhos), bind_Ok by assumption.
  rewrite ufunc1_Rminus_vsub, bind_Ok by exact L21.
  rewrite !l1_norm_sum_abs. reflexivity.
Qed.

Lemma ln_2_pos : 0 < ln 2.
Proof. pose proof ln_lt_2. lra. Qed.

(** X13.  The returned rate is the observed order of the error: when the
    three integrations return and the L1 distance between the quadrupled and
    the doubled final states is 2^p times the non-zero distance between the
    doubled and the finest final states, the rate is p. *)
Theorem calc_rate_is_log2_of_the_error_ratio
    (integrator_fn : kwargs -> result (list (list R)))
    (keyword_args : loc)
    (times U1s U2s times_2 U1s_2 U2s_2 times_4 U1s_4 U2s_4 : list R)
    (s : gmap loc (gmap string pyval)) (d : kwargs)
    (rhos rhos_2 rhos_4 : list (list R)) (p : R) :
  s !! keyword_args = Some d ->
  integrator_fn (with_grid d times U1s U2s) = Ok rhos ->
  integrator_fn (with_grid d times_2 U1s_2 U2s_2) = Ok rhos_2 ->
  integrator_fn (with_grid d times_4 U1s_4 U2s_4) = Ok rhos_4 ->
  rhos <> [] -> rhos_2 <> [] -> rhos_4 <> [] ->
  length (List.last rhos_4 []) = length (List.last rhos_2 []) ->
  length (List.last rhos_2 []) = length (List.last rhos []) ->
  0 < sum_abs (vsub (List.last rhos_2 []) (List.last rhos [])) ->
  sum_abs (vsub (List.last rhos_4 []) (List.last rhos_2 []))
  = Rpower 2 p * sum_abs (vsub (List.last rhos_2 []) (List.last rhos [])) ->
  (homodyne_strong_calc_rate integrator_fn keyword_args
     times U1s U2s times_2 U1s_2 U2s_2 times_4 U1s_4 U2s_4 s).1 = Ok p.
Proof.
  intros Hd E1 E2 E4 N1 N2 N4 L42 L21 Hpos Hratio.
  rewrite (calc_rate_value _ _ _ _ _ _ _ _ _ _ _ _ d rhos rhos_2 rhos_4)
    by assumption.
  f_equal. rewrite Hratio.
  rewrite ln_mult by (try exact Hpos; apply exp_pos).
  unfold Rpower. rewrite ln_exp. pose proof ln_2_pos. field. lra.
Qed.

(** X14.  Failures of [homodyne_strong_calc_rate].  An exception of the
    integrator is passed on, the finest grid first, then the doubled, then
    the quadrupled one.  An empty trajectory at the doubled or the quadrupled
    resolution gives [IndexError] from [rhos[-1]], and so does an empty
    trajectory at the finest resolution when the two coarser final states
    have one length. *)
Theorem calc_rate_errors
    (integrator_fn : kwargs -> result (list (list R)))
    (keyword_args : loc)
    (times U1s U2s times_2 U1s_2 U2s_2 times_4 U1s_4 U2s_4 : list R)
    (s : gmap loc (gmap string pyval)) (d : kwargs) (e : exn) :
  s !! keyword_args = Some d ->
  let rate := (homodyne_strong_calc_rate integrator_fn keyword_args
                 times U1s U2s times_2 U1s_2 U2s_2 times_4 U1s_4 U2s_4 s).1 in
  let r1 := integrator_fn (with_grid d times U1s U2s) in
  let r2 := integrator_fn (with_grid d times_2 U1s_2 U2s_2) in
  let r4 := integrator_fn (with_grid d times_4 U1s_4 U2s_4) in
  (r1 = Raise e -> rate = Raise e) /\
  (is_ok r1 = true -> r2 = Raise e -> rate = Raise e) /\
  (is_ok r1 = true -> is_ok r2 = true -> r4 = Raise e -> rate = Raise e) /\
  (r2 = Ok [] \/ r4 = Ok [] ->
   is_ok r1 = true -> is_ok r2 = true -> is_ok r4 = true ->
   rate = Raise IndexError) /\
  (forall rhos_2 rhos_4,
     r1 = Ok [] -> r2 = Ok rhos_2 -> r4 = Ok rhos_4 ->
     length (List.last rhos_4 []) = length (List.last rhos_2 []) ->
     rate = Raise IndexError).
Proof.
  intros Hd rate r1 r2 r4. subst rate.
  rewrite (calc_rate_store _ _ _ _ _ _ _ _ _ _ _ _ d Hd). simpl fst.
  fold r1 r2 r4.
  split; [intros ->; reflexivity|].
  split; [intros H1 ->; destruct r1; [reflexivity | discriminate]|].
  split.
  { intros H1 H2 ->. destruct r1; [|discriminate].
    destruct r2; [reflexivity | discriminate]. }
  split.
  - intros Hempty H1 H2 H4.
    destruct r1 as [rhos|]; [|discriminate].
    destruct r2 as [rhos_2|]; [|discriminate].
    destruct r4 as [rhos_4|]; [|discriminate].
    rewrite !bind_Ok.
    destruct rhos_4 as [|x4 rhos_4]; [reflexivity|].
    destruct rhos_2 as [|x2 rhos_2]; [reflexivity|].
    destruct Hempty as [[=]|[=]].
  - intros rhos_2 rhos_4 -> -> -> Hlen. rewrite !bind_Ok.
    destruct rhos_4 as [|x4 rhos_4]; [reflexivity|].
    destruct rhos_2 as [|x2 rhos_2]; [reflexivity|].
    rewrite (getitem_last_ok (x4 :: rhos_4)), bind_Ok by discriminate.
    rewrite (getitem_last_ok (x2 :: rhos_2)), bind_Ok by discriminate.
    rewrite ufunc1_Rminus_vsub, bind_Ok by exact Hlen.
    reflexivity.
Qed.

Lemma calc_rate_is_log2_of_the_error_ratio_witness :
  example_store !! 1%positive = Some ∅ /\
  0 < sum_abs (vsub [1] [0]) /\
  (homodyne_strong_calc_rate ratio_integrator 1%positive
     [0; 1; 2; 3; 4] [] [] [0; 2; 4] [] [] [0; 4] [] [] example_store).1
  = Ok 1.
Proof.
  assert (H : example_store !! 1%positive = Some ∅) by reflexivity.
  assert (Hs : sum_abs (vsub [1] [0]) = 1).
  { simpl. unfold comp. simpl. rewrite Rabs_right; lra. }
  assert (Hs2 : sum_abs (vsub [3] [1]) = 2).
  { simpl. unfold comp. simpl. rewrite Rabs_right; lra. }
  assert (Hp : Rpower 2 1 = 2) by (apply Rpower_1; lra).
  split; [exact H|]. split; [rewrite Hs; lra|].
  apply (calc_rate_is_log2_of_the_error_ratio ratio_integrator 1%positive
           [0; 1; 2; 3; 4] [] [] [0; 2; 4] [] [] [0; 4] [] [] example_store ∅
           [[0]] [[1]] [[3]] 1 H eq_refl eq_refl eq_refl);
    try discriminate; try reflexivity.
  - change (0 < sum_abs (vsub [1] [0])). rewrite Hs. lra.
  - change (sum_abs (vsub [3] [1]) = Rpower 2 1 * sum_abs (vsub [1] [0])).
    rewrite Hs, Hs2, Hp. lra.
Defined.

Lemma calc_rate_errors_witness :
  example_store !! 1%positive = Some ∅ /\
  (homodyne_strong_calc_rate (fun _ => Raise TypeError) 1%positive
     [0; 1] [1] [1] [0] [] [] [0] [] [] example_store).1 = Raise TypeError.
Proof.
  assert (H : example_store !! 1%positive = Some ∅) by reflexivity.
  split; [exact H|].
  exact (proj1 (calc_rate_errors (fun _ => Raise TypeError) 1%positive
                  [0; 1] [1] [1] [0] [] [] [0] [] [] example_store ∅
                  TypeError H) eq_refl).
Defined.

(** ** What the drivers hand to the integrator *)

Lemma nth_zip6 {A : Type} (d : A) (a b c e f g : list A) (i : nat) (N : nat) :
  length a = N -> length b = N -> length c = N ->
  length e = N -> length f = N -> length g = N -> (i < N)%nat ->
  nth i (zip (zip (zip (zip (zip a b) c) e) f) g) (d, d, d, d, d, d)
  = (nth i a d, nth i b d, nth i c d, nth i e d, nth i f d, nth i g d).
Proof.
  intros Ha Hb Hc He Hf Hg Hi.
  rewrite (nth_zip_with_lt pair _ g i (d, d, d, d, d) d)
    by (rewrite ?length_zip_with; lia).
  rewrite (nth_zip_with_lt pair _ f i (d, d, d, d) d)
    by (rewrite ?length_zip_with; lia).
  rewrite (nth_zip_with_lt pair _ e i (d, d, d) d)
    by (rewrite ?length_zip_with; lia).
  rewrite (nth_zip_with_lt pair _ c i (d, d) d)
    by (rewrite ?length_zip_with; lia).
  rewrite (nth_zip_with_lt pair a b i d d) by lia. reflexivity.
Qed.

Lemma map_proj_zip6 {A B : Type} (d : A) (a b c e f g : list A) (N : nat)
    (mk : A * A * A * A * A * A -> B) (proj : B -> A)
    (sel : A * A * A * A * A * A -> A) (target : list A) :
  length a = N -> length b = N -> length c = N ->
  length e = N -> length f = N -> length g = N -> length target = N ->
  (forall x, proj (mk x) = sel x) ->
  (forall i, (i < N)%nat ->
     sel (nth i a d, nth i b d, nth i c d, nth i e d, nth i f d, nth i g d)
     = nth i target d) ->
  map proj (map mk (zip (zip (zip (zip (zip a b) c) e) f) g)) = target.
Proof.
  intros Ha Hb Hc He Hf Hg Ht Hproj Hsel.
  assert (HZ : length (zip (zip (zip (zip (zip a b) c) e) f) g) = N)
    by (rewrite !length_zip_with; lia).
  apply (list_eq_nth d); rewrite !length_map, HZ; [congruence|].
  intros i Hi. rewrite map_map.
  rewrite (nth_map_lt _ _ i (d, d, d, d, d, d)) by lia.
  rewrite Hproj, (nth_zip6 d a b c e f g i N) by assumption.
  apply Hsel, Hi.
Qed.

(** X15.  With both noise arrays supplied (4k columns, equally many
    rows), [homodyne_strong_grid_convergence] returns one work item per noise
    row, whatever [trajectories] is: item r carries row r of U1s and U2s and
    of their two refinements, and every item carries the same three
    grids. *)
Theorem grid_convergence_items (prep : kwargs)
    (randn : nat -> nat -> nat -> ndarray2)
    (integrator_fn : kwargs -> result (list (list R)))
    (times : list R) (U1s U2s : ndarray2) (trajectories : nat)
    (s : gmap loc (gmap string pyval)) (k : nat) :
  array2_wf U1s -> array2_wf U2s -> nrows U2s = nrows U1s ->
  ncols U1s = (4 * k)%nat -> ncols U2s = (4 * k)%nat ->
  exists items U1s_2 U2s_2 U1s_4 U2s_4,
    (homodyne_strong_grid_convergence prep randn integrator_fn times
       (Some U1s) (Some U2s) trajectories s).1 = Ok items /\
    double_increments times U1s (Some U2s)
    = Ok (stride2 times, U1s_2, Some U2s_2) /\
    double_increments (stride2 times) U1s_2 (Some U2s_2)
    = Ok (stride2 (stride2 times), U1s_4, Some U2s_4) /\
    length items = nrows U1s /\
    map wi_U1s items = rows U1s /\ map wi_U2s items = rows U2s /\
    map wi_U1s_2 items = rows U1s_2 /\ map wi_U2s_2 items = rows U2s_2 /\
    map wi_U1s_4 items = rows U1s_4 /\ map wi_U2s_4 items = rows U2s_4 /\
    Forall (fun w => wi_times w = times /\ wi_times_2 w = stride2 times /\
                     wi_times_4 w = stride2 (stride2 times)) items.
Proof.
  intros W1 W2 Hr Hc1 Hc2.
  destruct (double_increments_even times U1s (Some U2s) (2 * k) W1)
    as (U1s_2 & o2 & E2 & W12 & R12 & C12 & _ & U2s_2 & -> & W22 & R22 & C22 & _).
  { lia. } { intros V [= <-]. split; [exact W2|]. split; [exact Hr | lia]. }
  destruct (double_increments_even (stride2 times) U1s_2 (Some U2s_2) k W12 C12)
    as (U1s_4 & o4 & E4 & W14 & R14 & C14 & _ & U2s_4 & -> & W24 & R24 & C24 & _).
  { intros V [= <-]. split; [exact W22|]. split; congruence. }
  set (N := nrows U1s).
  destruct W1 as [L1 _], W2 as [L2 _], W12 as [L12 _], W22 as [L22 _],
    W14 as [L14 _], W24 as [L24 _].
  assert (HN1 : length (rows U1s) = N) by exact L1.
  assert (HN2 : length (rows U2s) = N) by congruence.
  assert (HN12 : length (rows U1s_2) = N) by congruence.
  assert (HN22 : length (rows U2s_2) = N) by congruence.
  assert (HN14 : length (rows U1s_4) = N) by congruence.
  assert (HN24 : length (rows U2s_4) = N) by congruence.
  eexists _, U1s_2, U2s_2, U1s_4, U2s_4.
  split.
  { unfold homodyne_strong_grid_convergence, sbind, dict_alloc, lift, sret.
    cbv beta iota zeta. rewrite E2. cbv beta iota zeta. rewrite E4.
    reflexivity. }
  split; [exact E2|]. split; [exact E4|]. simpl from_option.
  split.
  { rewrite length_map, !length_zip_with. lia. }
  split; [apply (map_proj_zip6 [] _ _ _ _ _ _ N _ _ (fun x => x.1.1.1.1.1));
          auto; intros [[[[[x1 x2] x3] x4] x5] x6]; reflexivity|].
  split; [apply (map_proj_zip6 [] _ _ _ _ _ _ N _ _ (fun x => x.1.1.1.1.2));
          auto; intros [[[[[x1 x2] x3] x4] x5] x6]; reflexivity|].
  split; [apply (map_proj_zip6 [] _ _ _ _ _ _ N _ _ (fun x => x.1.1.1.2));
          auto; intros [[[[[x1 x2] x3] x4] x5] x6]; reflexivity|].
  split; [apply (map_proj_zip6 [] _ _ _ _ _ _ N _ _ (fun x => x.1.1.2));
          auto; intros [[[[[x1 x2] x3] x4] x5] x6]; reflexivity|].
  split; [apply (map_proj_zip6 [] _ _ _ _ _ _ N _ _ (fun x => x.1.2));
          auto; intros [[[[[x1 x2] x3] x4] x5] x6]; reflexivity|].
  split; [apply (map_proj_zip6 [] _ _ _ _ _ _ N _ _ (fun x => x.2));
          auto; intros [[[[[x1 x2] x3] x4] x5] x6]; reflexivity|].
  apply Forall_map. apply Forall_forall.
  intros [[[[[x1 x2] x3] x4] x5] x6] _. auto.
Qed.

Lemma grid_convergence_items_witness :
  array2_wf example_U1s /\ array2_wf example_U2s /\
  exists items,
    (homodyne_strong_grid_convergence ∅ example_randn example_integrator
       example_times (Some example_U1s) (Some example_U2s) 256 ∅).1
    = Ok items /\
    length items = 1%nat /\ map wi_U1s items = [[1; 1; 1; 1]].
Proof.
  assert (Hw1 : array2_wf example_U1s)
    by (split; [reflexivity | repeat constructor]).
  assert (Hw2 : array2_wf example_U2s)
    by (split; [reflexivity | repeat constructor]).
  split; [exact Hw1|]. split; [exact Hw2|].
  destruct (grid_convergence_items ∅ example_randn example_integrator
              example_times example_U1s example_U2s 256 ∅ 1
              Hw1 Hw2 eq_refl eq_refl eq_refl)
    as (items & u2 & v2 & u4 & v4 & E & _ & _ & Hl & H1 & _).
  exists items. auto.
Defined.

(** ** The single-trajectory drivers *)

Lemma getitem_row0_nth (A : ndarray2) :
  array2_wf A -> (0 < nrows A)%nat -> getitem_row0 A = Ok (nth 0 (rows A) []).
Proof.
  intros [L _] H. unfold getitem_row0.
  destruct (rows A); [simpl in L; lia | reflexivity].
Qed.

Lemma row0_length (A : ndarray2) :
  array2_wf A -> (0 < nrows A)%nat -> length (nth 0 (rows A) []) = ncols A.
Proof.
  intros [L F] H. destruct (rows A) as [|r rs]; [simpl in L; lia|].
  inversion F; subst. assumption.
Qed.

Lemma driver_chain (randn : nat -> nat -> nat -> ndarray2) (times : list R)
    (Us : ndarray2) (k : nat) :
  array2_wf Us -> ncols Us = (4 * k)%nat -> (0 < nrows Us)%nat ->
  exists u2 u4 : list R,
    length u2 = (2 * k)%nat /\ length u4 = k /\
    (forall n, (n < 2 * k)%nat ->
       nth n u2 0 = (aget Us 0 (2 * n) + aget Us 0 (2 * n + 1)) / sqrt 2) /\
    (forall n, (n < k)%nat ->
       nth n u4 0 = (aget Us 0 (4 * n) + aget Us 0 (4 * n + 1)
                     + aget Us 0 (4 * n + 2) + aget Us 0 (4 * n + 3)) / 2) /\
    forall integrate,
      milstein_grid_convergence integrate randn times (Some Us)
      = three_resolutions integrate times (nth 0 (rows Us) []) u2 u4.
Proof.
  intros Hwf Hc Hr.
  assert (HN : forall (A : ndarray2) (m : nat) V, @None ndarray2 = Some V ->
            array2_wf V /\ nrows V = nrows A /\ ncols V = m)
    by (intros A m V [=]).
  destruct (double_increments_even times Us None (2 * k) Hwf)
    as (U2 & o2 & E2 & W2 & R2 & C2 & G2 & ->); [lia | apply HN |].
  destruct (double_increments_even (stride2 times) U2 None k W2 C2)
    as (U4 & o4 & E4 & W4 & R4 & C4 & G4 & ->); [apply HN|].
  exists (nth 0 (rows U2) []), (nth 0 (rows U4) []).
  split; [rewrite row0_length by (auto; lia); exact C2|].
  split; [rewrite row0_length by (auto; lia); exact C4|].
  split; [intros n Hn; apply (G2 0%nat n); lia|].
  split.
  { intros n Hn. change (nth n (nth 0 (rows U4) []) 0) with (aget U4 0 n).
    rewrite G4 by lia. rewrite !G2 by lia.
    replace (2 * (2 * n))%nat with (4 * n)%nat by lia.
    replace (2 * (2 * n) + 1)%nat with (4 * n + 1)%nat by lia.
    replace (2 * (2 * n + 1))%nat with (4 * n + 2)%nat by lia.
    replace (4 * n + 2 + 1)%nat with (4 * n + 3)%nat by lia.
    pose proof sqrt2_neq_0 as Hs.
    assert (Hs2 : sqrt 2 * sqrt 2 = 2) by (apply sqrt_def; lra).
    set (s := sqrt 2) in *. rewrite <- Hs2. field. exact Hs. }
  intros integrate. unfold milstein_grid_convergence, three_resolutions.
  rewrite bind_Ok. cbv beta. rewrite E2, bind_Ok. cbv beta iota.
  rewrite E4, bind_Ok. cbv beta iota.
  rewrite (getitem_row0_nth Us), bind_Ok by assumption. cbv beta.
  destruct (integrate times (nth 0 (rows Us) [])) as [rhos|e]; [|reflexivity].
  rewrite !bind_Ok. cbv beta.
  rewrite (getitem_row0_nth U2), bind_Ok by (auto; lia). cbv beta.
  destruct (integrate (stride2 times) (nth 0 (rows U2) [])) as [rhos2|e];
    [|reflexivity].
  rewrite !bind_Ok. cbv beta.
  rewrite (getitem_row0_nth U4), bind_Ok by (auto; lia). cbv beta.
  reflexivity.
Qed.

(** X16.  With a noise array of 4k columns and at least one row, both
    drivers integrate three times, in this order: the first row on the given
    grid, then its pairwise sums over sqrt 2 on every second time, then its
    sums of four over 2 on every fourth time.  The first exception of the
    integrator ends the run. *)
Theorem drivers_integrate_three_resolutions
    (randn : nat -> nat -> nat -> ndarray2) (times : list R)
    (Us : ndarray2) (k : nat) :
  array2_wf Us -> ncols Us = (4 * k)%nat -> (0 < nrows Us)%nat ->
  exists u2 u4 : list R,
    length u2 = (2 * k)%nat /\ length u4 = k /\
    (forall n, (n < 2 * k)%nat ->
       nth n u2 0 = (aget Us 0 (2 * n) + aget Us 0 (2 * n + 1)) / sqrt 2) /\
    (forall n, (n < k)%nat ->
       nth n u4 0 = (aget Us 0 (4 * n) + aget Us 0 (4 * n + 1)
                     + aget Us 0 (4 * n + 2) + aget Us 0 (4 * n + 3)) / 2) /\
    forall integrate,
      milstein_grid_convergence integrate randn times (Some Us)
      = three_resolutions integrate times (nth 0 (rows Us) []) u2 u4 /\
      faulty_milstein_grid_convergence integrate randn times (Some Us)
      = three_resolutions integrate times (nth 0 (rows Us) []) u2 u4.
Proof.
  intros Hwf Hc Hr.
  destruct (driver_chain randn times Us k Hwf Hc Hr)
    as (u2 & u4 & L2 & L4 & G2 & G4 & E).
  exists u2, u4. repeat (split; [assumption|]).
  intros integrate. split; [apply E | exact (E integrate)].
Qed.

Lemma drivers_integrate_three_resolutions_witness :
  array2_wf example_U1s /\
  exists u2 u4 : list R,
    length u2 = 2%nat /\ length u4 = 1%nat /\
    milstein_grid_convergence (fun ts us => Ok [ts; us])
      example_randn example_times (Some example_U1s)
    = three_resolutions (fun ts us => Ok [ts; us]) example_times
        (nth 0 (rows example_U1s) []) u2 u4.
Proof.
  assert (Hw : array2_wf example_U1s)
    by (split; [reflexivity | repeat constructor]).
  split; [exact Hw|].
  destruct (drivers_integrate_three_resolutions example_randn example_times
              example_U1s 1 Hw eq_refl (le_n 1))
    as (u2 & u4 & L2 & L4 & _ & _ & E).
  exists u2, u4. split; [exact L2|]. split; [exact L4|].
  exact (proj1 (E (fun ts us => Ok [ts; us]))).
Defined.

(** X17.  Both drivers refine the whole noise array but integrate its first
    row only: two arrays of 4k columns with the same first row give the same
    result, and the random generator is not consulted. *)
Theorem drivers_use_only_the_first_trajectory
    (integrate : list R -> list R -> result (list (list R)))
    (randn randn' : nat -> nat -> nat -> ndarray2) (times : list R)
    (Us Us' : ndarray2) (k : nat) :
  array2_wf Us -> ncols Us = (4 * k)%nat -> (0 < nrows Us)%nat ->
  array2_wf Us' -> ncols Us' = (4 * k)%nat -> (0 < nrows Us')%nat ->
  nth 0 (rows Us') [] = nth 0 (rows Us) [] ->
  milstein_grid_convergence integrate randn' times (Some Us')
  = milstein_grid_convergence integrate randn times (Some Us) /\
  faulty_milstein_grid_convergence integrate randn' times (Some Us')
  = faulty_milstein_grid_convergence integrate randn times (Some Us).
Proof.
  intros Hwf Hc Hr Hwf' Hc' Hr' H0.
  destruct (driver_chain randn times Us k Hwf Hc Hr)
    as (u2 & u4 & L2 & L4 & G2 & G4 & E).
  destruct (driver_chain randn' times Us' k Hwf' Hc' Hr')
    as (u2' & u4' & L2' & L4' & G2' & G4' & E').
  assert (A : forall n, aget Us' 0 n = aget Us 0 n)
    by (intros n; unfold aget; rewrite H0; reflexivity).
  assert (E2 : u2' = u2).
  { apply (list_eq_nth 0); [congruence|]. intros n Hn.
    rewrite G2', G2 by lia. rewrite !A. reflexivity. }
  assert (E4 : u4' = u4).
  { apply (list_eq_nth 0); [congruence|]. intros n Hn.
    rewrite G4', G4 by lia. rewrite !A. reflexivity. }
  unfold faulty_milstein_grid_convergence.
  fold (milstein_grid_convergence integrate randn' times (Some Us')).
  fold (milstein_grid_convergence integrate randn times (Some Us)).
  rewrite E, E', H0, E2, E4. split; reflexivity.
Qed.

Lemma drivers_use_only_the_first_trajectory_witness :
  milstein_grid_convergence (fun ts us => Ok [ts; us]) example_randn
    example_times (Some (mk_ndarray2 2 4 [[1; 1; 1; 1]; [5; 6; 7; 8]]))
  = milstein_grid_convergence (fun ts us => Ok [ts; us]) example_randn
      example_times (Some example_U1s).
Proof.
  refine (proj1 (drivers_use_only_the_first_trajectory
                   (fun ts us => Ok [ts; us]) example_randn example_randn
                   example_times example_U1s
                   (mk_ndarray2 2 4 [[1; 1; 1; 1]; [5; 6; 7; 8]]) 1
                   _ eq_refl (le_n 1) _ eq_refl _ eq_refl)).
  - split; [reflexivity | repeat constructor].
  - split; [reflexivity | repeat constructor].
  - simpl. lia.
Defined.

(** X18.  Empty input to the drivers.  Without noise and with an empty
    list of times, [np.random.randn(1, -1)] raises [ValueError]; a noise
    array with no rows passes both refinements and then raises [IndexError]
    at [Us[0]], before anything is integrated. *)
Theorem drivers_reject_empty_input
    (integrate : list R -> list R -> result (list (list R)))
    (randn : nat -> nat -> nat -> ndarray2) (times : list R)
    (Us : ndarray2) (k : nat) :
  array2_wf Us -> ncols Us = (4 * k)%nat -> nrows Us = 0%nat ->
  milstein_grid_convergence integrate randn [] None = Raise ValueError /\
  faulty_milstein_grid_convergence integrate randn [] None
  = Raise ValueError /\
  milstein_grid_convergence integrate randn times (Some Us)
  = Raise IndexError /\
  faulty_milstein_grid_convergence integrate randn times (Some Us)
  = Raise IndexError.
Proof.
  intros Hwf Hc Hr.
  split; [reflexivity|]. split; [reflexivity|].
  assert (HN : forall (A : ndarray2) (m : nat) V, @None ndarray2 = Some V ->
            array2_wf V /\ nrows V = nrows A /\ ncols V = m)
    by (intros A m V [=]).
  destruct (double_increments_even times Us None (2 * k) Hwf)
    as (U2 & o2 & E2 & W2 & R2 & C2 & G2 & ->); [lia | apply HN |].
  destruct (double_increments_even (stride2 times) U2 None k W2 C2)
    as (U4 & o4 & E4 & W4 & R4 & C4 & G4 & ->); [apply HN|].
  assert (E : milstein_grid_convergence integrate randn times (Some Us)
              = Raise IndexError).
  { unfold milstein_grid_convergence.
    rewrite bind_Ok. cbv beta. rewrite E2, bind_Ok. cbv beta iota.
    rewrite E4, bind_Ok. cbv beta iota.
    unfold getitem_row0 at 1. destruct Hwf as [L _].
    destruct (rows Us); [reflexivity | simpl in L; lia]. }
  split; exact E.
Qed.

Lemma drivers_reject_empty_input_witness :
  array2_wf (mk_ndarray2 0 4 []) /\
  milstein_grid_convergence (fun ts us => Ok [ts; us]) example_randn
    example_times (Some (mk_ndarray2 0 4 [])) = Raise IndexError.
Proof.
  assert (Hw : array2_wf (mk_ndarray2 0 4 []))
    by (split; [reflexivity | constructor]).
  split; [exact Hw|].
  exact (proj1 (proj2 (proj2
           (drivers_reject_empty_input (fun ts us => Ok [ts; us])
              example_randn example_times (mk_ndarray2 0 4 []) 1
              Hw eq_refl eq_refl)))).
Defined.

(** ** Sharing of the keyword dictionary *)

Lemma grid_convergence_item_count (prep : kwargs)
    (randn : nat -> nat -> nat -> ndarray2)
    (integrator_fn : kwargs -> result (list (list R)))
    (times : list R) (U1s U2s : option ndarray2) (trajectories : nat)
    (s : gmap loc (gmap string pyval)) (A1 A2 : ndarray2) (k : nat) :
  match U1s with
  | Some U => Ok U
  | None => np_random_randn randn 0 trajectories times
  end = Ok A1 ->
  match U2s with
  | Some U => Ok U
  | None => np_random_randn randn
              (match U1s with Some _ => 0%nat | None => 1%nat end)
              trajectories times
  end = Ok A2 ->
  array2_wf A1 -> array2_wf A2 -> nrows A2 = nrows A1 ->
  ncols A1 = (4 * k)%nat -> ncols A2 = (4 * k)%nat ->
  exists items,
    (homodyne_strong_grid_convergence prep randn integrator_fn times
       U1s U2s trajectories s).1 = Ok items /\
    length items = nrows A1.
Proof.
  intros R1 R2 W1 W2 Hr Hc1 Hc2.
  destruct (double_increments_even times A1 (Some A2) (2 * k) W1)
    as (U1s_2 & o2 & E2 & W12 & R12 & C12 & _ & U2s_2 & -> & W22 & R22 & C22 & _).
  { lia. } { intros V [= <-]. split; [exact W2|]. split; [exact Hr | lia]. }
  destruct (double_increments_even (stride2 times) U1s_2 (Some U2s_2) k W12 C12)
    as (U1s_4 & o4 & E4 & W14 & R14 & C14 & _ & U2s_4 & -> & W24 & R24 & C24 & _).
  { intros V [= <-]. split; [exact W22|]. split; congruence. }
  destruct W1 as [L1 _], W2 as [L2 _], W12 as [L12 _], W22 as [L22 _],
    W14 as [L14 _], W24 as [L24 _].
  eexists. split.
  { unfold homodyne_strong_grid_convergence, sbind, dict_alloc, lift, sret.
    cbv beta iota zeta. rewrite R1. cbv beta iota zeta.
    rewrite R2. cbv beta iota zeta. rewrite E2. cbv beta iota zeta.
    rewrite E4. reflexivity. }
  simpl from_option. rewrite length_map, !length_zip_with. lia.
Qed.

Lemma constant_randn_shape (i r c : nat) :
  array2_wf (constant_randn i r c) /\
  nrows (constant_randn i r c) = r /\ ncols (constant_randn i r c) = c.
Proof.
  split; [|split; reflexivity]. split; simpl.
  - apply length_replicate.
  - apply Forall_replicate, length_replicate.
Qed.

(** C10.  [homodyne_strong_calc_rate] writes the finest grid and noise into
    the caller's dictionary under 'ts', 'U1s' and 'U2s'.
    [homodyne_strong_grid_convergence] allocates one dictionary, and every
    work item it returns refers to that one object, so that running one item
    changes the dictionary the other items hold.  The items are there to
    share it: with both noise arrays supplied (4k columns, equally many
    rows) the driver returns one item per noise row, and with both arrays
    generated, on a grid of 4k intervals, one item per trajectory. *)
Theorem keyword_args_shared_and_mutated
    (integrator_fn : kwargs -> result (list (list R)))
    (keyword_args : loc)
    (times U1s U2s times_2 U1s_2 U2s_2 times_4 U1s_4 U2s_4 : list R)
    (s : gmap loc (gmap string pyval)) (d : kwargs)
    (prep : kwargs) (randn : nat -> nat -> nat -> ndarray2)
    (grid : list R) (U1b U2b : option ndarray2) (trajectories : nat)
    (s0 : gmap loc (gmap string pyval)) :
  s !! keyword_args = Some d ->
  let d' := with_grid d times U1s U2s in
  let out := homodyne_strong_grid_convergence prep randn integrator_fn grid
               U1b U2b trajectories s0 in
  ((homodyne_strong_calc_rate integrator_fn keyword_args
      times U1s U2s times_2 U1s_2 U2s_2 times_4 U1s_4 U2s_4 s).2
   !! keyword_args = Some d' /\
   d' !! "ts"%string = Some (PyArray times) /\
   d' !! "U1s"%string = Some (PyArray U1s) /\
   d' !! "U2s"%string = Some (PyArray U2s)) /\
  (exists kw,
     s0 !! kw = None /\ out.2 !! kw = Some prep /\
     forall items, out.1 = Ok items ->
       Forall (fun w => wi_keyword_args w = kw) items /\
       forall w1 w2, In w1 items -> In w2 items ->
         (run_work_item w1 out.2).2 !! wi_keyword_args w2
         = Some (with_grid prep (wi_times w1) (wi_U1s w1) (wi_U2s w1))) /\
  (forall U1 U2 k,
     U1b = Some U1 -> U2b = Some U2 ->
     array2_wf U1 -> array2_wf U2 -> nrows U2 = nrows U1 ->
     ncols U1 = (4 * k)%nat -> ncols U2 = (4 * k)%nat ->
     exists items, out.1 = Ok items /\ length items = nrows U1) /\
  (forall k,
     U1b = None -> U2b = None ->
     (forall i r c, array2_wf (randn i r c) /\
                    nrows (randn i r c) = r /\ ncols (randn i r c) = c) ->
     length grid = S (4 * k) ->
     exists items, out.1 = Ok items /\ length items = trajectories).
Proof.
  intros Hd d' out. split; [|split; [|split]].
  - split; [apply calc_rate_mutates; exact Hd|].
    unfold d', with_grid. split; [|split].
    + rewrite !lookup_insert_ne by discriminate. apply lookup_insert_eq.
    + rewrite lookup_insert_ne by discriminate. apply lookup_insert_eq.
    + apply lookup_insert_eq.
  - destruct (grid_convergence_shares_dict prep randn integrator_fn grid
                U1b U2b trajectories s0) as [Hs1 Hall].
    fold out in Hs1, Hall.
    assert (Hprep : out.2 !! fresh (dom s0) = Some prep)
      by (rewrite Hs1; apply lookup_insert_eq).
    exists (fresh (dom s0)).
    split; [apply fresh_dom_None|]. split; [exact Hprep|].
    intros items Hitems. specialize (Hall items Hitems).
    split; [exact Hall|].
    intros w1 w2 H1 H2. rewrite Forall_forall in Hall.
    rewrite (Hall w2) by (apply list_elem_of_In; exact H2).
    unfold run_work_item.
    rewrite (Hall w1) by (apply list_elem_of_In; exact H1).
    apply calc_rate_mutates. exact Hprep.
  - intros U1 U2 k -> -> W1 W2 Hr Hc1 Hc2.
    apply (grid_convergence_item_count prep randn integrator_fn grid
             (Some U1) (Some U2) trajectories s0 U1 U2 k); auto.
  - intros k -> -> Hrandn Hgrid.
    destruct grid as [|t0 rest]; [discriminate Hgrid|].
    assert (Hrest : length rest = (4 * k)%nat) by (simpl in Hgrid; lia).
    destruct (Hrandn 0%nat trajectories (length rest)) as (W1 & N1 & C1).
    destruct (Hrandn 1%nat trajectories (length rest)) as (W2 & N2 & C2).
    destruct (grid_convergence_item_count prep randn integrator_fn
                (t0 :: rest) None None trajectories s0
                (randn 0%nat trajectories (length rest))
                (randn 1%nat trajectories (length rest)) k)
      as (items & E & L); try reflexivity; try assumption; try congruence.
    exists items. split; [exact E | congruence].
Qed.

Lemma keyword_args_shared_and_mutated_witness :
  example_store !! 1%positive = Some ∅ /\
  (homodyne_strong_calc_rate example_integrator 1%positive
     [0; 1; 2] [1; 1] [0; 0] [0; 2] [1] [0] [0] [] [] example_store).2
  !! 1%positive = Some (with_grid ∅ [0; 1; 2] [1; 1] [0; 0]) /\
  (exists w1 w2,
     (homodyne_strong_grid_convergence ∅ example_randn example_integrator
        example_times (Some example_U1s_pair) (Some example_U2s_pair) 256 ∅).1
     = Ok [w1; w2] /\
     wi_U1s w1 = [1; 1; 1; 1] /\ wi_U1s w2 = [2; 2; 2; 2] /\
     (run_work_item w1
        (homodyne_strong_grid_convergence ∅ example_randn example_integrator
           example_times (Some example_U1s_pair) (Some example_U2s_pair)
           256 ∅).2).2 !! wi_keyword_args w2
     = Some (with_grid ∅ (wi_times w1) (wi_U1s w1) (wi_U2s w1))) /\
  exists items,
    (homodyne_strong_grid_convergence ∅ constant_randn example_integrator
       example_times None None 3 ∅).1 = Ok items /\
    length items = 3%nat.
Proof.
  assert (H : example_store !! 1%positive = Some ∅) by reflexivity.
  split; [exact H|].
  split.
  { exact (proj1 (proj1 (keyword_args_shared_and_mutated example_integrator
                   1%positive [0; 1; 2] [1; 1] [0; 0] [0; 2] [1] [0] [0] [] []
                   example_store ∅ ∅ example_randn example_times
                   (Some example_U1s_pair) (Some example_U2s_pair) 256 ∅ H))). }
  split.
  - destruct (keyword_args_shared_and_mutated example_integrator
                1%positive [0; 1; 2] [1; 1] [0; 0] [0; 2] [1] [0] [0] [] []
                example_store ∅ ∅ example_randn example_times
                (Some example_U1s_pair) (Some example_U2s_pair) 256 ∅ H)
      as (_ & (kw & _ & _ & Hshare) & Hcount & _).
    destruct (Hcount example_U1s_pair example_U2s_pair 1%nat eq_refl eq_refl)
      as (items & E & L); try reflexivity;
      try (split; [reflexivity | repeat constructor]).
    destruct (Hshare items E) as [_ Hrun].
    destruct items as [|w1 [|w2 [|w3 items]]]; try discriminate L.
    assert (E0 : exists a b,
              (homodyne_strong_grid_convergence ∅ example_randn
                 example_integrator example_times (Some example_U1s_pair)
                 (Some example_U2s_pair) 256 ∅).1 = Ok [a; b] /\
              wi_U1s a = [1; 1; 1; 1] /\ wi_U1s b = [2; 2; 2; 2])
      by (eexists _, _; split; [reflexivity | split; reflexivity]).
    destruct E0 as (a & b & E0 & Ha & Hb).
    assert (Eab : [a; b] = [w1; w2]) by congruence.
    assert (a = w1) as -> by congruence.
    assert (b = w2) as -> by congruence.
    exists w1, w2. split; [exact E|]. split; [exact Ha|]. split; [exact Hb|].
    apply Hrun; simpl; auto.
  - destruct (keyword_args_shared_and_mutated example_integrator
                1%positive [0; 1; 2] [1; 1] [0; 0] [0; 2] [1] [0] [0] [] []
                example_store ∅ ∅ constant_randn example_times
                None None 3 ∅ H)
      as (_ & _ & _ & Hgen).
    exact (Hgen 1%nat eq_refl eq_refl constant_randn_shape eq_refl).
Defined.
